(** * Mirror status aggregation of archweb: mirrors/utils.py

    A shallow embedding of [annotate_url], [url_delays],
    [get_mirror_statuses], [get_mirror_errors] and
    [get_mirror_url_for_download], and the properties of the
    specification that concern them.

    Conventions of the embedding.
    - A [datetime] is the number of microseconds since the epoch, a
      [timedelta] a number of microseconds (both in [Z]); the [days] and
      [seconds] attributes of a timedelta are read off by floor division,
      as Python normalises them.
    - Python floats are rationals ([Qc]): the arithmetic is exact, rounding
      is outside the model.
    - A queryset is the list of its rows in the order the store yields
      them; a nullable column is an [option].
    - What an aggregate is depends on the engine: AVG over the difference
      of two datetimes is an interval on PostgreSQL, handed back as a
      timedelta, and a plain number on sqlite ([Delay]).
    - A call either returns or raises: [result]. *)

From Stdlib Require Import ZArith QArith Qcanon String Lia Sorted Permutation.
From stdpp Require Import numbers strings gmap list.

Open Scope Z_scope.

(** ** Python: exceptions, timedelta *)

Module Py.

Inductive exn : Type :=
  | TypeError
  | NameError          (* UnboundLocalError is a subclass of NameError *)
  | ZeroDivisionError
  | AttributeError
  | DoesNotExist.

Inductive result (A : Type) : Type :=
  | Ok (a : A)
  | Raise (e : exn).
Arguments Ok {A} a.
Arguments Raise {A} e.

Global Instance result_ret : MRet result := λ A a, Ok a.
Global Instance result_bind : MBind result := λ A B k c,
  match c with
  | Ok a => k a
  | Raise e => Raise e
  end.

Global Instance result_fmap : FMap result := λ A B f c,
  match c with
  | Ok a => Ok (f a)
  | Raise e => Raise e
  end.

Global Instance exn_eq_dec : EqDecision exn.
Proof. solve_decision. Defined.
Global Instance result_eq_dec {A} `{EqDecision A} : EqDecision (result A).
Proof. solve_decision. Defined.

(** [for x in xs: f(x)], stopping at the first exception. *)
Fixpoint for_each {A B} (f : A → result B) (xs : list A) : result (list B) :=
  match xs with
  | [] => Ok []
  | x :: xs' =>
      y ← f x; ys ← for_each f xs'; Ok (y :: ys)
  end.

(** Truth value of an optional integer argument: [if mirror_id:]. *)
Definition truthy (v : option Z) : bool :=
  match v with
  | Some n => negb (n =? 0)
  | None => false
  end.

Definition us_per_second : Z := 1000000.
Definition us_per_day : Z := 86400 * us_per_second.

(** [timedelta(minutes=m)], [timedelta(hours=h)] *)
Definition minutes (m : Z) : Z := m * 60 * us_per_second.
Definition hours (h : Z) : Z := h * 3600 * us_per_second.

(** The attributes [d.days] and [d.seconds] of a normalised timedelta. *)
Definition days (d : Z) : Z := d `div` us_per_day.
Definition seconds (d : Z) : Z := (d `mod` us_per_day) `div` us_per_second.
Definition microseconds (d : Z) : Z := d `mod` us_per_second.

End Py.
Import Py.

Definition float (n : Z) : Qc := Qc_of_Z n.

(** ** The store: vendor, aggregates, ordering *)

Inductive Vendor : Type := sqlite | postgresql | mysql | oracle.

Global Instance Vendor_eq_dec : EqDecision Vendor.
Proof. solve_decision. Defined.

(** The year of a datetime (UTC, proleptic Gregorian calendar): sqlite
    keeps a datetime as a text that starts with the year, and a text used
    as a number is the number it starts with. *)
Definition year_of (t : Z) : Z :=
  let z := t `div` us_per_day + 719468 in
  let era := z `div` 146097 in
  let doe := z - era * 146097 in
  let yoe :=
    (doe - doe `div` 1460 + doe `div` 36524 - doe `div` 146096) `div` 365 in
  let doy := doe - (365 * yoe + yoe `div` 4 - yoe `div` 100) in
  let mp := (5 * doy + 2) `div` 153 in
  yoe + era * 400 + (if bool_decide (mp < 10) then 0 else 1).

Module Sql.

(** The non-NULL values of a column. *)
Definition non_null {A} (col : list (option A)) : list A := omap id col.

(** COUNT(col): the number of non-NULL values. *)
Definition Count {A} (col : list (option A)) : Z :=
  Z.of_nat (length (non_null col)).

Definition max_of (x : Z) (xs : list Z) : Z := foldr Z.max x xs.
Definition min_of (x : Z) (xs : list Z) : Z := foldr Z.min x xs.

(** MAX(col), MIN(col): NULL when there is no non-NULL value. *)
Definition Max (col : list (option Z)) : option Z :=
  match non_null col with
  | [] => None
  | x :: xs => Some (max_of x xs)
  end.

Definition Min (col : list (option Z)) : option Z :=
  match non_null col with
  | [] => None
  | x :: xs => Some (min_of x xs)
  end.

Definition Qcsum (xs : list Qc) : Qc := foldr Qcplus 0%Qc xs.
Definition Zsum (xs : list Z) : Z := foldr Z.add 0 xs.

(** AVG(col) over a float column. *)
Definition Avg (col : list (option Qc)) : option Qc :=
  match non_null col with
  | [] => None
  | xs => Some (Qcsum xs / float (Z.of_nat (length xs)))%Qc
  end.

(** C's [rint] of the quotient n / d, for d > 0: the nearest integer, a
    tie going to the even one. *)
Definition rint (n d : Z) : Z :=
  let q := n `div` d in
  let r := n `mod` d in
  if bool_decide (2 * r < d) then q
  else if bool_decide (d < 2 * r) then q + 1
  else if Z.even q then q else q + 1.

(** AVG over an interval column, as PostgreSQL computes it. The
    difference of two timestamps is an interval of whole days and a time
    below a day (timestamp_mi with interval_justify_hours, which
    truncates). The aggregate adds days and times apart and divides the
    sums by the count (interval_div): the days are truncated, their
    remainder is turned into microseconds and rounded, and it is added to
    the quotient of the times, which is rounded in turn. The driver turns
    the interval into a timedelta of that many microseconds. *)
Definition Avg_interval (col : list (option Z)) : option Z :=
  match non_null col with
  | [] => None
  | xs =>
      let n := Z.of_nat (length xs) in
      let day := Zsum ((λ x, x `quot` us_per_day) <$> xs) in
      let time := Zsum ((λ x, x `rem` us_per_day) <$> xs) in
      let sec_remainder := rint ((day `rem` n) * us_per_day) n in
      Some ((day `quot` n) * us_per_day + rint (time + sec_remainder * n) n)
  end.

(** ORDER BY as a stable insertion sort on a boolean "comes before or
    together with". *)
Fixpoint insert_by {A} (le : A → A → bool) (x : A) (l : list A) : list A :=
  match l with
  | [] => [x]
  | y :: l' => if le x y then x :: l else y :: insert_by le x l'
  end.

Definition order_by {A} (le : A → A → bool) (l : list A) : list A :=
  foldr (insert_by le) [] l.

(** Ascending order of a nullable float column. Where NULL goes is the
    vendor's choice: first on sqlite and mysql, last on postgresql and
    oracle. *)
Definition nulls_first (v : Vendor) : bool :=
  match v with
  | sqlite | mysql => true
  | postgresql | oracle => false
  end.

Definition asc_nullable (v : Vendor) (x y : option Qc) : bool :=
  match x, y with
  | Some a, Some b => bool_decide (a ≤ b)%Qc
  | None, None => true
  | None, Some _ => nulls_first v
  | Some _, None => negb (nulls_first v)
  end.

(** GROUP BY: the rows of each key, keys in order of first occurrence. *)
Fixpoint group_insert {K R} `{EqDecision K} (k : K) (r : R)
    (gs : list (K * list R)) : list (K * list R) :=
  match gs with
  | [] => [(k, [r])]
  | (k', rs) :: gs' =>
      if decide (k' = k) then (k', rs ++ [r]) :: gs'
      else (k', rs) :: group_insert k r gs'
  end.

Definition group_by {K R} `{EqDecision K} (key : R → K) (rows : list R)
    : list (K * list R) :=
  foldl (λ gs r, group_insert (key r) r gs) [] rows.

(** What [group_by] maintains while it runs over the rows: one group
    per key, holding the rows of that key seen so far, in order. *)
Definition grouped {K R} `{EqDecision K} (key : R → K)
    (gs : list (K * list R)) (seen : list R) : Prop :=
  NoDup gs.*1 ∧
  (∀ g, g ∈ gs → g.2 = filter (λ r, key r = g.1) seen ∧ g.2 ≠ []) ∧
  (∀ r, r ∈ seen → key r ∈ gs.*1).

End Sql.
Import Sql.

(** ** mirrors/models.py: the rows the functions read *)

Record Mirror : Type := {
  mirror_pk : Z;
  tier : Z;
  active : bool;
  public : bool;
}.

Record MirrorProtocol : Type := {
  protocol_name : string;     (* MirrorProtocol.protocol *)
  is_default : bool;          (* MirrorProtocol.default *)
}.

(** A MirrorUrl with its mirror and protocol joined in (select_related). *)
Record MirrorUrl : Type := {
  id_ : Z;
  url : string;
  country : string;
  protocol : MirrorProtocol;
  mirror : Mirror;
}.

Record MirrorLog : Type := {
  url_id : Z;
  check_time : Z;
  last_sync : option Z;
  duration : option Qc;
  is_success : bool;
  error : option string;
}.

(** The database: its vendor, what the engine computes for
    STDDEV_POP, how it collates text, the number it reads a stored
    datetime as when two are subtracted (where the engine has no interval
    type; what sqlite reads is [year_of]), and the two tables. *)
Record Database : Type := {
  vendor : Vendor;
  stddev_pop : list Qc → Qc;
  collate_le : string → string → bool;
  datetime_number : Z → Qc;
  mirrorurl : list MirrorUrl;
  mirrorlog : list MirrorLog;
}.

Global Instance Mirror_eq_dec : EqDecision Mirror.
Proof. solve_decision. Defined.
Global Instance MirrorProtocol_eq_dec : EqDecision MirrorProtocol.
Proof. solve_decision. Defined.
Global Instance MirrorUrl_eq_dec : EqDecision MirrorUrl.
Proof. solve_decision. Defined.
Global Instance MirrorLog_eq_dec : EqDecision MirrorLog.
Proof. solve_decision. Defined.

(** STDDEV_POP(col): NULL on no value, else what the engine computes. *)
Definition StdDev (db : Database) (col : list (option Qc)) : option Qc :=
  match non_null col with
  | [] => None
  | xs => Some (stddev_pop db xs)
  end.

(** The join of a log with its URL ([url__...] lookups). *)
Definition log_url (db : Database) (l : MirrorLog) : option MirrorUrl :=
  find (λ u, bool_decide (id_ u = url_id l)) (mirrorurl db).

(** [logs__check_time__gte=cutoff_time] for one URL. *)
Definition logs_of (db : Database) (cutoff_time : Z) (u : MirrorUrl)
    : list MirrorLog :=
  filter (λ l, url_id l = id_ u ∧ cutoff_time ≤ check_time l) (mirrorlog db).

(** ** mirrors/utils.py *)

Definition DEFAULT_CUTOFF : Z := hours 24.

(** The statistics [get_mirror_statuses] attaches to a URL object before
    [annotate_url] runs. [duration_stddev] is [None] while the attribute
    is not set (the sqlite path sets it late). *)
Record UrlStats : Type := {
  stats_url : MirrorUrl;
  check_count : Z;
  success_count : Z;
  url_last_sync : option Z;
  url_last_check : option Z;
  duration_avg : option Qc;
  duration_stddev : option (option Qc);
}.

(** What the driver hands back for AVG(check_time - last_sync): a
    timedelta (in microseconds) where the engine subtracts two datetimes
    to an interval, as PostgreSQL does; a plain number where it does not,
    as on sqlite. *)
Inductive Delay : Type :=
  | Timedelta (us : Z)
  | Number (x : Qc).

Global Instance Delay_eq_dec : EqDecision Delay.
Proof. solve_decision. Defined.

(** The URL object once [annotate_url] has run; by then its delay, if it
    has one, is a timedelta. *)
Record AnnotatedUrl : Type := {
  stats : UrlStats;
  completion_pct : Qc;
  delay : option Z;
  score : option Qc;
}.

(** [hours = url.delay.days * 24.0 + url.delay.seconds / 3600.0] *)
Definition delay_hours (d : Z) : Qc :=
  (float (days d) * float 24 + float (seconds d) / float 3600)%Qc.

(** The small value of the [else] branch, 0.005. *)
Definition small_divisor : Qc := Q2Qc (5 # 1000).

Definition score_divisor (pct : Qc) : Qc :=
  if bool_decide (0 < pct)%Qc then pct else small_divisor.

Definition annotate_url (u : UrlStats) (d : option Delay)
    : result AnnotatedUrl :=
  if bool_decide (check_count u = 0) then Raise ZeroDivisionError
  else
    let pct := (float (success_count u) / float (check_count u))%Qc in
    match d with
    | Some (Number _) => Raise AttributeError      (* [url.delay.days] *)
    | Some (Timedelta dl) =>
        let hrs := delay_hours dl in
        let divisor := score_divisor pct in
        match duration_avg u with
        | None => Raise TypeError
        | Some avg =>
            match duration_stddev u with
            | None => Raise AttributeError
            | Some None => Raise TypeError
            | Some (Some sd) =>
                Ok {| stats := u; completion_pct := pct; delay := Some dl;
                      score := Some ((hrs + avg + sd) / divisor)%Qc |}
            end
        end
    | None =>
        Ok {| stats := u; completion_pct := pct; delay := None;
              score := None |}
    end.

(** The [mirror_id] column of the URL a log is joined with. *)
Definition log_mirror_id (db : Database) (l : MirrorLog) : option Z :=
  mirror_pk ∘ mirror <$> log_url db l.

(** The WHERE clause of [url_delays]; the second query joins the URL and
    adds [mirror_id = %s]. *)
Definition delay_row (db : Database) (cutoff_time : Z) (mirror_id : option Z)
    (l : MirrorLog) : Prop :=
  is_success l = true ∧ cutoff_time ≤ check_time l ∧ last_sync l ≠ None ∧
  match mirror_id with
  | None => True
  | Some m => log_mirror_id db l = Some m
  end.

Global Instance delay_row_dec db cutoff_time mirror_id l :
  Decision (delay_row db cutoff_time mirror_id l).
Proof. unfold delay_row. destruct mirror_id; apply _. Defined.

(** [check_time - last_sync] of a row (NULL when [last_sync] is). *)
Definition sync_delay (l : MirrorLog) : option Z :=
  s ← last_sync l; Some (check_time l - s).

(** [dict] of a sequence of pairs: a later pair overrides an earlier one. *)
Definition dict {V} (kvs : list (Z * V)) : gmap Z V :=
  foldl (λ d kv, <[kv.1 := kv.2]> d) ∅ kvs.

(** [d.get(k, None)] on a dictionary with nullable values. *)
Definition get_or_None {V} (d : gmap Z (option V)) (k : Z) : option V :=
  default None (d !! k).

(** A stored datetime read as a number: on sqlite the year, the number
    its text starts with. *)
Definition as_number (db : Database) (t : Z) : Qc :=
  match vendor db with
  | sqlite => float (year_of t)
  | _ => datetime_number db t
  end.

(** The same difference where two datetimes are subtracted as numbers. *)
Definition number_delay (db : Database) (l : MirrorLog) : option Qc :=
  s ← last_sync l;
  Some (as_number db (check_time l) - as_number db s)%Qc.

(** AVG(check_time - last_sync) over the rows of a group. *)
Definition Avg_delay (db : Database) (rows : list MirrorLog) : option Delay :=
  match vendor db with
  | postgresql => Timedelta <$> Avg_interval (sync_delay <$> rows)
  | _ => Number <$> Avg (number_delay db <$> rows)
  end.

Definition url_delays (db : Database) (cutoff_time : Z) (mirror_id : option Z)
    : gmap Z (option Delay) :=
  let rows := filter (delay_row db cutoff_time mirror_id) (mirrorlog db) in
  let fetchall :=
    (λ g : Z * list MirrorLog, (g.1, Avg_delay db g.2))
      <$> group_by url_id rows in
  dict fetchall.

(** The delay of a URL as the specification words it: the mean of
    [check_time - last_sync] over the logs of the window that are
    successful, timed (non-null duration) and have a last sync, of that URL
    and, when a mirror is given, of that mirror. Compared with
    [url_delays] below. *)
Definition spec_url_delay (db : Database) (cutoff_time : Z)
    (mirror_id : option Z) (uid : Z) : option Z :=
  Avg_interval (sync_delay <$>
    filter (λ l, url_id l = uid ∧ is_success l = true ∧ duration l ≠ None ∧
                 last_sync l ≠ None ∧ cutoff_time ≤ check_time l ∧
                 (mirror_id = None ∨ log_mirror_id db l = mirror_id))
      (mirrorlog db)).

(** One item of the [url_data] queryset. [item_duration_stddev] is [None]
    when the query was not annotated with it. *)
Record UrlData : Type := {
  item_id : Z;
  item_mirror_id : Z;
  item_check_count : Z;
  item_success_count : Z;
  item_last_sync : option Z;
  item_last_check : option Z;
  item_duration_avg : option Qc;
  item_duration_stddev : option (option Qc);
}.

Definition valid_urls (db : Database) (cutoff_time : Z) (mirror_id : option Z)
    : list MirrorUrl :=
  let valid :=
    filter (λ u, active (mirror u) = true ∧ public (mirror u) = true ∧
                 logs_of db cutoff_time u ≠ []) (mirrorurl db) in
  if truthy mirror_id
  then filter (λ u, Some (mirror_pk (mirror u)) = mirror_id) valid
  else valid.

(** [id__in=valid_urls] *)
Definition id_in (valid : list MirrorUrl) (u : MirrorUrl) : Prop :=
  id_ u ∈ id_ <$> valid.

Global Instance id_in_dec valid u : Decision (id_in valid u).
Proof. unfold id_in. apply _. Defined.

(** The aggregates of one URL over its logs in the window; a URL without
    such a log has no row in the join. *)
Definition url_item (db : Database) (cutoff_time : Z) (u : MirrorUrl)
    : option UrlData :=
  match logs_of db cutoff_time u with
  | [] => None
  | logs =>
      Some {| item_id := id_ u;
              item_mirror_id := mirror_pk (mirror u);
              item_check_count := Z.of_nat (length logs);
              item_success_count := Count (duration <$> logs);
              item_last_sync := Max (last_sync <$> logs);
              item_last_check := Max (Some ∘ check_time <$> logs);
              item_duration_avg := Avg (duration <$> logs);
              item_duration_stddev :=
                if decide (vendor db = sqlite) then None
                else Some (StdDev db (duration <$> logs)) |}
  end.

Definition url_data_query (db : Database) (cutoff_time : Z)
    (valid : list MirrorUrl) : list UrlData :=
  omap (url_item db cutoff_time) (filter (id_in valid) (mirrorurl db)).

(** [order_by('mirror__id', 'url')] *)
Definition by_mirror_and_url (db : Database) (u v : MirrorUrl) : bool :=
  bool_decide (mirror_pk (mirror u) < mirror_pk (mirror v)) ||
  (bool_decide (mirror_pk (mirror u) = mirror_pk (mirror v)) &&
   collate_le db (url u) (url v)).

(** The [setattr] loop: every key of the item but 'id' and 'mirror_id'
    becomes an attribute. A URL without an item gets none, and reading
    [last_check] off it raises. *)
Definition set_attributes (data : gmap Z UrlData) (u : MirrorUrl)
    : result UrlStats :=
  match data !! id_ u with
  | Some item =>
      Ok {| stats_url := u;
            check_count := item_check_count item;
            success_count := item_success_count item;
            url_last_sync := item_last_sync item;
            url_last_check := item_last_check item;
            duration_avg := item_duration_avg item;
            duration_stddev := item_duration_stddev item |}
  | None => Raise AttributeError
  end.

Record MirrorStatuses : Type := {
  st_cutoff : Z;
  st_last_check : option Z;
  st_num_checks : Z;
  st_check_frequency : option Z;
  st_urls : list AnnotatedUrl;
}.

(** [check_info]: the window, filtered by mirror when [mirror_id] is true. *)
Definition check_info (db : Database) (cutoff_time : Z) (mirror_id : option Z)
    : list MirrorLog :=
  let window := filter (λ l, cutoff_time ≤ check_time l) (mirrorlog db) in
  if truthy mirror_id
  then filter (λ l, log_mirror_id db l = mirror_id) window
  else window.

(** [(mx - mn) / (num_checks - 1)]: dividing a timedelta by an integer
    floors to the microsecond. *)
Definition check_frequency (db : Database) (cutoff_time : Z)
    (mirror_id : option Z) (num_checks : Z) : result (option Z) :=
  let info := Some ∘ check_time <$> check_info db cutoff_time mirror_id in
  if bool_decide (1 < num_checks) then
    match Max info, Min info with
    | Some mx, Some mn => Ok (Some ((mx - mn) `div` (num_checks - 1)))
    | _, _ => Raise TypeError
    end
  else Ok None.

(** [setattr(url, 'duration_stddev', 0.0)] *)
Definition fake_stddev (u : UrlStats) : UrlStats :=
  {| stats_url := stats_url u;
     check_count := check_count u;
     success_count := success_count u;
     url_last_sync := url_last_sync u;
     url_last_check := url_last_check u;
     duration_avg := duration_avg u;
     duration_stddev := Some (Some 0%Qc) |}.

(** The body of [if urls:], and its [else]: the objects with their
    attributes, [last_check], [num_checks] and [check_frequency]. Every
    object has a log in the window, so no [last_check] under [max] is
    null. *)
Definition if_urls (db : Database) (cutoff_time : Z) (mirror_id : option Z)
    (url_data : list UrlData) (urls : list MirrorUrl)
    : result (list UrlStats * option Z * Z * option Z) :=
  match urls with
  | _ :: _ =>
      let url_data := dict ((λ item, (item_id item, item)) <$> url_data) in
      objs ← for_each (set_attributes url_data) urls;
      let last_check := Max (url_last_check <$> objs) in
      let num_checks :=
        match check_count <$> objs with
        | [] => 0
        | c :: cs => max_of c cs
        end in
      frequency ← check_frequency db cutoff_time mirror_id num_checks;
      Ok (objs, last_check, num_checks, frequency)
  | [] => Ok ([], None, 0, None)
  end.

(** The body of the last loop. *)
Definition annotate_object (db : Database) (delays : gmap Z (option Delay))
    (u : UrlStats) : result AnnotatedUrl :=
  let u := if decide (vendor db = sqlite) then fake_stddev u else u in
  annotate_url u (get_or_None delays (id_ (stats_url u))).

Definition get_mirror_statuses (db : Database) (now : Z) (cutoff : Z)
    (mirror_id : option Z) : result MirrorStatuses :=
  let cutoff_time := now - cutoff in
  let valid := valid_urls db cutoff_time mirror_id in
  let url_data := url_data_query db cutoff_time valid in
  let urls :=
    order_by (by_mirror_and_url db) (filter (id_in valid) (mirrorurl db)) in
  let delays := url_delays db cutoff_time mirror_id in
  '(objs, last_check, num_checks, check_frequency) ←
    if_urls db cutoff_time mirror_id url_data urls;
  annotated ← for_each (annotate_object db delays) objs;
  Ok {| st_cutoff := cutoff;
        st_last_check := last_check;
        st_num_checks := num_checks;
        st_check_frequency := check_frequency;
        st_urls := annotated |}.

(** [django_countries.fields.Country]: a wrapper around the code. *)
Inductive Country : Type := mkCountry (code : string).

(** The columns an error row is grouped by: [values('url__url',
    'url__country', 'url__protocol__protocol', 'url__mirror__tier',
    'error')]. *)
Record ErrorKey : Type := {
  url__url : string;
  url__country : string;
  url__protocol__protocol : string;
  url__mirror__tier : Z;
  row_error : option string;
}.

Global Instance ErrorKey_eq_dec : EqDecision ErrorKey.
Proof. solve_decision. Defined.

Definition error_key (r : MirrorLog * MirrorUrl) : ErrorKey :=
  {| url__url := url r.2;
     url__country := country r.2;
     url__protocol__protocol := protocol_name (protocol r.2);
     url__mirror__tier := tier (mirror r.2);
     row_error := error r.1 |}.

Record ErrorRow : Type := {
  values : ErrorKey;
  error_count : Z;
  last_occurred : option Z;
}.

(** The filter of [get_mirror_errors], on a log joined with its URL. *)
Definition failed_row (cutoff_time : Z) (r : MirrorLog * MirrorUrl) : Prop :=
  is_success r.1 = false ∧ cutoff_time ≤ check_time r.1 ∧
  active (mirror r.2) = true ∧ public (mirror r.2) = true.

Global Instance failed_row_dec cutoff_time r : Decision (failed_row cutoff_time r).
Proof. unfold failed_row. apply _. Defined.

(** MirrorLog joined with MirrorUrl (an inner join). *)
Definition joined_logs (db : Database) : list (MirrorLog * MirrorUrl) :=
  omap (λ l, u ← log_url db l; Some (l, u)) (mirrorlog db).

(** [annotate(error_count=Count('error'), last_occurred=Max('check_time'))] *)
Definition error_row (g : ErrorKey * list (MirrorLog * MirrorUrl)) : ErrorRow :=
  {| values := g.1;
     error_count := Count (error ∘ fst <$> g.2);
     last_occurred := Max (Some ∘ (check_time ∘ fst) <$> g.2) |}.

(** NULL in a descending order: below every value here (no group is
    empty, so it does not occur). *)
Definition option_Z_ltb (x y : option Z) : bool :=
  match x, y with
  | Some a, Some b => bool_decide (a < b)
  | None, Some _ => true
  | _, None => false
  end.

(** [order_by('-last_occurred', '-error_count')] *)
Definition recent_then_frequent (r1 r2 : ErrorRow) : bool :=
  option_Z_ltb (last_occurred r2) (last_occurred r1) ||
  (bool_decide (last_occurred r1 = last_occurred r2) &&
   bool_decide (error_count r2 ≤ error_count r1)).

Definition error_rows (db : Database) (cutoff_time : Z) : list ErrorRow :=
  order_by recent_then_frequent
    (error_row <$> group_by error_key
       (filter (failed_row cutoff_time) (joined_logs db))).

(** In [get_mirror_errors] the mirror branch reads the local [urls]
    before any assignment to it. *)
Definition get_mirror_errors (db : Database) (now : Z) (cutoff : Z)
    (mirror_id : option Z) : result (list (ErrorRow * Country)) :=
  let cutoff_time := now - cutoff in
  let errors := error_rows db cutoff_time in
  if truthy mirror_id then Raise NameError
  else Ok ((λ err, (err, mkCountry (url__country (values err)))) <$> errors).

(** The filter of [best_logs]. *)
Definition best_log (db : Database) (min_check_time min_sync_time : Z)
    (l : MirrorLog) : Prop :=
  is_success l = true ∧ min_check_time ≤ check_time l ∧
  match last_sync l with
  | Some s => min_sync_time ≤ s
  | None => False
  end ∧
  match log_url db l with
  | Some u =>
      public (mirror u) = true ∧ active (mirror u) = true ∧
      is_default (protocol u) = true
  | None => False
  end.

Global Instance best_log_dec db mc ms l : Decision (best_log db mc ms l).
Proof.
  unfold best_log. destruct (last_sync l), (log_url db l); apply _.
Defined.

(** [order_by('duration')] *)
Definition by_duration (db : Database) (a b : MirrorLog) : bool :=
  asc_nullable (vendor db) (duration a) (duration b).

(** [mirror_urls] of the fallback. *)
Definition download_url (u : MirrorUrl) : Prop :=
  public (mirror u) = true ∧ active (mirror u) = true ∧
  is_default (protocol u) = true.

Global Instance download_url_dec u : Decision (download_url u).
Proof. unfold download_url. apply _. Defined.

Definition fallback_url (db : Database) : option MirrorUrl :=
  let mirror_urls := filter download_url (mirrorurl db) in
  let filtered_urls := take 1 (filter (λ u, country u = EmptyString) mirror_urls) in
  let filtered_urls :=
    match filtered_urls with
    | [] => take 1 mirror_urls
    | _ :: _ => filtered_urls
    end in
  match filtered_urls with
  | [] => None
  | u :: _ => Some u
  end.

Definition get_mirror_url_for_download (db : Database) (now : Z) (cutoff : Z)
    : result (option MirrorUrl) :=
  let cutoff_time := now - cutoff in
  let window := filter (λ l, cutoff_time ≤ check_time l) (mirrorlog db) in
  let check_time__max := Max (Some ∘ check_time <$> window) in
  let last_sync__max := Max (last_sync <$> window) in
  found ←
    match check_time__max with
    | Some mx =>
        let min_check_time := mx - minutes 5 in
        match last_sync__max with
        | None => Raise TypeError
        | Some sx =>
            let min_sync_time := sx - minutes 20 in
            let best_logs :=
              take 1 (order_by (by_duration db)
                (filter (best_log db min_check_time min_sync_time)
                   (mirrorlog db))) in
            match best_logs with
            | l :: _ =>
                match log_url db l with
                | Some u => Ok (Some u)
                | None => Raise DoesNotExist
                end
            | [] => Ok None
            end
        end
    | None => Ok None
    end;
  match found with
  | Some u => Ok (Some u)
  | None => Ok (fallback_url db)
  end.

(** ** A small store to run the functions on *)

Module Example.

Definition http : MirrorProtocol :=
  {| protocol_name := "http"; is_default := true |}.
Definition rsync : MirrorProtocol :=
  {| protocol_name := "rsync"; is_default := false |}.

Definition kernel_org : Mirror :=
  {| mirror_pk := 1; tier := 1; active := true; public := true |}.
Definition leaseweb : Mirror :=
  {| mirror_pk := 2; tier := 2; active := true; public := true |}.

Definition url1 : MirrorUrl :=
  {| id_ := 1; url := "http://mirrors.kernel.org/archlinux/"; country := "US";
     protocol := http; mirror := kernel_org |}.
Definition url2 : MirrorUrl :=
  {| id_ := 2; url := "http://mirror.leaseweb.com/archlinux/"; country := "";
     protocol := http; mirror := leaseweb |}.
Definition url3 : MirrorUrl :=
  {| id_ := 3; url := "rsync://mirror.leaseweb.com/archlinux/"; country := "NL";
     protocol := rsync; mirror := leaseweb |}.

Definition log (u t : Z) (sync : option Z) (d : option Qc) (ok : bool)
    (e : option string) : MirrorLog :=
  {| url_id := u; check_time := t; last_sync := sync; duration := d;
     is_success := ok; error := e |}.

(** A population standard deviation to six decimal places, standing for
    the engine's. *)
Definition stddev_pop_6 (xs : list Qc) : Qc :=
  let n := float (Z.of_nat (length xs)) in
  let mean := (Qcsum xs / n)%Qc in
  let var := (Qcsum ((λ x, (x - mean) * (x - mean)) <$> xs) / n)%Qc in
  let scaled := (Qnum var * 10 ^ 12) `div` Z.pos (Qden var) in
  (float (Z.sqrt scaled) / float (10 ^ 6))%Qc.

Definition store (v : Vendor) (logs : list MirrorLog) : Database :=
  {| vendor := v; stddev_pop := stddev_pop_6; collate_le := String.leb;
     datetime_number := float ∘ year_of;
     mirrorurl := [url1; url2; url3]; mirrorlog := logs |}.

(** Noon of the second day; with the default cutoff the window starts at
    noon of the first. *)
Definition noon : Z := hours 36.

(** Two timed checks of url1, one failed check of url2. *)
Definition healthy : Database :=
  store postgresql
    [log 1 (hours 34) (Some (hours 32)) (Some (Q2Qc (1 # 2))) true None;
     log 1 (hours 35) (Some (hours 32)) (Some (Q2Qc (3 # 2))) true None;
     log 2 (hours 35) None None false (Some "timed out"%string)].

(** A mirror whose clock runs ahead: its last sync is stamped an hour
    after the check that read it. *)
Definition skewed : Database :=
  store postgresql
    [log 1 (hours 34) (Some (hours 35)) (Some (Q2Qc (1 # 2))) true None].

(** Two successful checks of url1, the second without a duration. *)
Definition untimed : Database :=
  store postgresql
    [log 1 (hours 33) (Some (hours 32)) (Some (Q2Qc (1 # 2))) true None;
     log 1 (hours 35) (Some (hours 32)) None true None].

(** One check in the window, of a mirror that never reported a sync. *)
Definition unsynced : Database :=
  store postgresql
    [log 2 (hours 35) None None false (Some "timed out"%string)].

(** The only check of the window failed. *)
Definition failing : Database :=
  store postgresql
    [log 1 (hours 35) (Some (hours 32)) None false
       (Some "connection refused"%string)].

(** url2 timed out twice, url1 refused a connection in between. *)
Definition flaky : Database :=
  store postgresql
    [log 2 (hours 33) None None false (Some "timed out"%string);
     log 1 (hours 34) None None false (Some "connection refused"%string);
     log 2 (hours 35) None None false (Some "timed out"%string)].


(** One check of url1, flagged successful, with a last sync and without
    a duration. *)
Definition unmeasured : Database :=
  store postgresql [log 1 (hours 35) (Some (hours 32)) None true None].

(** No check at all: a fresh install. *)
Definition fresh_install : Database := store postgresql [].

(** The statistics of a URL checked four times, never with success, that
    carry an average duration all the same. *)
Definition never_up : UrlStats :=
  {| stats_url := url1; check_count := 4; success_count := 0;
     url_last_sync := None; url_last_check := None;
     duration_avg := Some 1%Qc; duration_stddev := Some (Some 0%Qc) |}.

(** Three successful checks of url1, one, two and two microseconds after
    the sync they found. *)
Definition jitter : Database :=
  store postgresql
    [log 1 (hours 33) (Some (hours 33 - 1)) (Some (Q2Qc (1 # 2))) true None;
     log 1 (hours 34) (Some (hours 34 - 2)) (Some (Q2Qc (1 # 2))) true None;
     log 1 (hours 35) (Some (hours 35 - 2)) (Some (Q2Qc (1 # 2))) true None].

(** The checks of [healthy] in a sqlite store. *)
Definition local : Database := store sqlite (mirrorlog healthy).

(** A sqlite store without a successful check. *)
Definition local_failing : Database := store sqlite (mirrorlog failing).


Definition url2_nameless : ErrorKey :=
  {| url__url := url url2;
     url__country := country url2;
     url__protocol__protocol := "http";
     url__mirror__tier := 2;
     row_error := None |}.

End Example.

(** ** public/views.py: the user lists and the key page *)

(** auth.User with its profile's PGP key and the names of its groups;
    devel.MasterKey and devel.PGPSignature as the views read them. Dates
    are numbers, a nullable column is an [option]. *)
Record User : Type := {
  user_pk : Z;
  first_name : string;
  last_name : string;
  user_is_active : bool;           (* User.is_active *)
  groups : list string;            (* groups__name *)
  user_pgp_key : option string;    (* userprofile.pgp_key *)
}.

Record MasterKey : Type := {
  master_pgp_key : string;         (* MasterKey.pgp_key *)
  revoked : option Z;
}.

Record PGPSignature : Type := {
  signer : string;
  signee : string;
  created : Z;
  expires : option Z;
  valid : bool;
}.

Global Instance User_eq_dec : EqDecision User.
Proof. solve_decision. Defined.
Global Instance MasterKey_eq_dec : EqDecision MasterKey.
Proof. solve_decision. Defined.
Global Instance PGPSignature_eq_dec : EqDecision PGPSignature.
Proof. solve_decision. Defined.

(** The tables of the site and how its store collates names. *)
Record Site : Type := {
  auth_user : list User;
  name_le : string → string → bool;
  master_keys : list MasterKey;
  pgp_signatures : list PGPSignature;
}.

(** One entry of USER_LISTS. *)
Record UserList : Type := {
  user_type_title : string;        (* 'user_type' *)
  user_title : string;
  description : string;
}.

Definition USER_LISTS : gmap string UserList :=
  <["devs" :=
      {| user_type_title := "Developers";
         user_title := "Developer";
         description := "This is a list of the current Arch Linux Developers. They maintain the [core] and [extra] package repositories in addition to doing any other developer duties." |}]>
  (<["tus" :=
      {| user_type_title := "Trusted Users";
         user_title := "Trusted User";
         description := "Here are all your friendly Arch Linux Trusted Users who are in charge of the [community] repository." |}]>
  (<["fellows" :=
      {| user_type_title := "Fellows";
         user_title := "Fellow";
         description := "Below you can find a list of ex-developers (aka project fellows). These folks helped make Arch what it is today. Thanks!" |}]>
   ∅)).

(** What a view does: render a template with a context, raise Http404,
    or fail on a missing dictionary key. *)
Inductive Outcome (C : Type) : Type :=
  | Rendered (template : string) (context : C)
  | Http404
  | KeyError.
Arguments Rendered {C} template context.
Arguments Http404 {C}.
Arguments KeyError {C}.

(** [order_by('first_name', 'last_name')] *)
Definition by_name (site : Site) (u v : User) : bool :=
  (name_le site (first_name u) (first_name v) &&
   negb (name_le site (first_name v) (first_name u))) ||
  (name_le site (first_name u) (first_name v) &&
   name_le site (first_name v) (first_name u) &&
   name_le site (last_name u) (last_name v)).

(** [users.filter(is_active=a, groups__name__in=names)]: the join with
    the groups gives one row per matching membership. *)
Definition filter_users (a : bool) (names : list string) (users : list User)
    : list User :=
  u ← filter (λ u, user_is_active u = a) users;
  (λ _, u) <$> filter (λ g, g ∈ names) (groups u).

Definition userlist (site : Site) (user_type : string)
    : Outcome (UserList * list User) :=
  let users := auth_user site in
  let selected :=
    if decide (user_type = "devs")
    then Some (filter_users true ["Developers"] users)
    else if decide (user_type = "tus")
    then Some (filter_users true ["Trusted Users"] users)
    else if decide (user_type = "fellows")
    then Some (filter_users false ["Developers"; "Trusted Users"] users)
    else None in
  match selected with
  | None => Http404
  | Some users =>
      let users := order_by (by_name site) (remove_dups users) in
      match USER_LISTS !! user_type with
      | Some context => Rendered "public/userlist.html" (context, users)
      | None => KeyError
      end
  end.

(** [s[-16:]] *)
Definition last16 (s : string) : string :=
  String.substring (String.length s - 16) 16 s.

(** Truth of a nullable text column: [if user.userprofile.pgp_key]. *)
Definition nonempty (s : option string) : option string :=
  match s with
  | Some EmptyString | None => None
  | Some s => Some s
  end.

(** The context of the key page. *)
Record KeysContext : Type := {
  ctx_keys : list (MasterKey * Z);          (* key, key.signature_count *)
  ctx_active_users : list User;
  ctx_signatures : gset (string * string);
  ctx_cross_signatures : list PGPSignature;
}.

(** [Q(expires__gt=utcnow) | Q(expires__isnull=True)] with [valid=True] *)
Definition in_force (utcnow : Z) (sig : PGPSignature) : Prop :=
  (match expires sig with Some e => utcnow < e | None => True end) ∧
  valid sig = true.

Global Instance in_force_dec utcnow sig : Decision (in_force utcnow sig).
Proof. unfold in_force. destruct (expires sig); apply _. Defined.

Definition user_key_ids (users : list User) : gset string :=
  list_to_set (last16 <$> omap (nonempty ∘ user_pgp_key) users).

(** [values_list('signer').annotate(Count('signer'))], then the
    dictionary keyed by the last 16 characters. *)
Definition sig_counts (utcnow : Z) (ids : gset string)
    (sigs : list PGPSignature) : gmap string Z :=
  let counted := filter (λ sig, in_force utcnow sig ∧ signee sig ∈ ids) sigs in
  let rows :=
    (λ g : string * list PGPSignature,
       (g.1, Count (Some ∘ signer <$> g.2))) <$> group_by signer counted in
  foldl (λ d kv, <[last16 kv.1 := kv.2]> d) ∅ rows.

Definition keys (site : Site) (utcnow : Z) : Outcome KeysContext :=
  let users :=
    order_by (by_name site)
      (filter (λ u, user_is_active u = true) (auth_user site)) in
  let ids := user_key_ids users in
  let unrevoked := filter (λ k, revoked k = None) (master_keys site) in
  let counts := sig_counts utcnow ids (pgp_signatures site) in
  let with_counts :=
    (λ k, (k, default 0 (counts !! last16 (master_pgp_key k)))) <$> unrevoked in
  let signatures :=
    list_to_set ((λ sig, (signer sig, signee sig)) <$>
                 filter (in_force utcnow) (pgp_signatures site)) in
  let cross_signatures :=
    order_by (λ a b, bool_decide (created a ≤ created b))
      (filter (λ sig, (signer sig ∈ ids ∧ signee sig ∈ ids) ∧
                      in_force utcnow sig) (pgp_signatures site)) in
  Rendered "public/keys.html"
    {| ctx_keys := with_counts;
       ctx_active_users := users;
       ctx_signatures := signatures;
       ctx_cross_signatures := cross_signatures |}.

(** ** A small site to run the views on *)

Module Sample.

Definition key_a : string := "ABCDEF0123456789ABCDEF0123456789AAAAAAAA".
Definition key_b : string := "0123456789ABCDEF0123456789ABCDEFBBBBBBBB".

Definition alice : User :=
  {| user_pk := 1; first_name := "Alice"; last_name := "Archer";
     user_is_active := true; groups := ["Developers"; "Trusted Users"];
     user_pgp_key := Some key_a |}.
Definition bob : User :=
  {| user_pk := 2; first_name := "Bob"; last_name := "Builder";
     user_is_active := true; groups := ["Trusted Users"];
     user_pgp_key := Some key_b |}.
Definition carol : User :=
  {| user_pk := 3; first_name := "Carol"; last_name := "Cook";
     user_is_active := false; groups := ["Developers"; "Trusted Users"];
     user_pgp_key := None |}.

Definition master : MasterKey :=
  {| master_pgp_key := "FEDCBA9876543210FEDCBA98MASTERKEY0000001";
     revoked := None |}.
Definition old_master : MasterKey :=
  {| master_pgp_key := "FEDCBA9876543210FEDCBA98MASTERKEY0000002";
     revoked := Some 100 |}.

Definition sig (s e : string) (c : Z) (x : option Z) (v : bool) : PGPSignature :=
  {| signer := s; signee := e; created := c; expires := x; valid := v |}.

Definition site : Site :=
  {| auth_user := [carol; bob; alice];
     name_le := String.leb;
     master_keys := [master; old_master];
     pgp_signatures :=
       [sig "MASTERKEY0000001" (last16 key_a) 30 None true;
        sig "MASTERKEY0000001" (last16 key_b) 20 (Some 500) true;
        sig (last16 key_a) (last16 key_b) 40 None true;
        sig (last16 key_b) (last16 key_a) 10 (Some 50) true] |}.

End Sample.

(** * Properties *)

(** ** Exceptions *)

Lemma bind_Ok {A B} (c : result A) (k : A → result B) (b : B) :
  c ≫= k = Ok b → ∃ a, c = Ok a ∧ k a = Ok b.
Proof. destruct c as [a|e]; simpl; [eauto | discriminate]. Qed.

Lemma for_each_Ok {A B} (f : A → result B) xs ys :
  for_each f xs = Ok ys → Forall2 (λ x y, f x = Ok y) xs ys.
Proof.
  revert ys. induction xs as [|x xs IH]; simpl; intros ys H.
  - injection H as <-. constructor.
  - apply bind_Ok in H as (y & Hy & H).
    apply bind_Ok in H as (ys' & Hys & H).
    injection H as <-. constructor; auto.
Qed.

Lemma for_each_elem {A B} (f : A → result B) xs ys y :
  for_each f xs = Ok ys → y ∈ ys → ∃ x, x ∈ xs ∧ f x = Ok y.
Proof.
  intros H%for_each_Ok Hy.
  induction H as [|x y' xs ys Hxy _ IH]; [by apply elem_of_nil in Hy|].
  apply elem_of_cons in Hy as [->|Hy].
  - exists x. split; [left | done].
  - destruct (IH Hy) as (x' & ? & ?). exists x'. split; [by right | done].
Qed.

(** ** ORDER BY *)

Section order_by.
Context {A : Type} (le : A → A → bool).

Lemma insert_by_perm x l : insert_by le x l ≡ₚ x :: l.
Proof.
  induction l as [|y l IH]; simpl; [done|].
  destruct (le x y); [done|]. rewrite IH. apply Permutation_swap.
Qed.

Lemma order_by_perm l : order_by le l ≡ₚ l.
Proof.
  induction l as [|x l IH]; simpl; [done|].
  unfold order_by in *. simpl. by rewrite insert_by_perm, IH.
Qed.

Lemma elem_of_order_by x l : x ∈ order_by le l ↔ x ∈ l.
Proof. by rewrite order_by_perm. Qed.

Lemma order_by_nil l : order_by le l = [] ↔ l = [].
Proof.
  split; [|by intros ->].
  intros H. apply Permutation_nil_r. by rewrite <- H, order_by_perm.
Qed.

Hypothesis le_total : ∀ x y, le x y = true ∨ le y x = true.
Hypothesis le_trans : ∀ x y z, le x y = true → le y z = true → le x z = true.

Lemma insert_by_sorted x l :
  StronglySorted (λ a b, le a b = true) l →
  StronglySorted (λ a b, le a b = true) (insert_by le x l).
Proof.
  induction 1 as [|y l Hs IH Hy]; simpl.
  - repeat constructor.
  - destruct (le x y) eqn:Hxy.
    + constructor; [by constructor|].
      constructor; [done|].
      eapply Forall_impl; [exact Hy|]. intros z. by apply le_trans.
    + constructor; [done|].
      rewrite insert_by_perm. constructor; [|done].
      destruct (le_total x y); congruence.
Qed.

Lemma order_by_sorted l :
  StronglySorted (λ a b, le a b = true) (order_by le l).
Proof.
  induction l as [|x l IH]; [constructor|].
  by apply insert_by_sorted.
Qed.

(** The first row of an ordered queryset is one of its rows and none
    comes strictly before it. *)
Lemma order_by_first x l' l :
  order_by le l = x :: l' → x ∈ l ∧ ∀ y, y ∈ l → le x y = true.
Proof.
  intros H. split.
  - apply elem_of_order_by. rewrite H. left.
  - intros y Hy%elem_of_order_by.
    pose proof (order_by_sorted l) as Hs. rewrite H in Hs, Hy.
    apply StronglySorted_inv in Hs as [_ Hall].
    apply elem_of_cons in Hy as [->|Hy].
    + destruct (le_total x x); done.
    + rewrite Forall_forall in Hall. by apply Hall.
Qed.
End order_by.

(** ** MAX and MIN *)

Lemma max_of_spec x xs :
  max_of x xs ∈ x :: xs ∧ ∀ y, y ∈ x :: xs → y ≤ max_of x xs.
Proof.
  unfold max_of. induction xs as [|z xs [IHin IHle]]; simpl.
  - split; [left|]. intros y ->%list_elem_of_singleton. lia.
  - split.
    + destruct (Z.max_spec z (foldr Z.max x xs)) as [[_ ->]|[_ ->]].
      * apply elem_of_cons in IHin as [->|?]; [left | by do 2 right].
      * right; left.
    + intros y Hy.
      apply elem_of_cons in Hy as [->|Hy].
      * specialize (IHle x (ltac:(left))). lia.
      * apply elem_of_cons in Hy as [->|Hy]; [lia|].
        specialize (IHle y (ltac:(by right))). lia.
Qed.

Lemma min_of_spec x xs :
  min_of x xs ∈ x :: xs ∧ ∀ y, y ∈ x :: xs → min_of x xs ≤ y.
Proof.
  unfold min_of. induction xs as [|z xs [IHin IHle]]; simpl.
  - split; [left|]. intros y ->%list_elem_of_singleton. lia.
  - split.
    + destruct (Z.min_spec z (foldr Z.min x xs)) as [[_ ->]|[_ ->]].
      * right; left.
      * apply elem_of_cons in IHin as [->|?]; [left | by do 2 right].
    + intros y Hy.
      apply elem_of_cons in Hy as [->|Hy].
      * specialize (IHle x (ltac:(left))). lia.
      * apply elem_of_cons in Hy as [->|Hy]; [lia|].
        specialize (IHle y (ltac:(by right))). lia.
Qed.

Lemma Max_Some col m :
  Max col = Some m ↔ m ∈ non_null col ∧ ∀ y, y ∈ non_null col → y ≤ m.
Proof.
  unfold Max. destruct (non_null col) as [|x xs].
  - split; [done|]. intros [H _]. by apply elem_of_nil in H.
  - destruct (max_of_spec x xs) as [Hin Hle]. split.
    + intros [= <-]. done.
    + intros [Hm Hall]. f_equal.
      specialize (Hle m Hm). specialize (Hall _ Hin). lia.
Qed.

Lemma Min_Some col m :
  Min col = Some m ↔ m ∈ non_null col ∧ ∀ y, y ∈ non_null col → m ≤ y.
Proof.
  unfold Min. destruct (non_null col) as [|x xs].
  - split; [done|]. intros [H _]. by apply elem_of_nil in H.
  - destruct (min_of_spec x xs) as [Hin Hle]. split.
    + intros [= <-]. done.
    + intros [Hm Hall]. f_equal.
      specialize (Hle m Hm). specialize (Hall _ Hin). lia.
Qed.

Lemma Max_None (col : list (option Z)) :
  Max col = None ↔ non_null col = [].
Proof. unfold Max. by destruct (non_null col). Qed.

Lemma non_null_Some {A B} (f : A → B) (l : list A) :
  non_null (Some ∘ f <$> l) = f <$> l.
Proof.
  unfold non_null. induction l as [|x l IH]; csimpl; [done|].
  by rewrite IH.
Qed.

Lemma elem_of_non_null {A} (col : list (option A)) x :
  x ∈ non_null col ↔ Some x ∈ col.
Proof.
  unfold non_null. rewrite list_elem_of_omap. split.
  - intros (o & Ho & Heq). simpl in Heq. by subst.
  - intros H. by exists (Some x).
Qed.

Lemma filter_none {A} (P : A → Prop) `{∀ x, Decision (P x)} (l : list A) :
  (∀ x, x ∈ l → ¬ P x) → filter P l = [].
Proof.
  induction l as [|x l IH]; intros Hall; [done|].
  rewrite filter_cons_False; [|apply Hall; left].
  apply IH. intros y Hy. apply Hall. by right.
Qed.

(** ** GROUP BY *)

Section group_by.
Context {K R : Type} `{EqDecision K} (key : R → K).

Lemma group_insert_keys k r (gs : list (K * list R)) :
  (group_insert k r gs).*1 =
    if decide (k ∈ gs.*1) then gs.*1 else gs.*1 ++ [k].
Proof.
  induction gs as [|[k' rs] gs IH]; csimpl; [done|].
  destruct (decide (k' = k)) as [->|Hne]; csimpl.
  - rewrite decide_True; [done | left].
  - rewrite IH. destruct (decide (k ∈ gs.*1)) as [Hin|Hnin].
    + rewrite decide_True; [done | by right].
    + rewrite decide_False; [done|].
      intros [?|?]%elem_of_cons; congruence.
Qed.

Lemma group_insert_NoDup k r (gs : list (K * list R)) :
  NoDup gs.*1 → NoDup (group_insert k r gs).*1.
Proof.
  intros Hnd. rewrite group_insert_keys. case_decide; [done|].
  apply NoDup_app. split_and!; [done | | apply NoDup_singleton].
  intros x Hx ->%list_elem_of_singleton. done.
Qed.

(** Where a group of the updated list comes from. *)
Lemma group_insert_elem k r (gs : list (K * list R)) g :
  NoDup gs.*1 →
  g ∈ group_insert k r gs →
  (g ∈ gs ∧ g.1 ≠ k) ∨
  (∃ rs, (k, rs) ∈ gs ∧ g = (k, rs ++ [r])) ∨
  ((k ∉ gs.*1) ∧ g = (k, [r])).
Proof.
  induction gs as [|[k' rs] gs IH]; csimpl; intros Hnd.
  - intros ->%list_elem_of_singleton. right; right.
    split; [apply not_elem_of_nil | done].
  - apply NoDup_cons in Hnd as [Hk' Hnd].
    destruct (decide (k' = k)) as [->|Hne].
    + intros [->|Hg]%elem_of_cons.
      * right; left. exists rs. split; [left | done].
      * left. split; [by right|]. intros <-. apply Hk'.
        by apply list_elem_of_fmap_2.
    + intros [->|Hg]%elem_of_cons; [left; split; [left | done]|].
      destruct (IH Hnd Hg) as [[? ?]|[(rs' & ? & ->)|[Hnin ->]]].
      * left. split; [by right | done].
      * right; left. exists rs'. split; [by right | done].
      * right; right. split; [|done].
        intros [?|?]%elem_of_cons; congruence.
Qed.

Lemma grouped_insert gs seen r :
  grouped key gs seen →
  grouped key (group_insert (key r) r gs) (seen ++ [r]).
Proof.
  intros (Hnd & Hg & Hcov). split_and!.
  - by apply group_insert_NoDup.
  - intros g Hin. rewrite filter_app.
    destruct (group_insert_elem _ _ _ _ Hnd Hin)
      as [[Hin' Hne]|[(rs & Hin' & ->)|[Hnin ->]]]; simpl.
    + destruct (Hg g Hin') as [-> Hnil].
      rewrite (filter_cons_False _ r); [|congruence].
      by rewrite filter_nil, app_nil_r.
    + destruct (Hg _ Hin') as [Heq _]. simpl in Heq. rewrite Heq.
      rewrite (filter_cons_True _ r); [|done].
      split; [done|]. by intros []%app_eq_nil.
    + rewrite (filter_cons_True _ r); [|done].
      split; [|done].
      replace (filter (λ r0, key r0 = key r) seen) with (@nil R); [done|].
      symmetry. apply filter_none. intros r' Hr' Heq. apply Hnin.
      rewrite <- Heq. by apply Hcov.
  - intros r' Hr'. rewrite group_insert_keys.
    apply elem_of_app in Hr' as [Hr'|Hr'];
      [|apply list_elem_of_singleton in Hr' as ->].
    + case_decide; [by apply Hcov|]. apply elem_of_app. left. by apply Hcov.
    + case_decide; [done|]. apply elem_of_app. right. left.
Qed.

Lemma grouped_foldl rows gs seen :
  grouped key gs seen →
  grouped key (foldl (λ gs r, group_insert (key r) r gs) gs rows)
    (seen ++ rows).
Proof.
  revert gs seen. induction rows as [|r rows IH]; simpl; intros gs seen H.
  - by rewrite app_nil_r.
  - replace (seen ++ r :: rows) with ((seen ++ [r]) ++ rows)
      by (by rewrite <- app_assoc).
    by apply IH, grouped_insert.
Qed.

Lemma group_by_grouped rows : grouped key (group_by key rows) rows.
Proof.
  apply (grouped_foldl rows [] []). split_and!.
  - constructor.
  - intros g Hg. by apply elem_of_nil in Hg.
  - intros r Hr. by apply elem_of_nil in Hr.
Qed.

(** The groups are exactly the non-empty classes of the key. *)
Lemma elem_of_group_by rows k rs :
  (k, rs) ∈ group_by key rows ↔
  rs = filter (λ r, key r = k) rows ∧ rs ≠ [].
Proof.
  destruct (group_by_grouped rows) as (Hnd & Hg & Hcov). split.
  - intros Hin. exact (Hg _ Hin).
  - intros [-> Hne].
    destruct (filter (λ r, key r = k) rows) as [|r rs'] eqn:Hf; [done|].
    assert (r ∈ filter (λ r, key r = k) rows) as Hr by (rewrite Hf; left).
    apply list_elem_of_filter in Hr as [Hk Hr].
    apply Hcov, list_elem_of_fmap in Hr as ([k' rs] & Hk' & Hin).
    simpl in Hk'. destruct (Hg _ Hin) as [Heq _]. simpl in Heq.
    rewrite Hk in Hk'. subst k'. rewrite <- Hf, <- Heq. done.
Qed.

Lemma group_by_NoDup rows : NoDup (group_by key rows).*1.
Proof. by destruct (group_by_grouped rows). Qed.
End group_by.

(** ** dict *)

Lemma dict_snoc {V} (kvs : list (Z * V)) kv :
  dict (kvs ++ [kv]) = <[kv.1 := kv.2]> (dict kvs).
Proof. unfold dict. by rewrite foldl_app. Qed.

Lemma dict_lookup_Some {V} (kvs : list (Z * V)) k v :
  dict kvs !! k = Some v → (k, v) ∈ kvs.
Proof.
  induction kvs as [|[k' v'] kvs IH] using rev_ind; [done|].
  rewrite dict_snoc. simpl. intros H. apply elem_of_app.
  destruct (decide (k' = k)) as [->|Hne].
  - rewrite lookup_insert_eq in H. injection H as ->. right. left.
  - rewrite lookup_insert_ne in H by done. left. by apply IH.
Qed.

Lemma dict_lookup_None {V} (kvs : list (Z * V)) k :
  dict kvs !! k = None ↔ k ∉ kvs.*1.
Proof.
  induction kvs as [|[k' v'] kvs IH] using rev_ind.
  - split; [intros _; apply not_elem_of_nil | done].
  - rewrite dict_snoc, fmap_app, not_elem_of_app. simpl.
    destruct (decide (k' = k)) as [->|Hne].
    + rewrite lookup_insert_eq. split; [done|].
      intros [_ []]. left.
    + rewrite lookup_insert_ne by done. rewrite IH.
      split; [|by intros []]. intros H. split; [done|].
      intros ?%list_elem_of_singleton. congruence.
Qed.

Lemma dict_lookup_NoDup {V} (kvs : list (Z * V)) k v :
  NoDup kvs.*1 → (k, v) ∈ kvs → dict kvs !! k = Some v.
Proof.
  induction kvs as [|[k' v'] kvs IH] using rev_ind; intros Hnd Hin.
  - by apply elem_of_nil in Hin.
  - rewrite dict_snoc. simpl.
    rewrite fmap_app in Hnd. apply NoDup_app in Hnd as (Hnd & Hdis & _).
    apply elem_of_app in Hin as [Hin|Hin].
    + rewrite lookup_insert_ne; [by apply IH|].
      intros ->. apply (Hdis k); [|left].
      by apply (list_elem_of_fmap_2 fst _ (k, v)).
    + apply list_elem_of_singleton in Hin. injection Hin as -> ->.
      apply lookup_insert_eq.
Qed.

(** ** AVG over intervals *)

Lemma rint_nearest n d : 0 < d → 2 * Z.abs (d * rint n d - n) ≤ d.
Proof.
  intros Hd. unfold rint.
  pose proof (Z.div_mod n d ltac:(lia)) as Hn.
  pose proof (Z.mod_pos_bound n d Hd) as Hr.
  set (q := n `div` d) in *. set (r := n `mod` d) in *.
  assert (d * (q + 1) = d * q + d) as Hq by ring.
  repeat case_bool_decide; [| |destruct (Z.even q)]; rewrite ?Hq; lia.
Qed.

Lemma rint_0 d : 0 < d → rint 0 d = 0.
Proof.
  intros Hd. unfold rint. rewrite Z.div_0_l, Z.mod_0_l by lia.
  by rewrite bool_decide_true by lia.
Qed.

Lemma Zsum_quot_rem (u : Z) (xs : list Z) :
  u ≠ 0 →
  Zsum xs =
  u * Zsum ((λ x, x `quot` u) <$> xs) + Zsum ((λ x, x `rem` u) <$> xs).
Proof.
  intros Hu. unfold Zsum. induction xs as [|x xs IH]; csimpl; [lia|].
  pose proof (Z.quot_rem' x u). lia.
Qed.

Lemma Zsum_quot_small (u : Z) (xs : list Z) :
  (∀ x, x ∈ xs → Z.abs x < u) →
  Zsum ((λ x, x `quot` u) <$> xs) = 0.
Proof.
  unfold Zsum. induction xs as [|x xs IH]; intros Hall; [done|].
  csimpl. rewrite IH by (intros y Hy; apply Hall; by right).
  specialize (Hall x ltac:(left)).
  assert (x `quot` u = 0) as -> by (apply Z.quot_small_iff; lia). lia.
Qed.

(** What PostgreSQL's average of n intervals is to their mean: within a
    microsecond of it, and the nearest microsecond when the whole days of
    the intervals add up to a multiple of n, as they do when every
    interval is shorter than a day. *)
Lemma Avg_interval_Some (col : list (option Z)) d :
  Avg_interval col = Some d →
  let xs := non_null col in
  let n := Z.of_nat (length xs) in
  0 < n ∧
  Z.abs (n * d - Zsum xs) ≤ n ∧
  ((∀ x, x ∈ xs → Z.abs x < us_per_day) →
   2 * Z.abs (n * d - Zsum xs) ≤ n).
Proof.
  intros H xs n. unfold Avg_interval in H. fold xs in H.
  assert (0 < n) as Hn.
  { unfold n. destruct xs; [done | simpl; lia]. }
  assert (d = Zsum ((λ x, x `quot` us_per_day) <$> xs) `quot` n * us_per_day +
              rint (Zsum ((λ x, x `rem` us_per_day) <$> xs) +
                    rint (Zsum ((λ x, x `quot` us_per_day) <$> xs) `rem` n *
                          us_per_day) n * n) n) as Hd.
  { destruct xs; [done|]. by injection H as <-. }
  clear H.
  pose proof (Zsum_quot_rem us_per_day xs ltac:(done)) as Hsum.
  pose proof (Zsum_quot_small us_per_day xs) as Hday0.
  set (day := Zsum ((λ x, x `quot` us_per_day) <$> xs)) in *.
  set (time := Zsum ((λ x, x `rem` us_per_day) <$> xs)) in *.
  clearbody day time.
  pose proof (Z.quot_rem' day n) as Hday.
  assert (day = 0 → day `rem` n = 0) as Hdr by (by intros ->; apply Z.rem_0_l; lia).
  set (dq := day `quot` n) in *. set (dr := day `rem` n) in *.
  clearbody dq dr.
  pose proof (rint_nearest (dr * us_per_day) n Hn) as HR.
  assert (dr = 0 → rint (dr * us_per_day) n = 0) as HR0
    by (by intros ->; apply rint_0).
  set (R := rint (dr * us_per_day) n) in *. clearbody R.
  pose proof (rint_nearest (time + R * n) n Hn) as HT.
  set (rt := rint (time + R * n) n) in *. clearbody rt.
  assert (n * d - Zsum xs =
          (n * rt - (time + R * n)) + (n * R - dr * us_per_day)) as Heq.
  { rewrite Hd, Hsum, Hday. ring. }
  split; [done|]. split; [lia|].
  intros Hsmall. specialize (Hday0 Hsmall). specialize (Hdr Hday0).
  specialize (HR0 Hdr). rewrite Heq, HR0, Hdr. rewrite HR0 in HT. lia.
Qed.

(** ** url_delays *)

Lemma url_delays_lookup db cutoff_time mirror_id uid :
  get_or_None (url_delays db cutoff_time mirror_id) uid =
  Avg_delay db
    (filter (λ l, url_id l = uid)
      (filter (delay_row db cutoff_time mirror_id) (mirrorlog db))).
Proof.
  unfold url_delays, get_or_None.
  set (rows := filter (delay_row db cutoff_time mirror_id) (mirrorlog db)).
  set (fetchall := _ <$> group_by url_id rows).
  assert (fetchall.*1 = (group_by url_id rows).*1) as Hkeys.
  { unfold fetchall. rewrite <- list_fmap_compose. done. }
  destruct (filter (λ l, url_id l = uid) rows) as [|l ls] eqn:Hf.
  - replace (dict fetchall !! uid) with (@None (option Delay)).
    + unfold Avg_delay, Avg_interval, Avg. by destruct (vendor db).
    + symmetry. apply dict_lookup_None. rewrite Hkeys.
      intros ([k rs] & Hk & Hin)%list_elem_of_fmap. simpl in Hk. subst k.
      apply elem_of_group_by in Hin as [-> Hne]. done.
  - rewrite (dict_lookup_NoDup fetchall uid (Avg_delay db (l :: ls))); [done| |].
    + rewrite Hkeys. apply group_by_NoDup.
    + unfold fetchall. apply list_elem_of_fmap.
      exists (uid, l :: ls). split; [done|].
      apply elem_of_group_by. by rewrite Hf.
Qed.

(** ** The delay of a URL *)

(** The second check of url1 has no duration and still counts: the code
    has (1 h + 3 h) / 2, the mean over the timed checks is 1 h. And on
    sqlite the two checks of url1 in [local], two and three hours after
    their sync, give the number 0, the difference of the years. *)
Lemma url_delays_untimed_counterexample :
  get_or_None
    (url_delays Example.untimed (Example.noon - DEFAULT_CUTOFF) None) 1
    = Some (Timedelta (hours 2)) ∧
  spec_url_delay Example.untimed (Example.noon - DEFAULT_CUTOFF) None 1
    = Some (hours 1) ∧
  get_or_None
    (url_delays Example.untimed (Example.noon - DEFAULT_CUTOFF) None) 1
    ≠ Timedelta <$>
      spec_url_delay Example.untimed (Example.noon - DEFAULT_CUTOFF) None 1 ∧
  get_or_None
    (url_delays Example.local (Example.noon - DEFAULT_CUTOFF) None) 1
    = Some (Number 0) ∧
  spec_url_delay Example.local (Example.noon - DEFAULT_CUTOFF) None 1
    = Some (hours 2 + minutes 30).
Proof.
  split_and!; try (by vm_compute).
  apply (bool_decide_unpack _). by vm_compute.
Qed.

Lemma non_null_fmap {A B} (f : A → option B) (l : list A) :
  non_null (f <$> l) = omap f l.
Proof.
  unfold non_null. induction l as [|x l IH]; [done|]. csimpl.
  rewrite IH. by destruct (f x).
Qed.

Lemma omap_last_sync_length {B} (f : MirrorLog → Z → B) (ls : list MirrorLog) :
  (∀ l, l ∈ ls → last_sync l ≠ None) →
  length (omap (λ l, f l <$> last_sync l) ls) = length ls.
Proof.
  induction ls as [|l ls IH]; intros Hall; [done|]. csimpl.
  destruct (last_sync l) as [s|] eqn:Hs.
  - simpl. rewrite IH; [done|]. intros l' Hl'. apply Hall. by right.
  - exfalso. apply (Hall l); [left | done].
Qed.

Lemma omap_sync_delay (ls : list MirrorLog) :
  omap sync_delay ls = omap (λ l, (λ s, check_time l - s) <$> last_sync l) ls.
Proof.
  induction ls as [|l ls IH]; [done|]. csimpl. rewrite IH.
  unfold sync_delay. by destruct (last_sync l).
Qed.

Lemma omap_number_delay db (ls : list MirrorLog) :
  omap (number_delay db) ls =
  omap (λ l, (λ s, (as_number db (check_time l) - as_number db s)%Qc)
               <$> last_sync l) ls.
Proof.
  induction ls as [|l ls IH]; [done|]. csimpl. rewrite IH.
  unfold number_delay. by destruct (last_sync l).
Qed.

(** The rows of one URL that [url_delays] reads, with the WHERE clause
    written out. *)
Lemma delay_sample_filter db cutoff_time mirror_id uid :
  filter (λ l, url_id l = uid ∧ delay_row db cutoff_time mirror_id l)
    (mirrorlog db) =
  filter (λ l, url_id l = uid ∧ is_success l = true ∧
               cutoff_time ≤ check_time l ∧ last_sync l ≠ None ∧
               (mirror_id = None ∨
                mirror_pk ∘ mirror <$> log_url db l = mirror_id))
    (mirrorlog db).
Proof.
  apply list_filter_iff. intros l. unfold delay_row, log_mirror_id.
  destruct mirror_id as [m|]; split.
  - intros (Hu & Hs & Hc & Hl & Hm). split_and!; auto.
  - intros (Hu & Hs & Hc & Hl & [Hm|Hm]); [done|]. split_and!; auto.
  - intros (Hu & Hs & Hc & Hl & _). split_and!; auto.
  - intros (Hu & Hs & Hc & Hl & _). split_and!; auto.
Qed.

(** The average of a group whose rows all have a last sync: null only
    for the empty group; a timedelta on PostgreSQL, a number elsewhere. *)
Lemma Avg_delay_cases db (rows : list MirrorLog) :
  (∀ l, l ∈ rows → last_sync l ≠ None) →
  match rows with
  | [] => Avg_delay db rows = None
  | _ :: _ =>
      if decide (vendor db = postgresql)
      then ∃ d, Avg_delay db rows = Some (Timedelta d) ∧
                Avg_interval (sync_delay <$> rows) = Some d
      else ∃ x, Avg_delay db rows = Some (Number x) ∧
                Avg (number_delay db <$> rows) = Some x
  end.
Proof.
  intros Hall.
  assert (length (omap sync_delay rows) = length rows) as Hlen
    by (rewrite omap_sync_delay; by apply omap_last_sync_length).
  assert (length (omap (number_delay db) rows) = length rows) as Hlen'
    by (rewrite omap_number_delay; by apply omap_last_sync_length).
  unfold Avg_delay, Avg_interval, Avg. rewrite !non_null_fmap.
  destruct rows as [|l ls]; [by destruct (vendor db)|].
  destruct (omap sync_delay (l :: ls)) as [|y ys] eqn:Hy; [done|].
  destruct (omap (number_delay db) (l :: ls)) as [|z zs] eqn:Hz; [done|].
  case_decide as Hv.
  - rewrite Hv. csimpl. eauto.
  - destruct (vendor db); [| done | |]; csimpl; eauto.
Qed.


Lemma delay_sample_synced db cutoff_time mirror_id uid l :
  l ∈ filter (λ l, url_id l = uid ∧ is_success l = true ∧
                   cutoff_time ≤ check_time l ∧ last_sync l ≠ None ∧
                   (mirror_id = None ∨
                    mirror_pk ∘ mirror <$> log_url db l = mirror_id))
        (mirrorlog db) →
  last_sync l ≠ None.
Proof. intros Hl%list_elem_of_filter. tauto. Qed.

Lemma url_delays_None db cutoff_time mirror_id uid :
  get_or_None (url_delays db cutoff_time mirror_id) uid = None ↔
  filter (λ l, url_id l = uid ∧ is_success l = true ∧
               cutoff_time ≤ check_time l ∧ last_sync l ≠ None ∧
               (mirror_id = None ∨
                mirror_pk ∘ mirror <$> log_url db l = mirror_id))
    (mirrorlog db) = [].
Proof.
  rewrite url_delays_lookup, list_filter_filter, delay_sample_filter.
  pose proof (delay_sample_synced db cutoff_time mirror_id uid) as Hall.
  set (sample := filter _ (mirrorlog db)) in *.
  pose proof (Avg_delay_cases db sample Hall) as Hc.
  destruct sample as [|l ls]; [done|].
  split; [|done]. intros Hn. rewrite Hn in Hc.
  case_decide; by destruct Hc as (? & ? & ?).
Qed.

(** C7 (amended). The delay [url_delays] has for a URL is the engine's
    average of check_time - last_sync over exactly the logs of that URL
    that are in the window, are flagged successful and have a last sync
    (and, when a mirror is given, whose URL belongs to it); whether a log
    has a duration plays no part. Without such a log the URL has no delay.
    On PostgreSQL the average is a timedelta, a whole number of
    microseconds within one microsecond of the mean of those n
    differences, and the nearest to the mean when each difference is
    shorter than a day. On no other engine is it a timedelta: it is a
    plain number, on sqlite the mean of the differences between the year
    of check_time and the year of last_sync. *)
Theorem url_delays_mean db cutoff_time mirror_id uid :
  let sample :=
    filter (λ l, url_id l = uid ∧ is_success l = true ∧
                 cutoff_time ≤ check_time l ∧ last_sync l ≠ None ∧
                 (mirror_id = None ∨
                  mirror_pk ∘ mirror <$> log_url db l = mirror_id))
      (mirrorlog db) in
  let delays := omap (λ l, (λ s, check_time l - s) <$> last_sync l) sample in
  let years :=
    omap (λ l, (λ s, (float (year_of (check_time l)) - float (year_of s))%Qc)
                 <$> last_sync l) sample in
  let n := Z.of_nat (length sample) in
  length delays = length sample ∧
  length years = length sample ∧
  (sample = [] →
   get_or_None (url_delays db cutoff_time mirror_id) uid = None) ∧
  (sample ≠ [] → vendor db = postgresql →
   ∃ d,
     get_or_None (url_delays db cutoff_time mirror_id) uid =
       Some (Timedelta d) ∧
     Z.abs (n * d - foldr Z.add 0 delays) ≤ n ∧
     ((∀ x, x ∈ delays → Z.abs x < 86400000000) →
      2 * Z.abs (n * d - foldr Z.add 0 delays) ≤ n)) ∧
  (sample ≠ [] → vendor db ≠ postgresql →
   ∃ x, get_or_None (url_delays db cutoff_time mirror_id) uid =
          Some (Number x)) ∧
  (sample ≠ [] → vendor db = sqlite →
   get_or_None (url_delays db cutoff_time mirror_id) uid =
     Some (Number (foldr Qcplus 0 years / float n)%Qc)).
Proof.
  intros sample delays years n.
  pose proof (delay_sample_synced db cutoff_time mirror_id uid) as Hall.
  fold sample in Hall.
  assert (length delays = length sample) as Hlen
    by (by apply omap_last_sync_length).
  assert (length years = length sample) as Hlen'
    by (by apply omap_last_sync_length).
  split; [done|]. split; [done|].
  rewrite url_delays_lookup, list_filter_filter, delay_sample_filter.
  fold sample.
  pose proof (Avg_delay_cases db sample Hall) as Hc.
  split_and!.
  - intros Hs. by destruct sample.
  - intros Hs Hpg. destruct sample as [|l ls] eqn:Heq; [done|].
    rewrite decide_True in Hc by done. destruct Hc as (d & Hd & Havg).
    exists d. split; [done|].
    apply Avg_interval_Some in Havg. rewrite non_null_fmap in Havg.
    rewrite omap_sync_delay in Havg. fold delays in Havg.
    rewrite Hlen in Havg. by destruct Havg as (_ & ? & ?).
  - intros Hs Hv. destruct sample as [|l ls] eqn:Heq; [done|].
    rewrite decide_False in Hc by done. destruct Hc as (x & Hx & _).
    by exists x.
  - intros Hs Hv. destruct sample as [|l ls] eqn:Heq; [done|].
    rewrite decide_False in Hc by (by rewrite Hv).
    destruct Hc as (x & Hx & Havg).
    rewrite Hx. do 2 f_equal.
    unfold Avg in Havg. rewrite non_null_fmap, omap_number_delay in Havg.
    unfold as_number in Havg. rewrite Hv in Havg.
    fold years in Havg.
    destruct years as [|y ys]; [done|]. injection Havg as <-.
    unfold n. by rewrite <- Hlen'.
Qed.

Lemma url_delays_mean_witness :
  (∃ d,
     get_or_None
       (url_delays Example.jitter (Example.noon - DEFAULT_CUTOFF) None) 1
       = Some (Timedelta d) ∧
     d = 2 ∧
     2 * Z.abs (3 * d - (1 + 2 + 2)) ≤ 3) ∧
  get_or_None
    (url_delays Example.local (Example.noon - DEFAULT_CUTOFF) None) 1
    = Some (Number 0).
Proof.
  split.
  - pose proof (url_delays_mean Example.jitter (Example.noon - DEFAULT_CUTOFF)
                  None 1) as (_ & _ & _ & H & _).
    destruct H as (d & Hd & _ & Hnear); [by vm_compute | reflexivity |].
    exists d. split; [exact Hd|].
    split; [vm_compute in Hd; congruence|].
    apply Hnear. intros x Hx. vm_compute in Hx.
    repeat (apply elem_of_cons in Hx as [->|Hx]; [done|]).
    by apply elem_of_nil in Hx.
  - pose proof (url_delays_mean Example.local (Example.noon - DEFAULT_CUTOFF)
                  None 1) as (_ & _ & _ & _ & _ & H).
    rewrite H; [|by vm_compute | done].
    do 2 f_equal. apply (bool_decide_unpack _). by vm_compute.
Defined.

(** On PostgreSQL, when every log flagged successful has a duration, the
    logs the code averages over are those the specification names. *)
Lemma url_delays_spec_when_timed db cutoff_time mirror_id uid :
  vendor db = postgresql →
  (∀ l, l ∈ mirrorlog db → is_success l = true → duration l ≠ None) →
  get_or_None (url_delays db cutoff_time mirror_id) uid =
  Timedelta <$> spec_url_delay db cutoff_time mirror_id uid.
Proof.
  intros Hpg Htimed. rewrite url_delays_lookup, list_filter_filter.
  unfold spec_url_delay, Avg_delay. rewrite Hpg. f_equal. f_equal. f_equal.
  induction (mirrorlog db) as [|l ls IH]; [done|].
  assert (∀ l, l ∈ ls → is_success l = true → duration l ≠ None) as Hls.
  { intros l' Hl'. apply Htimed. by right. }
  specialize (Htimed l ltac:(left)).
  rewrite !filter_cons, IH by done. unfold delay_row.
  repeat case_decide; try done; exfalso.
  - destruct mirror_id; intuition.
  - destruct mirror_id; intuition. congruence.
Qed.

(** ** annotate_url *)

Lemma annotate_url_Ok u d a :
  annotate_url u d = Ok a →
  check_count u ≠ 0 ∧ stats a = u ∧ Timedelta <$> delay a = d ∧
  completion_pct a = (float (success_count u) / float (check_count u))%Qc ∧
  match d with
  | None => score a = None
  | Some (Number _) => False
  | Some (Timedelta dl) =>
      ∃ avg sd,
        duration_avg u = Some avg ∧ duration_stddev u = Some (Some sd) ∧
        score a =
          Some ((delay_hours dl + avg + sd) / score_divisor (completion_pct a))%Qc
  end.
Proof.
  unfold annotate_url. case_bool_decide as Hc; [done|].
  destruct d as [[dl|x]|]; [| done |].
  - destruct (duration_avg u) as [avg|]; [|done].
    destruct (duration_stddev u) as [[sd|]|]; [|done|done].
    intros [= <-]. simpl. split_and!; try done. by exists avg, sd.
  - intros [= <-]. done.
Qed.

(** The whole seconds of a delay, in hours: what [delay_hours] is. *)
Lemma delay_hours_seconds d :
  delay_hours d = (float (d `div` 1000000) / float 3600)%Qc.
Proof.
  unfold delay_hours, days, seconds, float.
  assert (d `div` 1000000 =
          86400 * (d `div` us_per_day) +
          (d `mod` us_per_day) `div` us_per_second) as ->.
  { pose proof (Z.div_mod d us_per_day ltac:(done)) as Hd.
    set (D := d `div` us_per_day) in *. set (r := d `mod` us_per_day) in *.
    clearbody D r. subst d.
    replace (us_per_day * D + r) with (86400 * D * 1000000 + r)
      by (unfold us_per_day, us_per_second; lia).
    by rewrite Z.div_add_l. }
  rewrite Z2Qc_inj_add, Z2Qc_inj_mul.
  assert (Qc_of_Z 86400 = Qc_of_Z 24 * Qc_of_Z 3600)%Qc as ->
    by (by rewrite <- Z2Qc_inj_mul).
  assert (Qc_of_Z 3600 ≠ 0)%Qc by done.
  by field.
Qed.

(** A URL whose checks all lack a duration has no average duration:
    when it nevertheless has a delay sample, the sum of the score
    raises. *)
Lemma annotate_url_untimed u dl :
  check_count u ≠ 0 → duration_avg u = None →
  annotate_url u (Some (Timedelta dl)) = Raise TypeError.
Proof.
  intros Hc Havg. unfold annotate_url. rewrite bool_decide_false by done.
  by rewrite Havg.
Qed.

(** ** get_mirror_statuses: what a returned URL object carries *)

Lemma logs_of_id db cutoff_time u v :
  id_ u = id_ v → logs_of db cutoff_time u = logs_of db cutoff_time v.
Proof. unfold logs_of. by intros ->. Qed.

Lemma if_urls_Ok db cutoff_time mirror_id url_data urls objs lc nc fr :
  if_urls db cutoff_time mirror_id url_data urls = Ok (objs, lc, nc, fr) →
  Forall2 (λ u o,
    set_attributes (dict ((λ item, (item_id item, item)) <$> url_data)) u = Ok o)
    urls objs ∧
  lc = Max (url_last_check <$> objs) ∧
  nc = match check_count <$> objs with [] => 0 | c :: cs => max_of c cs end ∧
  check_frequency db cutoff_time mirror_id nc = Ok fr.
Proof.
  unfold if_urls. destruct urls as [|u urls].
  - intros [= <- <- <- <-]. split_and!; done.
  - intros (objs' & Hobjs & H)%bind_Ok.
    apply bind_Ok in H as (fr' & Hfr & [= <- <- <- <-]).
    split_and!; try done. by apply for_each_Ok.
Qed.

Lemma set_attributes_Ok db cutoff_time valid u o :
  set_attributes
    (dict ((λ item, (item_id item, item)) <$> url_data_query db cutoff_time valid))
    u = Ok o →
  let logs := logs_of db cutoff_time u in
  stats_url o = u ∧ logs ≠ [] ∧
  check_count o = Z.of_nat (length logs) ∧
  success_count o = Count (duration <$> logs) ∧
  url_last_sync o = Max (last_sync <$> logs) ∧
  url_last_check o = Max (Some ∘ check_time <$> logs) ∧
  duration_avg o = Avg (duration <$> logs) ∧
  duration_stddev o =
    if decide (vendor db = sqlite) then None
    else Some (StdDev db (duration <$> logs)).
Proof.
  unfold set_attributes.
  destruct (dict _ !! id_ u) as [item|] eqn:Hd; [|done].
  intros [= <-]. simpl.
  apply dict_lookup_Some, list_elem_of_fmap in Hd as (item' & [= Hid <-] & Hin).
  apply list_elem_of_omap in Hin as (u0 & _ & Hitem).
  unfold url_item in Hitem.
  destruct (logs_of db cutoff_time u0) as [|l ls] eqn:Hlogs; [done|].
  injection Hitem as <-. simpl in *.
  rewrite (logs_of_id db cutoff_time u u0), Hlogs by done.
  split_and!; done.
Qed.

Lemma Forall2_elem_r {A B} (R : A → B → Prop) l k y :
  Forall2 R l k → y ∈ k → ∃ x, x ∈ l ∧ R x y.
Proof.
  induction 1 as [|x y' l k HR _ IH]; intros Hy; [by apply elem_of_nil in Hy|].
  apply elem_of_cons in Hy as [->|Hy].
  - exists x. split; [left | done].
  - destruct (IH Hy) as (x' & ? & ?). exists x'. split; [by right | done].
Qed.

Lemma get_mirror_statuses_Ok db now cutoff mirror_id st :
  get_mirror_statuses db now cutoff mirror_id = Ok st →
  let cutoff_time := now - cutoff in
  let valid := valid_urls db cutoff_time mirror_id in
  let urls :=
    order_by (by_mirror_and_url db) (filter (id_in valid) (mirrorurl db)) in
  ∃ objs,
    Forall2 (λ u o,
      set_attributes
        (dict ((λ item, (item_id item, item)) <$>
               url_data_query db cutoff_time valid)) u = Ok o) urls objs ∧
    Forall2 (λ o a,
      annotate_object db (url_delays db cutoff_time mirror_id) o = Ok a)
      objs (st_urls st) ∧
    st_cutoff st = cutoff ∧
    st_last_check st = Max (url_last_check <$> objs) ∧
    st_num_checks st =
      match check_count <$> objs with [] => 0 | c :: cs => max_of c cs end ∧
    check_frequency db cutoff_time mirror_id (st_num_checks st) =
      Ok (st_check_frequency st).
Proof.
  unfold get_mirror_statuses. intros H.
  apply bind_Ok in H as ([[[objs lc] nc] fr] & Hif & H).
  apply bind_Ok in H as (annotated & Hann & [= <-]). simpl.
  apply if_urls_Ok in Hif as (Hobjs & -> & -> & Hfr).
  exists objs. split_and!; try done. by apply for_each_Ok.
Qed.

(** Every URL object of the result is a URL of an active, public mirror
    with a log in the window; its counts and averages are those of its
    logs in the window and it went through [annotate_url] with the delay
    [url_delays] has for it. *)
Lemma get_mirror_statuses_url db now cutoff mirror_id st a :
  get_mirror_statuses db now cutoff mirror_id = Ok st →
  a ∈ st_urls st →
  let cutoff_time := now - cutoff in
  let u := stats_url (stats a) in
  let logs := logs_of db cutoff_time u in
  u ∈ mirrorurl db ∧ logs ≠ [] ∧
  check_count (stats a) = Z.of_nat (length logs) ∧
  success_count (stats a) = Count (duration <$> logs) ∧
  duration_avg (stats a) = Avg (duration <$> logs) ∧
  annotate_url (stats a)
    (get_or_None (url_delays db cutoff_time mirror_id) (id_ u)) = Ok a.
Proof.
  intros (objs & Hobjs & Hann & _)%get_mirror_statuses_Ok Ha.
  destruct (Forall2_elem_r _ _ _ _ Hann Ha) as (o & Ho & Hoa).
  destruct (Forall2_elem_r _ _ _ _ Hobjs Ho) as (u & Hu & Huo).
  apply elem_of_order_by, list_elem_of_filter in Hu as [_ Hu].
  apply set_attributes_Ok in Huo
    as (Hurl & Hne & Hcc & Hsc & _ & _ & Havg & _).
  unfold annotate_object in Hoa.
  pose proof (annotate_url_Ok _ _ _ Hoa) as (_ & Hstats & _).
  rewrite <- Hstats in Hoa. rewrite Hstats.
  destruct (decide (vendor db = sqlite)); simpl; rewrite ?Hurl;
    split_and!; try done; by rewrite Hstats in Hoa; simpl in Hoa; rewrite Hurl in Hoa.
Qed.

(** ** Arithmetic of the score *)

Section score_arith.
Local Open Scope Qc_scope.

Lemma Qcpos_nonzero (x : Qc) : 0 < x → x ≠ 0.
Proof. intros H ->. by apply (irreflexivity Qclt 0). Qed.

Lemma small_divisor_pos : 0 < small_divisor.
Proof. done. Qed.

Lemma score_divisor_pos pct : 0 < score_divisor pct.
Proof.
  unfold score_divisor. case_bool_decide; [done | apply small_divisor_pos].
Qed.

Lemma score_divisor_nonzero pct : score_divisor pct ≠ 0.
Proof. apply Qcpos_nonzero, score_divisor_pos. Qed.

Lemma Qcdiv_mul_cancel (x y : Qc) : y ≠ 0 → x / y * y = x.
Proof. intros. by field. Qed.

Lemma ratio_bounds (s c : Z) :
  (0 ≤ s ≤ c)%Z → (0 < c)%Z → 0 ≤ float s / float c ∧ float s / float c ≤ 1.
Proof.
  intros [Hs Hsc] Hc. unfold float.
  assert (0 < Qc_of_Z c) as Hc' by (by apply (Z2Qc_inj_lt 0 c)).
  assert (0 ≤ Qc_of_Z s) as Hs' by (by apply (Z2Qc_inj_le 0 s)).
  split.
  - apply Qcmult_nonneg_nonneg; [done|]. by apply Qclt_le_weak, Qcinv_pos.
  - apply (Qcmult_le_mono_pos_r _ _ (Qc_of_Z c)); [done|].
    rewrite Qcdiv_mul_cancel by (by apply Qcpos_nonzero).
    rewrite Qcmult_1_l. by apply (Z2Qc_inj_le s c).
Qed.

Lemma ratio_zero (s c : Z) :
  (0 < c)%Z → float s / float c = 0 ↔ s = 0%Z.
Proof.
  intros Hc. unfold float.
  assert (Qc_of_Z c ≠ 0) as Hc'.
  { apply Qcpos_nonzero. by apply (Z2Qc_inj_lt 0 c). }
  split.
  - intros H. apply Z2Qc_inj.
    rewrite <- (Qcdiv_mul_cancel (Qc_of_Z s) (Qc_of_Z c)) by done.
    rewrite H. by rewrite Qcmult_0_l, Z2Qc_inj_0.
  - intros ->. unfold Qcdiv. by rewrite Z2Qc_inj_0, Qcmult_0_l.
Qed.

Lemma ratio_pos (s c : Z) :
  (0 < s)%Z → (0 < c)%Z → 0 < float s / float c.
Proof.
  intros Hs Hc. unfold float. apply Qcmult_pos_pos.
  - by apply (Z2Qc_inj_lt 0 s).
  - apply Qcinv_pos. by apply (Z2Qc_inj_lt 0 c).
Qed.

Lemma Qcinv_lt_anti (p q : Qc) : 0 < p → p < q → / q < / p.
Proof.
  intros Hp Hpq.
  assert (0 < q) as Hq by (by transitivity p).
  apply (Qcmult_lt_mono_pos_r _ _ (p * q)); [by apply Qcmult_pos_pos|].
  replace (/ q * (p * q)) with p
    by (field; by apply Qcpos_nonzero).
  replace (/ p * (p * q)) with q
    by (field; by apply Qcpos_nonzero).
  done.
Qed.

Lemma Qcdiv_pos (n d : Qc) : 0 < n → 0 < d → 0 < n / d.
Proof. intros Hn Hd. apply Qcmult_pos_pos; [done | by apply Qcinv_pos]. Qed.

Lemma Qcdiv_lt_anti (n p q : Qc) : 0 < n → 0 < p → p < q → n / q < n / p.
Proof.
  intros Hn Hp Hpq. apply Qcmult_lt_mono_pos_l; [done|].
  by apply Qcinv_lt_anti.
Qed.
End score_arith.

Lemma Count_bounds {A} (col : list (option A)) :
  0 ≤ Count col ≤ Z.of_nat (length col).
Proof.
  unfold Count, non_null. split; [lia|].
  apply inj_le. induction col as [|[x|] col IH]; csimpl; lia.
Qed.

Lemma Count_zero {A} (col : list (option A)) :
  Count col = 0 ↔ ∀ x, x ∈ col → x = None.
Proof.
  unfold Count, non_null. induction col as [|[x|] col IH]; csimpl.
  - split; [|done]. intros _ x Hx. by apply elem_of_nil in Hx.
  - split; [lia|]. intros H. by specialize (H (Some x) ltac:(left)).
  - rewrite IH. split.
    + intros H x [->|Hx]%elem_of_cons; [done | by apply H].
    + intros H x Hx. apply H. by right.
Qed.

(** ** The score of a URL *)

(** The zero-success branch of [annotate_url] at work: four checks, none
    timed by the counts, a delay of two hours: (2 + 1 + 0) / 0.005. *)
Example annotate_url_small_divisor :
  score <$> annotate_url Example.never_up (Some (Timedelta (hours 2)))
  = Ok (Some (Qc_of_Z 600)).
Proof. apply (bool_decide_unpack _). by vm_compute. Qed.

(** In [get_mirror_statuses] a URL without a timed check has no average
    duration; when it has a delay, the sum of its score raises and
    nothing is returned. *)
Example get_mirror_statuses_unmeasured :
  get_mirror_statuses Example.unmeasured Example.noon DEFAULT_CUTOFF None
  = Raise TypeError.
Proof. reflexivity. Qed.

(** X15. The hours [annotate_url] computes from a delay are the delay
    in hours less its microseconds: they fall short of it by less than a
    second. *)
Lemma delay_hours_exact d :
  (float d / float (hours 1) =
   delay_hours d + float (microseconds d) / float (hours 1))%Qc ∧
  0 ≤ microseconds d < us_per_second.
Proof.
  split; [|by apply Z.mod_pos_bound].
  unfold delay_hours, days, seconds, microseconds, float.
  set (r := d `mod` us_per_day).
  assert (d = us_per_day * (d `div` us_per_day) + r) as Hd
    by (by apply Z.div_mod).
  assert (r = us_per_second * (r `div` us_per_second) + r `mod` us_per_second)
    as Hr by (by apply Z.div_mod).
  assert (d `mod` us_per_second = r `mod` us_per_second) as ->.
  { unfold r. symmetry. apply Z.mod_mod_divide. by exists 86400. }
  rewrite Hd at 1. rewrite Hr at 1.
  rewrite !Z2Qc_inj_add, !Z2Qc_inj_mul.
  assert (Qc_of_Z (hours 1) = Qc_of_Z 3600 * Qc_of_Z us_per_second)%Qc as ->
    by (by rewrite <- Z2Qc_inj_mul).
  assert (Qc_of_Z us_per_day =
          Qc_of_Z 24 * Qc_of_Z 3600 * Qc_of_Z us_per_second)%Qc as ->
    by (by rewrite <- !Z2Qc_inj_mul).
  assert (Qc_of_Z 3600 ≠ 0)%Qc by (by apply Qcpos_nonzero).
  assert (Qc_of_Z us_per_second ≠ 0)%Qc by (by apply Qcpos_nonzero).
  by field.
Qed.

(** C1. Whenever [annotate_url] gives a URL that has a delay its score,
    the score is (delay in hours + duration_avg + duration_stddev) /
    divisor, the hours being the whole seconds of the delay over 3600; the
    divisor is completion_pct when that is positive and the constant 0.005
    when it is zero, and it is never zero. Every URL of the result of
    [get_mirror_statuses] that has a delay sample got its score this way,
    from its own statistics and the delay [url_delays] has for it, so the
    same holds of it. *)
Theorem score_formula :
  (∀ u d a,
     annotate_url u (Some (Timedelta d)) = Ok a →
     ∃ avg sd divisor,
       duration_avg u = Some avg ∧
       duration_stddev u = Some (Some sd) ∧
       delay a = Some d ∧
       completion_pct a =
         (float (success_count u) / float (check_count u))%Qc ∧
       score a =
         Some ((float (d `div` 1000000) / float 3600 + avg + sd) / divisor)%Qc ∧
       ((0 < completion_pct a)%Qc → divisor = completion_pct a) ∧
       (completion_pct a = 0%Qc → divisor = Q2Qc (5 # 1000)) ∧
       divisor ≠ 0%Qc) ∧
  (∀ db now cutoff mirror_id st a,
     get_mirror_statuses db now cutoff mirror_id = Ok st →
     a ∈ st_urls st →
     filter (λ l, url_id l = id_ (stats_url (stats a)) ∧ is_success l = true ∧
                  now - cutoff ≤ check_time l ∧ last_sync l ≠ None ∧
                  (mirror_id = None ∨
                   mirror_pk ∘ mirror <$> log_url db l = mirror_id))
       (mirrorlog db) ≠ [] →
     ∃ us avg sd divisor,
       get_or_None (url_delays db (now - cutoff) mirror_id)
         (id_ (stats_url (stats a))) = Some (Timedelta us) ∧
       delay a = Some us ∧
       annotate_url (stats a) (Some (Timedelta us)) = Ok a ∧
       duration_avg (stats a) = Some avg ∧
       duration_stddev (stats a) = Some (Some sd) ∧
       score a =
         Some ((float (us `div` 1000000) / float 3600 + avg + sd) / divisor)%Qc ∧
       ((0 < completion_pct a)%Qc → divisor = completion_pct a) ∧
       (completion_pct a = 0%Qc → divisor = Q2Qc (5 # 1000)) ∧
       divisor ≠ 0%Qc).
Proof.
  assert (∀ u d a,
    annotate_url u (Some (Timedelta d)) = Ok a →
    ∃ avg sd divisor,
      duration_avg u = Some avg ∧
      duration_stddev u = Some (Some sd) ∧
      delay a = Some d ∧
      completion_pct a =
        (float (success_count u) / float (check_count u))%Qc ∧
      score a =
        Some ((float (d `div` 1000000) / float 3600 + avg + sd) / divisor)%Qc ∧
      ((0 < completion_pct a)%Qc → divisor = completion_pct a) ∧
      (completion_pct a = 0%Qc → divisor = Q2Qc (5 # 1000)) ∧
      divisor ≠ 0%Qc) as Hurl.
  { intros u d a Hann.
    apply annotate_url_Ok in Hann
      as (_ & _ & Hdelay & Hpct & avg & sd & Havg & Hsd & Hscore).
    exists avg, sd, (score_divisor (completion_pct a)).
    rewrite <- delay_hours_seconds.
    split_and!; try done.
    - destruct (delay a); by simplify_eq/=.
    - intros Hpos. unfold score_divisor. by rewrite bool_decide_true.
    - intros ->. done.
    - apply score_divisor_nonzero. }
  split; [exact Hurl|].
  intros db now cutoff mirror_id st a Hst Ha Hsample.
  destruct (get_mirror_statuses_url _ _ _ _ _ _ Hst Ha)
    as (_ & _ & _ & _ & _ & Hann).
  rewrite <- url_delays_None in Hsample.
  destruct (get_or_None _ _) as [[us|x]|] eqn:Hd; [| | done].
  2: { by apply annotate_url_Ok in Hann as (_ & _ & _ & _ & ?). }
  destruct (Hurl _ _ _ Hann)
    as (avg & sd & divisor & Havg & Hsd & Hdelay & _ & Hscore & Hdiv).
  exists us, avg, sd, divisor. split_and!; try done; apply Hdiv.
Qed.

Lemma score_formula_witness :
  (∃ a avg sd divisor,
     annotate_url Example.never_up (Some (Timedelta (hours 2))) = Ok a ∧
     completion_pct a = 0%Qc ∧
     score a =
       Some ((float (hours 2 `div` 1000000) / float 3600 + avg + sd) / divisor)%Qc ∧
     divisor = Q2Qc (5 # 1000) ∧
     score a = Some (Qc_of_Z 600)) ∧
  (∃ st a us,
     get_mirror_statuses Example.healthy Example.noon DEFAULT_CUTOFF None = Ok st ∧
     a ∈ st_urls st ∧
     us = hours 2 + minutes 30 ∧
     delay a = Some us ∧
     annotate_url (stats a) (Some (Timedelta us)) = Ok a).
Proof.
  destruct score_formula as [Hurl Hout].
  split.
  - eexists.
    edestruct (Hurl Example.never_up (hours 2))
      as (avg & sd & divisor & _ & _ & _ & Hpct & Hscore & _ & Hzero & _);
      [vm_compute; reflexivity |].
    exists avg, sd, divisor.
    split; [reflexivity|].
    split; [by apply Qc_is_canon|].
    split; [exact Hscore|].
    split; [apply Hzero; by apply Qc_is_canon|].
    apply (bool_decide_unpack _). by vm_compute.
  - eexists _, _, _.
    edestruct (Hout Example.healthy Example.noon DEFAULT_CUTOFF None)
      as (us & avg & sd & divisor & Hus & Hdelay & Hann & _);
      [vm_compute; reflexivity | left | by vm_compute |].
    vm_compute in Hus. injection Hus as <-.
    split; [vm_compute; reflexivity|].
    split; [left|].
    split; [reflexivity|].
    split; [exact Hdelay | exact Hann].
Defined.

(** ** completion_pct *)

Lemma Count_filter {A B} (f : A → option B) (l : list A) :
  Count (f <$> l) = Z.of_nat (length (filter (λ x, f x ≠ None) l)).
Proof.
  unfold Count, non_null. f_equal.
  induction l as [|x l IH]; [done|]. csimpl.
  destruct (f x) eqn:Hfx.
  - rewrite filter_cons_True by congruence. simpl. by rewrite IH.
  - rewrite filter_cons_False by (intros H; by apply H). done.
Qed.

Lemma Avg_Some_Count col x : Avg col = Some x → 0 < Count col.
Proof. unfold Avg, Count. destruct (non_null col); [done | simpl; lia]. Qed.

(** The failed check of url2 is its only log of the window: one check,
    none timed, completion_pct 0, outside (0, 1]. *)
Lemma completion_pct_zero_counterexample :
  ∃ st a,
    get_mirror_statuses Example.healthy Example.noon DEFAULT_CUTOFF None = Ok st ∧
    a ∈ st_urls st ∧
    stats_url (stats a) = Example.url2 ∧
    check_count (stats a) = 1 ∧
    completion_pct a = 0%Qc ∧
    ¬ (0 < completion_pct a)%Qc.
Proof.
  eexists _, _.
  split; [vm_compute; reflexivity|].
  split; [right; left|].
  split_and!; try reflexivity. by vm_compute.
Qed.

(** C2 (amended). For every URL of the result of [get_mirror_statuses],
    check_count is the number of its logs in the window and is positive,
    success_count is the number of those with a duration, completion_pct
    is success_count / check_count exactly and lies in the closed interval
    [0, 1]; it is 0 exactly when no check of the window was timed. *)
Theorem completion_pct_range db now cutoff mirror_id st a :
  get_mirror_statuses db now cutoff mirror_id = Ok st →
  a ∈ st_urls st →
  let logs := logs_of db (now - cutoff) (stats_url (stats a)) in
  0 < check_count (stats a) ∧
  check_count (stats a) = Z.of_nat (length logs) ∧
  success_count (stats a) =
    Z.of_nat (length (filter (λ l, duration l ≠ None) logs)) ∧
  completion_pct a =
    (float (success_count (stats a)) / float (check_count (stats a)))%Qc ∧
  (0 ≤ completion_pct a)%Qc ∧ (completion_pct a ≤ 1)%Qc ∧
  (completion_pct a = 0%Qc ↔ success_count (stats a) = 0).
Proof.
  intros Hst Ha logs.
  destruct (get_mirror_statuses_url _ _ _ _ _ _ Hst Ha)
    as (_ & Hne & Hcc & Hsc & _ & Hann).
  fold logs in Hne, Hcc, Hsc.
  apply annotate_url_Ok in Hann as (_ & _ & _ & Hpct & _).
  assert (0 < check_count (stats a)) as Hpos.
  { rewrite Hcc. destruct logs; [done | simpl; lia]. }
  pose proof (Count_bounds (duration <$> logs)) as Hb.
  rewrite length_fmap, <- Hsc, <- Hcc in Hb.
  split_and!; try done.
  - by rewrite Hsc, Count_filter.
  - rewrite Hpct. by apply ratio_bounds.
  - rewrite Hpct. by apply ratio_bounds.
  - rewrite Hpct. by apply ratio_zero.
Qed.

Lemma completion_pct_range_witness :
  ∃ st a,
    get_mirror_statuses Example.healthy Example.noon DEFAULT_CUTOFF None = Ok st ∧
    a ∈ st_urls st ∧
    check_count (stats a) = 1 ∧ success_count (stats a) = 0 ∧
    completion_pct a = 0%Qc ∧
    (0 ≤ completion_pct a)%Qc ∧ (completion_pct a ≤ 1)%Qc.
Proof.
  eexists _, _.
  edestruct (completion_pct_range Example.healthy Example.noon DEFAULT_CUTOFF None)
    as (_ & _ & _ & _ & Hlo & Hhi & Hzero);
    [vm_compute; reflexivity | right; left |].
  split; [vm_compute; reflexivity|].
  split; [right; left|].
  split; [reflexivity|]. split; [reflexivity|].
  split; [by apply Hzero|]. split; [exact Hlo | exact Hhi].
Defined.

(** ** Null, sign and monotonicity of the score *)

(** The only check of url1 found a last sync one hour in the future:
    delay -1 h, average duration 0.5, deviation 0, completion_pct 1,
    score -0.5. *)
Lemma score_negative_counterexample :
  ∃ st a s,
    get_mirror_statuses Example.skewed Example.noon DEFAULT_CUTOFF None = Ok st ∧
    a ∈ st_urls st ∧
    delay a = Some (- hours 1) ∧
    score a = Some s ∧
    s = (- Q2Qc (1 # 2))%Qc ∧
    ¬ (0 < s)%Qc.
Proof.
  eexists _, _, _.
  split; [vm_compute; reflexivity|].
  split; [left|].
  split; [reflexivity|]. split; [reflexivity|].
  split; [by apply Qc_is_canon | by vm_compute].
Qed.

(** A URL of the result that has a score has a delay, an average and a
    deviation, and at least one timed check. *)
Lemma scored_url db now cutoff mirror_id st a s :
  get_mirror_statuses db now cutoff mirror_id = Ok st →
  a ∈ st_urls st →
  score a = Some s →
  ∃ d avg sd,
    delay a = Some d ∧ duration_avg (stats a) = Some avg ∧
    duration_stddev (stats a) = Some (Some sd) ∧
    (0 < completion_pct a)%Qc ∧
    s = ((float (d `div` 1000000) / float 3600 + avg + sd) / completion_pct a)%Qc.
Proof.
  intros Hst Ha Hs.
  destruct (get_mirror_statuses_url _ _ _ _ _ _ Hst Ha)
    as (_ & Hne & Hcc & Hsc & Havg & Hann).
  apply annotate_url_Ok in Hann as (_ & _ & Hd & Hpct & Hscore).
  destruct (get_or_None _ _) as [[d|x]|]; [| done | congruence].
  destruct Hscore as (avg & sd & Havg' & Hsd & Hscore).
  assert (0 < completion_pct a)%Qc as Hpos.
  { rewrite Hpct. apply ratio_pos.
    - rewrite Hsc. apply (Avg_Some_Count _ avg). by rewrite <- Havg.
    - rewrite Hcc. destruct (logs_of _ _ _); [done | simpl; lia]. }
  exists d, avg, sd. split_and!; try done.
  - destruct (delay a); by simplify_eq/=.
  - rewrite Hscore in Hs. injection Hs as <-.
    unfold score_divisor. by rewrite bool_decide_true, delay_hours_seconds.
Qed.

(** C3 (amended). The score of a URL of the result is null exactly when
    [url_delays] has no delay for it, that is when no log of the URL in
    the window is flagged successful, has a last sync and, for a
    mirror_id that is not null (0 included), belongs to a URL of that
    mirror. A score s is the sum (delay in hours + duration_avg +
    duration_stddev) divided by a positive completion_pct: it is positive
    when that sum is, and, for the same positive sum, a URL with a larger
    completion_pct has a strictly smaller score. *)
Theorem score_null_sign_monotone db now cutoff mirror_id st a :
  get_mirror_statuses db now cutoff mirror_id = Ok st →
  a ∈ st_urls st →
  (score a = None ↔
   get_or_None (url_delays db (now - cutoff) mirror_id)
     (id_ (stats_url (stats a))) = None) ∧
  (score a = None ↔
   filter (λ l, url_id l = id_ (stats_url (stats a)) ∧ is_success l = true ∧
                now - cutoff ≤ check_time l ∧ last_sync l ≠ None ∧
                (mirror_id = None ∨
                 mirror_pk ∘ mirror <$> log_url db l = mirror_id))
     (mirrorlog db) = []) ∧
  ∀ s, score a = Some s →
    ∃ d avg sd,
      delay a = Some d ∧ duration_avg (stats a) = Some avg ∧
      duration_stddev (stats a) = Some (Some sd) ∧
      (0 < completion_pct a)%Qc ∧
      let sum := (float (d `div` 1000000) / float 3600 + avg + sd)%Qc in
      s = (sum / completion_pct a)%Qc ∧
      ((0 < sum)%Qc →
       (0 < s)%Qc ∧
       ∀ db' now' cutoff' mirror_id' st' a' s',
         get_mirror_statuses db' now' cutoff' mirror_id' = Ok st' →
         a' ∈ st_urls st' →
         delay a' = Some d →
         duration_avg (stats a') = Some avg →
         duration_stddev (stats a') = Some (Some sd) →
         score a' = Some s' →
         (completion_pct a < completion_pct a')%Qc →
         (s' < s)%Qc).
Proof.
  intros Hst Ha.
  assert (score a = None ↔
          get_or_None (url_delays db (now - cutoff) mirror_id)
            (id_ (stats_url (stats a))) = None) as Hnull.
  { destruct (get_mirror_statuses_url _ _ _ _ _ _ Hst Ha)
      as (_ & _ & _ & _ & _ & Hann).
    apply annotate_url_Ok in Hann as (_ & _ & _ & _ & Hscore).
    destruct (get_or_None _ _) as [[d|x]|]; [| done | done].
    destruct Hscore as (avg & sd & _ & _ & ->). done. }
  split_and!.
  - done.
  - by rewrite Hnull, url_delays_None.
  - intros s Hs.
    destruct (scored_url _ _ _ _ _ _ _ Hst Ha Hs)
      as (d & avg & sd & Hd & Havg & Hsd & Hpos & ->).
    exists d, avg, sd. split_and!; try done.
    intros sum. split; [done|].
    intros Hsum. split; [by apply Qcdiv_pos|].
    intros db' now' cutoff' mirror_id' st' a' s' Hst' Ha' Hd' Havg' Hsd' Hs' Hlt.
    destruct (scored_url _ _ _ _ _ _ _ Hst' Ha' Hs')
      as (d2 & avg2 & sd2 & Hd2 & Havg2 & Hsd2 & Hpos2 & ->).
    rewrite Hd' in Hd2. rewrite Havg' in Havg2. rewrite Hsd' in Hsd2.
    injection Hd2 as <-. injection Havg2 as <-. injection Hsd2 as <-.
    by apply Qcdiv_lt_anti.
Qed.

Lemma score_null_sign_monotone_witness :
  ∃ st a,
    get_mirror_statuses Example.healthy Example.noon DEFAULT_CUTOFF None = Ok st ∧
    a ∈ st_urls st ∧
    stats_url (stats a) = Example.url2 ∧
    score a = None ∧
    get_or_None (url_delays Example.healthy (Example.noon - DEFAULT_CUTOFF) None) 2
      = None.
Proof.
  eexists _, _.
  edestruct (score_null_sign_monotone Example.healthy Example.noon
               DEFAULT_CUTOFF None) as (Hnull & _ & _);
    [vm_compute; reflexivity | right; left |].
  split; [vm_compute; reflexivity|].
  split; [right; left|].
  split; [reflexivity|]. split; [reflexivity|].
  by apply Hnull.
Defined.

(** ** check_frequency *)

Lemma annotate_object_stats db delays o a :
  annotate_object db delays o = Ok a →
  check_count (stats a) = check_count o ∧
  stats_url (stats a) = stats_url o.
Proof.
  unfold annotate_object. intros (_ & -> & _)%annotate_url_Ok.
  by destruct (decide (vendor db = sqlite)).
Qed.

Lemma annotate_objects_counts db delays objs anns :
  Forall2 (λ o a, annotate_object db delays o = Ok a) objs anns →
  check_count <$> objs = check_count ∘ stats <$> anns.
Proof.
  induction 1 as [|o a objs anns Hoa _ IH]; [done|]. csimpl.
  apply annotate_object_stats in Hoa as [<- _]. by rewrite IH.
Qed.

Lemma elem_of_check_info db cutoff_time mirror_id l :
  l ∈ check_info db cutoff_time mirror_id ↔
  l ∈ mirrorlog db ∧ cutoff_time ≤ check_time l ∧
  (truthy mirror_id = true → log_mirror_id db l = mirror_id).
Proof.
  unfold check_info. destruct (truthy mirror_id).
  - rewrite !list_elem_of_filter. split.
    + intros (Hm & Hc & Hl). auto.
    + intros (Hl & Hc & Hm). auto.
  - rewrite list_elem_of_filter. split.
    + intros (Hc & Hl). split_and!; [done..|]. discriminate.
    + intros (Hl & Hc & _). auto.
Qed.

(** C6. In the summary of [get_mirror_statuses], num_checks is the largest
    check_count of the returned URLs (0 when there is none);
    check_frequency is null when num_checks <= 1, and otherwise it is the
    span between the latest and the earliest check_time, divided by
    num_checks - 1 (to the microsecond below), the latest and the earliest
    being taken over every log of the table whose check_time is in the
    window and, when mirror_id is neither null nor 0, whose URL belongs to
    that mirror. *)
Theorem check_frequency_summary db now cutoff mirror_id st :
  get_mirror_statuses db now cutoff mirror_id = Ok st →
  let selected (l : MirrorLog) :=
    l ∈ mirrorlog db ∧ now - cutoff ≤ check_time l ∧
    ∀ m, mirror_id = Some m → m ≠ 0 →
         ∃ u, log_url db l = Some u ∧ mirror_pk (mirror u) = m in
  (st_urls st = [] → st_num_checks st = 0) ∧
  (st_urls st ≠ [] →
     (∃ a, a ∈ st_urls st ∧ check_count (stats a) = st_num_checks st) ∧
     (∀ a, a ∈ st_urls st → check_count (stats a) ≤ st_num_checks st)) ∧
  (st_num_checks st ≤ 1 → st_check_frequency st = None) ∧
  (1 < st_num_checks st →
     ∃ latest earliest,
       selected latest ∧ selected earliest ∧
       (∀ l, selected l →
             check_time earliest ≤ check_time l ≤ check_time latest) ∧
       st_check_frequency st =
         Some ((check_time latest - check_time earliest)
                 `div` (st_num_checks st - 1))).
Proof.
  intros (objs & _ & Hann & _ & _ & Hnum & Hfreq)%get_mirror_statuses_Ok selected.
  rewrite (annotate_objects_counts _ _ _ _ Hann) in Hnum.
  unfold check_frequency in Hfreq.
  assert (∀ l, l ∈ check_info db (now - cutoff) mirror_id ↔ selected l) as Hsel.
  { intros l. rewrite elem_of_check_info. unfold selected, log_mirror_id.
    split; intros (Hl & Hw & Hm); split_and!; try done.
    - intros m -> Hm0.
      destruct (log_url db l) as [u|]; simpl in Hm.
      + exists u. split; [done|].
        assert (Some (mirror_pk (mirror u)) = Some m) as [= ->]; [|done].
        apply Hm. simpl. by apply negb_true_iff, Z.eqb_neq.
      + exfalso. assert (None = Some m) as [=].
        apply Hm. simpl. by apply negb_true_iff, Z.eqb_neq.
    - intros Ht. destruct mirror_id as [m|]; [|done]. simpl in Ht.
      apply negb_true_iff, Z.eqb_neq in Ht.
      destruct (Hm m eq_refl Ht) as (u & -> & <-). done. }
  split_and!.
  - intros Hnil. by rewrite Hnil in Hnum.
  - intros Hne. destruct (st_urls st) as [|a0 anns]; [done|].
    csimpl in Hnum.
    destruct (max_of_spec (check_count (stats a0)) (check_count ∘ stats <$> anns))
      as [Hin Hle].
    rewrite <- Hnum in Hin, Hle. split.
    + change (st_num_checks st ∈ check_count ∘ stats <$> a0 :: anns) in Hin.
      apply list_elem_of_fmap in Hin as (a & -> & Ha). by exists a.
    + intros a Ha. apply Hle.
      change (check_count (stats a) ∈ check_count ∘ stats <$> a0 :: anns).
      by apply (list_elem_of_fmap_2 (check_count ∘ stats)).
  - intros Hle. rewrite bool_decide_false in Hfreq by lia. congruence.
  - intros Hlt. rewrite bool_decide_true in Hfreq by done.
    destruct (Max _) as [mx|] eqn:Hmx; [|done].
    destruct (Min _) as [mn|] eqn:Hmn; [|done].
    injection Hfreq as <-.
    apply Max_Some in Hmx as [Hmx_in Hmx_le].
    apply Min_Some in Hmn as [Hmn_in Hmn_le].
    rewrite non_null_Some in Hmx_in, Hmx_le, Hmn_in, Hmn_le.
    apply list_elem_of_fmap in Hmx_in as (latest & -> & Hlatest).
    apply list_elem_of_fmap in Hmn_in as (earliest & -> & Hearliest).
    exists latest, earliest. split_and!; try done; try (by apply Hsel).
    intros l Hl%Hsel. apply (list_elem_of_fmap_2 check_time) in Hl.
    split; [by apply Hmn_le | by apply Hmx_le].
Qed.

Lemma check_frequency_summary_witness :
  ∃ st,
    get_mirror_statuses Example.healthy Example.noon DEFAULT_CUTOFF None = Ok st ∧
    st_num_checks st = 2 ∧
    st_check_frequency st = Some (hours 1) ∧
    ∃ latest earliest,
      latest ∈ mirrorlog Example.healthy ∧
      earliest ∈ mirrorlog Example.healthy ∧
      st_check_frequency st =
        Some ((check_time latest - check_time earliest)
                `div` (st_num_checks st - 1)).
Proof.
  eexists.
  edestruct (check_frequency_summary Example.healthy Example.noon
               DEFAULT_CUTOFF None) as (_ & _ & _ & Hfreq);
    [vm_compute; reflexivity |].
  split; [vm_compute; reflexivity|].
  split; [reflexivity|]. split; [reflexivity|].
  destruct Hfreq as (latest & earliest & Hmx & Hmn & _ & Heq); [done|].
  exists latest, earliest. split; [apply Hmx|]. split; [apply Hmn | exact Heq].
Defined.

(** ** get_mirror_errors and its mirror_id *)

(** [if mirror_id:] is false for 0: the call returns, and returns every
    mirror's errors. *)
Lemma get_mirror_errors_zero_counterexample :
  get_mirror_errors Example.healthy Example.noon DEFAULT_CUTOFF (Some 0)
  = Ok [({| values :=
              {| url__url := "http://mirror.leaseweb.com/archlinux/";
                 url__country := "";
                 url__protocol__protocol := "http";
                 url__mirror__tier := 2;
                 row_error := Some "timed out"%string |};
            error_count := 1;
            last_occurred := Some (hours 35) |}, mkCountry "")] ∧
  get_mirror_errors Example.healthy Example.noon DEFAULT_CUTOFF (Some 0)
  ≠ Raise NameError.
Proof. split; [by vm_compute | by vm_compute]. Qed.

(** C9 (amended). A call of [get_mirror_errors] with a mirror_id that is
    neither null nor zero raises a NameError before it returns; with
    mirror_id 0 the branch is not taken and the call is the call without
    mirror_id. Whatever the mirror_id, rows that are returned are the
    unfiltered ones. *)
Theorem get_mirror_errors_mirror_id db now cutoff mirror_id :
  mirror_id ≠ None →
  (mirror_id ≠ Some 0 →
     get_mirror_errors db now cutoff mirror_id = Raise NameError) ∧
  (mirror_id = Some 0 →
     get_mirror_errors db now cutoff mirror_id =
     get_mirror_errors db now cutoff None) ∧
  (∀ rows, get_mirror_errors db now cutoff mirror_id = Ok rows →
     get_mirror_errors db now cutoff None = Ok rows).
Proof.
  intros Hnn. destruct mirror_id as [m|]; [|done].
  unfold get_mirror_errors. simpl.
  destruct (Z.eqb_spec m 0) as [->|Hm]; simpl.
  - split_and!; done.
  - split_and!; [done | congruence | done].
Qed.

Lemma get_mirror_errors_mirror_id_witness :
  get_mirror_errors Example.healthy Example.noon DEFAULT_CUTOFF (Some 2)
  = Raise NameError.
Proof.
  by apply (get_mirror_errors_mirror_id Example.healthy Example.noon
              DEFAULT_CUTOFF (Some 2)).
Defined.

(** ** get_mirror_url_for_download *)

Lemma Max_check_time_None (ls : list MirrorLog) :
  Max (Some ∘ check_time <$> ls) = None ↔ ls = [].
Proof.
  rewrite Max_None, non_null_Some. split; [|by intros ->].
  by destruct ls.
Qed.

(** C10. When some log lies in the window and every log of the window has
    a null last_sync, [get_mirror_url_for_download] raises a TypeError: the
    latest last_sync is null and twenty minutes are subtracted from it. *)
Theorem get_mirror_url_for_download_null_sync db now cutoff :
  (∃ l, l ∈ mirrorlog db ∧ now - cutoff ≤ check_time l) →
  (∀ l, l ∈ mirrorlog db → now - cutoff ≤ check_time l → last_sync l = None) →
  get_mirror_url_for_download db now cutoff = Raise TypeError.
Proof.
  intros (l & Hl & Hw) Hnull. unfold get_mirror_url_for_download.
  set (window := filter (λ l, now - cutoff ≤ check_time l) (mirrorlog db)).
  assert (l ∈ window) as Hlw by (by apply list_elem_of_filter).
  destruct (Max (Some ∘ check_time <$> window)) as [mx|] eqn:Hmx.
  - replace (Max (last_sync <$> window)) with (@None Z); [done|].
    symmetry. apply Max_None.
    destruct (non_null (last_sync <$> window)) as [|s ss] eqn:Hs; [done|].
    assert (s ∈ non_null (last_sync <$> window)) as Hin by (rewrite Hs; left).
    apply elem_of_non_null, list_elem_of_fmap in Hin as (l' & Hl' & Hin).
    apply list_elem_of_filter in Hin as [Hw' Hin].
    rewrite (Hnull l' Hin Hw') in Hl'. done.
  - apply Max_check_time_None in Hmx. rewrite Hmx in Hlw.
    by apply elem_of_nil in Hlw.
Qed.

Lemma get_mirror_url_for_download_null_sync_witness :
  get_mirror_url_for_download Example.unsynced Example.noon DEFAULT_CUTOFF
  = Raise TypeError.
Proof.
  apply get_mirror_url_for_download_null_sync.
  - eexists. split; [left | by vm_compute].
  - intros l ->%list_elem_of_singleton _. reflexivity.
Defined.

Lemma filter_first {A} (P : A → Prop) `{∀ x, Decision (P x)} (l : list A) :
  match filter P l with
  | [] => ∀ x, x ∈ l → ¬ P x
  | y :: _ => y ∈ l ∧ P y
  end.
Proof.
  destruct (filter P l) as [|y ys] eqn:Hf.
  - intros x Hx HP. by eapply filter_nil_not_elem_of.
  - assert (y ∈ filter P l) as Hy by (rewrite Hf; left).
    apply list_elem_of_filter in Hy. tauto.
Qed.

Lemma fallback_url_spec db :
  match fallback_url db with
  | Some u =>
      u ∈ mirrorurl db ∧ download_url u ∧
      (country u = EmptyString ∨
       ∀ v, v ∈ mirrorurl db → download_url v → country v ≠ EmptyString)
  | None => ∀ v, v ∈ mirrorurl db → ¬ download_url v
  end.
Proof.
  unfold fallback_url.
  assert (∀ x, x ∈ filter download_url (mirrorurl db) ↔
               download_url x ∧ x ∈ mirrorurl db) as Hcand
    by (intros x; apply list_elem_of_filter).
  pose proof (filter_first (λ u, country u = EmptyString)
                (filter download_url (mirrorurl db))) as Hc.
  destruct (filter (λ u, country u = EmptyString) _) as [|u us]; simpl.
  - destruct (filter download_url (mirrorurl db)) as [|v vs]; simpl.
    + intros v Hv Hdv. apply (elem_of_nil v), Hcand. done.
    + destruct (proj1 (Hcand v) ltac:(left)) as [Hdv Hv].
      split_and!; [done..|]. right.
      intros w Hw Hdw. apply Hc, Hcand. done.
  - destruct Hc as [Hu Hcu]. apply Hcand in Hu as [Hdu Hu].
    split_and!; [done..|]. by left.
Qed.

(** C5. Without a log in the window, [get_mirror_url_for_download] returns
    a default-protocol URL of a public, active mirror with an empty country
    when there is one, else any default-protocol URL of a public, active
    mirror, else null. *)
Theorem get_mirror_url_for_download_fallback db now cutoff :
  (∀ l, l ∈ mirrorlog db → ¬ (now - cutoff ≤ check_time l)) →
  let candidate u :=
    u ∈ mirrorurl db ∧ public (mirror u) = true ∧
    active (mirror u) = true ∧ is_default (protocol u) = true in
  ((∃ u, candidate u ∧ country u = EmptyString) →
   ∃ u, get_mirror_url_for_download db now cutoff = Ok (Some u) ∧
        candidate u ∧ country u = EmptyString) ∧
  ((∃ u, candidate u) → ¬ (∃ u, candidate u ∧ country u = EmptyString) →
   ∃ u, get_mirror_url_for_download db now cutoff = Ok (Some u) ∧
        candidate u) ∧
  (¬ (∃ u, candidate u) →
   get_mirror_url_for_download db now cutoff = Ok None).
Proof.
  intros Hnone candidate.
  assert (get_mirror_url_for_download db now cutoff = Ok (fallback_url db))
    as ->.
  { unfold get_mirror_url_for_download.
    rewrite (filter_none _ (mirrorlog db)) by done. done. }
  pose proof (fallback_url_spec db) as Hf. unfold download_url in Hf.
  destruct (fallback_url db) as [u|].
  - destruct Hf as (Hu & Hd & Hc). split_and!.
    + intros (v & (Hv & Hdv) & Hcv). exists u.
      destruct Hc as [Hc|Hc]; [done|]. by destruct (Hc v).
    + intros _ _. by exists u.
    + intros []. by exists u.
  - split_and!.
    + intros (v & (Hv & Hdv) & _). by destruct (Hf v).
    + intros (v & (Hv & Hdv)). by destruct (Hf v).
    + done.
Qed.

Lemma get_mirror_url_for_download_fallback_witness :
  get_mirror_url_for_download Example.fresh_install Example.noon DEFAULT_CUTOFF
    = Ok (Some Example.url2) ∧
  ∃ u, get_mirror_url_for_download Example.fresh_install Example.noon
         DEFAULT_CUTOFF = Ok (Some u) ∧
       country u = EmptyString.
Proof.
  split; [reflexivity|].
  destruct (get_mirror_url_for_download_fallback Example.fresh_install
              Example.noon DEFAULT_CUTOFF) as ((u & Hu & _ & Hc) & _).
  - intros l Hl. by apply elem_of_nil in Hl.
  - exists Example.url2. split_and!; try reflexivity. right; left.
  - by exists u.
Defined.

(** ** The best log *)

Lemma asc_nullable_total v x y :
  asc_nullable v x y = true ∨ asc_nullable v y x = true.
Proof.
  destruct x as [a|], y as [b|]; simpl.
  - destruct (Qc_le_total a b); [left | right]; by apply bool_decide_eq_true.
  - destruct (nulls_first v); auto.
  - destruct (nulls_first v); auto.
  - by left.
Qed.

Lemma asc_nullable_trans v x y z :
  asc_nullable v x y = true → asc_nullable v y z = true →
  asc_nullable v x z = true.
Proof.
  destruct x as [a|], y as [b|], z as [c|]; simpl;
    try done; try (by destruct (nulls_first v)).
  rewrite !bool_decide_eq_true. apply Qcle_trans.
Qed.

(** The latest check of the window is the latest check of the table: the
    window has no upper end. *)
Lemma window_latest db cutoff_time mx l :
  Max (Some ∘ check_time <$>
       filter (λ l, cutoff_time ≤ check_time l) (mirrorlog db)) = Some mx →
  l ∈ mirrorlog db → check_time l ≤ mx.
Proof.
  intros [Hin Hle]%Max_Some Hl. rewrite non_null_Some in Hin, Hle.
  apply list_elem_of_fmap in Hin as (l0 & -> & Hl0).
  apply list_elem_of_filter in Hl0 as [Hw0 Hl0].
  destruct (decide (cutoff_time ≤ check_time l)) as [Hw|Hw]; [|lia].
  apply Hle, list_elem_of_fmap_2. by apply list_elem_of_filter.
Qed.

(** One failed check in the window and nothing else: no log qualifies,
    and the answer is the country-agnostic fallback, not the URL of a
    log. *)
Lemma best_url_no_success_counterexample :
  (∃ l, l ∈ mirrorlog Example.failing ∧
        Example.noon - DEFAULT_CUTOFF ≤ check_time l) ∧
  (∀ l, l ∈ mirrorlog Example.failing → is_success l = false) ∧
  get_mirror_url_for_download Example.failing Example.noon DEFAULT_CUTOFF
    = Ok (Some Example.url2) ∧
  ¬ (∃ l, l ∈ mirrorlog Example.failing ∧ is_success l = true ∧
          log_url Example.failing l = Some Example.url2).
Proof.
  split_and!.
  - eexists. split; [left | by vm_compute].
  - by intros l ->%list_elem_of_singleton.
  - reflexivity.
  - by intros (l & ->%list_elem_of_singleton & Hs & _).
Qed.

(** C4 (amended). Let T and S be the latest check_time and the latest
    last_sync of the logs of the window, both present. If some successful
    log of a public, active mirror on the default protocol has its
    check_time within 5 minutes of T and its last_sync within 20 minutes of
    S, [get_mirror_url_for_download] returns the URL of such a log, one
    that no other such log precedes in the order of duration: none of them
    has a smaller duration. A log outside these windows is not the one
    selected. If no log qualifies, the answer is the fallback. *)
Theorem best_url_selected db now cutoff mx sx :
  let window :=
    filter (λ l, now - cutoff ≤ check_time l) (mirrorlog db) in
  Max (Some ∘ check_time <$> window) = Some mx →
  Max (last_sync <$> window) = Some sx →
  let qualifies l :=
    l ∈ mirrorlog db ∧ is_success l = true ∧
    mx - minutes 5 ≤ check_time l ≤ mx ∧
    (∃ s, last_sync l = Some s ∧ sx - minutes 20 ≤ s) ∧
    ∃ u, log_url db l = Some u ∧ public (mirror u) = true ∧
         active (mirror u) = true ∧ is_default (protocol u) = true in
  ((∃ l, qualifies l) →
   ∃ l u,
     qualifies l ∧ log_url db l = Some u ∧
     get_mirror_url_for_download db now cutoff = Ok (Some u) ∧
     ∀ l', qualifies l' →
       by_duration db l l' = true ∧
       ∀ d d', duration l = Some d → duration l' = Some d' → (d ≤ d')%Qc) ∧
  (¬ (∃ l, qualifies l) →
   get_mirror_url_for_download db now cutoff = Ok (fallback_url db)).
Proof.
  intros window Hmx Hsx qualifies.
  assert (∀ l, qualifies l ↔
            l ∈ filter (best_log db (mx - minutes 5) (sx - minutes 20))
                  (mirrorlog db)) as Hq.
  { intros l. rewrite list_elem_of_filter. unfold qualifies, best_log. split.
    - intros (Hl & Hs & [Hc _] & (s & -> & Hsync) & (u & -> & Hu)). done.
    - intros ((Hs & Hc & Hsync & Hu) & Hl).
      destruct (last_sync l) as [s|]; [|done].
      destruct (log_url db l) as [u|]; [|done].
      split_and!; try done; [by eapply window_latest | by exists s | by exists u]. }
  unfold get_mirror_url_for_download. fold window. rewrite Hmx, Hsx.
  set (best := filter (best_log db (mx - minutes 5) (sx - minutes 20))
                (mirrorlog db)) in *.
  destruct (order_by (by_duration db) best) as [|l ls] eqn:Hord.
  - apply order_by_nil in Hord. split.
    + intros (l & Hl%Hq). rewrite Hord in Hl. by apply elem_of_nil in Hl.
    + done.
  - apply order_by_first in Hord as [Hl Hfirst];
      [| intros; apply asc_nullable_total
       | intros ???; apply asc_nullable_trans].
    pose proof (proj2 (Hq l) Hl) as Hql.
    pose proof Hql as (_ & _ & _ & _ & u & Hu & _).
    split.
    + intros _. exists l, u.
      split; [exact Hql|]. split; [exact Hu|].
      split; [simpl; by rewrite Hu|].
      intros l' Hl'%Hq. specialize (Hfirst l' Hl'). split; [done|].
      intros d d' Hd Hd'. unfold by_duration in Hfirst.
      rewrite Hd, Hd' in Hfirst. by apply bool_decide_eq_true in Hfirst.
    + intros []. by exists l.
Qed.

Lemma best_url_selected_witness :
  get_mirror_url_for_download Example.healthy Example.noon DEFAULT_CUTOFF
    = Ok (Some Example.url1) ∧
  ∃ l u,
    l ∈ mirrorlog Example.healthy ∧ is_success l = true ∧
    log_url Example.healthy l = Some u ∧
    get_mirror_url_for_download Example.healthy Example.noon DEFAULT_CUTOFF
      = Ok (Some u).
Proof.
  split; [reflexivity|].
  destruct (best_url_selected Example.healthy Example.noon DEFAULT_CUTOFF
              (hours 35) (hours 32)) as [Hsel _];
    [reflexivity | reflexivity |].
  destruct Hsel as (l & u & (Hl & Hs & _) & Hu & Hres & _).
  - exists (Example.log 1 (hours 35) (Some (hours 32)) (Some (Q2Qc (3 # 2)))
              true None).
    split_and!; try reflexivity.
    + by apply (list_elem_of_lookup_2 _ 1%nat).
    + by vm_compute.
    + exists (hours 32). split; [reflexivity | by vm_compute].
    + exists Example.url1. split_and!; reflexivity.
  - by exists l, u.
Defined.

(** ** get_mirror_errors: grouping and order *)



Lemma StronglySorted_elem_impl {A} (R R' : A → A → Prop) (l : list A) :
  (∀ x y, x ∈ l → y ∈ l → R x y → R' x y) →
  StronglySorted R l → StronglySorted R' l.
Proof.
  intros Himpl Hs. induction Hs as [|x l Hs IH Hx]; constructor.
  - apply IH. intros y z Hy Hz. apply Himpl; by right.
  - apply Forall_forall. intros y Hy. apply Himpl; [left | by right|].
    rewrite Forall_forall in Hx. by apply Hx.
Qed.




Lemma fmap_fst_pair {A B} (g : A → B) (l : list A) :
  fst <$> ((λ x, (x, g x)) <$> l) = l.
Proof. induction l as [|x l IH]; [done|]. csimpl. by rewrite IH. Qed.








(** * Further properties of mirrors/utils.py *)

(** ** Which exceptions get_mirror_statuses can raise *)

Lemma elem_of_valid_urls db cutoff_time mirror_id u :
  u ∈ valid_urls db cutoff_time mirror_id ↔
  u ∈ mirrorurl db ∧ active (mirror u) = true ∧ public (mirror u) = true ∧
  logs_of db cutoff_time u ≠ [] ∧
  (truthy mirror_id = true → Some (mirror_pk (mirror u)) = mirror_id).
Proof.
  unfold valid_urls. destruct (truthy mirror_id).
  - rewrite !list_elem_of_filter. split.
    + intros (Hm & (Ha & Hp & Hl) & Hu). auto.
    + intros (Hu & Ha & Hp & Hl & Hm). auto.
  - rewrite list_elem_of_filter. split.
    + intros ((Ha & Hp & Hl) & Hu). split_and!; [done..|]. discriminate.
    + intros (Hu & Ha & Hp & Hl & _). auto.
Qed.

(** Every URL the last query selects has its item in [url_data]. *)
Lemma set_attributes_found db cutoff_time mirror_id u :
  let valid := valid_urls db cutoff_time mirror_id in
  u ∈ mirrorurl db → id_in valid u →
  ∃ o,
    set_attributes
      (dict ((λ item, (item_id item, item)) <$>
             url_data_query db cutoff_time valid)) u = Ok o.
Proof.
  intros valid Hu Hin. unfold set_attributes.
  destruct (dict _ !! id_ u) as [item|] eqn:Hd; [by eexists|]. exfalso.
  apply dict_lookup_None in Hd. apply Hd. clear Hd.
  pose proof Hin as Hin'. unfold id_in in Hin.
  apply list_elem_of_fmap in Hin as (v & Hid & Hv).
  apply elem_of_valid_urls in Hv as (_ & _ & _ & Hlogs & _).
  rewrite (logs_of_id db cutoff_time v u) in Hlogs by done.
  rewrite <- list_fmap_compose. apply list_elem_of_fmap.
  destruct (url_item db cutoff_time u) as [item|] eqn:Hitem.
  - exists item. split.
    + unfold url_item in Hitem.
      destruct (logs_of db cutoff_time u); [done|]. by injection Hitem as <-.
    + apply list_elem_of_omap. exists u. split; [|done].
      by apply list_elem_of_filter.
  - unfold url_item in Hitem. by destruct (logs_of db cutoff_time u).
Qed.

Lemma for_each_all_Ok {A B} (f : A → result B) xs :
  (∀ x, x ∈ xs → ∃ y, f x = Ok y) → ∃ ys, for_each f xs = Ok ys.
Proof.
  induction xs as [|x xs IH]; intros Hall; [by eexists|]. simpl.
  destruct (Hall x ltac:(left)) as [y ->].
  destruct IH as [ys ->]; [intros x' Hx'; apply Hall; by right|].
  by eexists.
Qed.

Lemma for_each_Ok_or {A B} (f : A → result B) xs (P : exn → Prop) :
  (∀ x, x ∈ xs → (∃ y, f x = Ok y) ∨ ∃ e, f x = Raise e ∧ P e) →
  (∃ ys, for_each f xs = Ok ys) ∨ ∃ e, for_each f xs = Raise e ∧ P e.
Proof.
  induction xs as [|x xs IH]; intros Hall; [left; by eexists|]. simpl.
  destruct (Hall x ltac:(left)) as [[y ->]|(e & -> & He)]; [|right; by exists e].
  destruct IH as [[ys ->]|(e & -> & He)];
    [intros x' Hx'; apply Hall; by right|..].
  - left. by eexists.
  - right. by exists e.
Qed.

Lemma if_urls_Ok_or db cutoff_time mirror_id :
  let valid := valid_urls db cutoff_time mirror_id in
  let urls :=
    order_by (by_mirror_and_url db) (filter (id_in valid) (mirrorurl db)) in
  (∃ r, if_urls db cutoff_time mirror_id
          (url_data_query db cutoff_time valid) urls = Ok r) ∨
  if_urls db cutoff_time mirror_id
    (url_data_query db cutoff_time valid) urls = Raise TypeError.
Proof.
  intros valid urls.
  destruct (for_each_all_Ok
    (set_attributes (dict ((λ item, (item_id item, item)) <$>
                           url_data_query db cutoff_time valid))) urls)
    as [objs Hobjs].
  { intros u [Hin Hu]%elem_of_order_by%list_elem_of_filter.
    by apply set_attributes_found. }
  unfold if_urls. destruct urls as [|u us]; [left; by eexists|].
  rewrite Hobjs. simpl. unfold check_frequency.
  case_bool_decide; [|left; by eexists].
  destruct (Max (Some ∘ check_time <$> check_info db cutoff_time mirror_id));
    [|by right].
  destruct (Min _); [left; by eexists | by right].
Qed.

(** Which engine a kind of delay comes from. *)
Lemma url_delays_vendor db cutoff_time mirror_id uid d :
  get_or_None (url_delays db cutoff_time mirror_id) uid = Some d →
  match d with
  | Timedelta _ => vendor db = postgresql
  | Number _ => vendor db ≠ postgresql
  end.
Proof.
  rewrite url_delays_lookup. unfold Avg_delay.
  destruct (vendor db); [destruct (Avg _) | destruct (Avg_interval _)
                        | destruct (Avg _) | destruct (Avg _)];
    destruct d; by intros [=].
Qed.

Lemma annotate_object_Ok_or db delays o u cutoff_time valid :
  set_attributes
    (dict ((λ item, (item_id item, item)) <$>
           url_data_query db cutoff_time valid)) u = Ok o →
  (∃ a, annotate_object db delays o = Ok a) ∨
  annotate_object db delays o = Raise TypeError ∨
  ((∃ x, get_or_None delays (id_ u) = Some (Number x)) ∧
   annotate_object db delays o = Raise AttributeError).
Proof.
  intros (Hurl & Hne & Hcc & _ & _ & _ & _ & Hsd)%set_attributes_Ok.
  assert (check_count o ≠ 0) as Hc.
  { rewrite Hcc. destruct (logs_of db cutoff_time u); [done | simpl; lia]. }
  unfold annotate_object, annotate_url.
  destruct (decide (vendor db = sqlite)) as [Hv|Hv]; simpl;
    rewrite bool_decide_false by done; rewrite Hurl.
  - destruct (get_or_None _ _) as [[d|x]|]; [| right; right; eauto | left; by eexists].
    destruct (duration_avg o); [left; by eexists | right; by left].
  - rewrite Hsd.
    destruct (get_or_None _ _) as [[d|x]|]; [| right; right; eauto | left; by eexists].
    destruct (duration_avg o); [|right; by left].
    destruct (StdDev db _); [left; by eexists | right; by left].
Qed.

Lemma get_mirror_statuses_Ok_or db now cutoff mirror_id :
  (∃ st, get_mirror_statuses db now cutoff mirror_id = Ok st) ∨
  get_mirror_statuses db now cutoff mirror_id = Raise TypeError ∨
  (get_mirror_statuses db now cutoff mirror_id = Raise AttributeError ∧
   vendor db ≠ postgresql ∧
   ∃ u x, u ∈ mirrorurl db ∧
     get_or_None (url_delays db (now - cutoff) mirror_id) (id_ u) =
       Some (Number x)).
Proof.
  unfold get_mirror_statuses.
  destruct (if_urls_Ok_or db (now - cutoff) mirror_id)
    as [[[[[objs lc] nc] fr] Hif]|Hif]; [|right; left; by rewrite Hif].
  rewrite Hif. simpl.
  apply if_urls_Ok in Hif as (Hobjs & _).
  destruct (for_each_Ok_or
    (annotate_object db (url_delays db (now - cutoff) mirror_id)) objs
    (λ e, e = TypeError ∨
          (e = AttributeError ∧ vendor db ≠ postgresql ∧
           ∃ u x, u ∈ mirrorurl db ∧
             get_or_None (url_delays db (now - cutoff) mirror_id) (id_ u) =
               Some (Number x))))
    as [[anns ->]|(e & -> & [->|(-> & Hv & Hn)])];
    [|left; by eexists | right; by left | right; by right].
  intros o Ho.
  destruct (Forall2_elem_r _ _ _ _ Hobjs Ho) as (u & Hu & Huo).
  apply elem_of_order_by, list_elem_of_filter in Hu as [_ Hu].
  destruct (annotate_object_Ok_or db
              (url_delays db (now - cutoff) mirror_id) _ _ _ _ Huo)
    as [Hok|[Hty|[[x Hx] Hat]]]; [by left | right.. ].
  - exists TypeError. split; [done | by left].
  - exists AttributeError. split; [done|]. right. split; [done|].
    split; [apply (url_delays_vendor _ _ _ _ _ Hx) | by exists u, x].
Qed.



(** ** When get_mirror_statuses returns *)

Lemma log_url_Some db l u :
  log_url db l = Some u → u ∈ mirrorurl db ∧ id_ u = url_id l.
Proof.
  unfold log_url. intros [Hin Hid]%find_some.
  split; [by apply list_elem_of_In|]. by apply bool_decide_eq_true in Hid.
Qed.

Lemma log_url_unique db l u :
  NoDup (id_ <$> mirrorurl db) → u ∈ mirrorurl db → url_id l = id_ u →
  log_url db l = Some u.
Proof.
  unfold log_url. induction (mirrorurl db) as [|v vs IH]; intros Hnd Hu Hid.
  - by apply elem_of_nil in Hu.
  - rewrite fmap_cons in Hnd. apply NoDup_cons in Hnd as [Hv Hnd]. simpl.
    case_bool_decide as Hvid.
    + apply elem_of_cons in Hu as [->|Hu]; [done|].
      exfalso. apply Hv. rewrite Hvid, Hid. by apply list_elem_of_fmap_2.
    + apply elem_of_cons in Hu as [->|Hu]; [congruence|]. by apply IH.
Qed.

Lemma non_null_cons {A} (col : list (option A)) x :
  Some x ∈ col → non_null col ≠ [].
Proof.
  intros Hx%elem_of_non_null Hnil. rewrite Hnil in Hx.
  by apply elem_of_nil in Hx.
Qed.

(** With primary keys, a URL of the result has its own logs among the
    rows [check_info] aggregates. *)
Lemma check_info_covers db cutoff_time mirror_id u l :
  NoDup (id_ <$> mirrorurl db) →
  u ∈ mirrorurl db → id_in (valid_urls db cutoff_time mirror_id) u →
  l ∈ logs_of db cutoff_time u →
  l ∈ check_info db cutoff_time mirror_id.
Proof.
  intros Hnd Hu Hin [[Hid Hw] Hl]%list_elem_of_filter.
  apply elem_of_check_info. split_and!; [done..|]. intros Ht.
  unfold id_in in Hin. apply list_elem_of_fmap in Hin as (v & Hidv & Hv).
  apply elem_of_valid_urls in Hv as (Hv & _ & _ & _ & Hm).
  unfold log_mirror_id. rewrite (log_url_unique db l v); try done.
  - simpl. by apply Hm.
  - congruence.
Qed.

Lemma if_urls_returns db cutoff_time mirror_id :
  NoDup (id_ <$> mirrorurl db) →
  let valid := valid_urls db cutoff_time mirror_id in
  let urls :=
    order_by (by_mirror_and_url db) (filter (id_in valid) (mirrorurl db)) in
  ∃ r, if_urls db cutoff_time mirror_id
         (url_data_query db cutoff_time valid) urls = Ok r.
Proof.
  intros Hnd valid urls.
  destruct (if_urls_Ok_or db cutoff_time mirror_id) as [Hok|Hraise]; [done|].
  exfalso. fold valid urls in Hraise. unfold if_urls in Hraise.
  destruct urls as [|u us] eqn:Hurls; [done|].
  assert (u ∈ urls) as Hu by (rewrite Hurls; left).
  apply elem_of_order_by, list_elem_of_filter in Hu as [Hin Hu].
  destruct (for_each _ (u :: us)) as [objs|e] eqn:Hobjs.
  2: { destruct (for_each_all_Ok
         (set_attributes (dict ((λ item, (item_id item, item)) <$>
            url_data_query db cutoff_time valid))) (u :: us)) as [objs Hok].
       - intros u' Hu'. rewrite <- Hurls in Hu'.
         apply elem_of_order_by, list_elem_of_filter in Hu' as [? ?].
         by apply set_attributes_found.
       - congruence. }
  simpl in Hraise. unfold check_frequency in Hraise.
  case_bool_decide; [|done].
  destruct (set_attributes_found db cutoff_time mirror_id u Hu Hin) as [o Ho].
  apply set_attributes_Ok in Ho as (_ & Hne & _).
  destruct (logs_of db cutoff_time u) as [|l ls] eqn:Hlogs; [done|].
  assert (l ∈ check_info db cutoff_time mirror_id) as Hl.
  { apply (check_info_covers db cutoff_time mirror_id u); try done.
    rewrite Hlogs. left. }
  assert (Some (check_time l) ∈
          Some ∘ check_time <$> check_info db cutoff_time mirror_id) as Hc
    by (by apply (list_elem_of_fmap_2 (Some ∘ check_time))).
  apply non_null_cons in Hc.
  unfold Max, Min in Hraise.
  destruct (non_null (Some ∘ check_time <$>
                      check_info db cutoff_time mirror_id));
    [done | discriminate].
Qed.




(** ** The URLs get_mirror_statuses returns, and their order *)

Lemma set_attributes_urls data urls objs :
  Forall2 (λ u o, set_attributes data u = Ok o) urls objs →
  stats_url <$> objs = urls.
Proof.
  induction 1 as [|u o urls objs Huo _ IH]; [done|]. csimpl.
  rewrite IH. f_equal. unfold set_attributes in Huo.
  destruct (data !! id_ u); [|done]. by injection Huo as <-.
Qed.

Lemma annotate_objects_urls db delays objs anns :
  Forall2 (λ o a, annotate_object db delays o = Ok a) objs anns →
  stats_url ∘ stats <$> anns = stats_url <$> objs.
Proof.
  induction 1 as [|o a objs anns Hoa _ IH]; [done|]. csimpl.
  apply annotate_object_stats in Hoa as [_ ->]. by rewrite IH.
Qed.

(** The URL objects of the result are the rows of the last query, in its
    order. *)
Lemma get_mirror_statuses_queryset db now cutoff mirror_id st :
  get_mirror_statuses db now cutoff mirror_id = Ok st →
  stats_url ∘ stats <$> st_urls st =
  order_by (by_mirror_and_url db)
    (filter (id_in (valid_urls db (now - cutoff) mirror_id)) (mirrorurl db)).
Proof.
  intros (objs & Hobjs & Hann & _)%get_mirror_statuses_Ok.
  rewrite (annotate_objects_urls _ _ _ _ Hann).
  by rewrite (set_attributes_urls _ _ _ Hobjs).
Qed.

Lemma filter_ext_elem {A} (P Q : A → Prop) `{∀ x, Decision (P x)}
    `{∀ x, Decision (Q x)} (l : list A) :
  (∀ x, x ∈ l → P x ↔ Q x) → filter P l = filter Q l.
Proof.
  induction l as [|x l IH]; intros Hall; [done|].
  rewrite !filter_cons, IH by (intros y Hy; apply Hall; by right).
  specialize (Hall x ltac:(left)).
  repeat case_decide; tauto.
Qed.

Lemma NoDup_fmap_elem_inj {A B} (f : A → B) (l : list A) x y :
  NoDup (f <$> l) → x ∈ l → y ∈ l → f x = f y → x = y.
Proof.
  induction l as [|z l IH]; intros Hnd Hx Hy Hf; [by apply elem_of_nil in Hx|].
  rewrite fmap_cons in Hnd. apply NoDup_cons in Hnd as [Hz Hnd].
  apply elem_of_cons in Hx as [->|Hx]; apply elem_of_cons in Hy as [->|Hy].
  - done.
  - exfalso. apply Hz. rewrite Hf. by apply list_elem_of_fmap_2.
  - exfalso. apply Hz. rewrite <- Hf. by apply list_elem_of_fmap_2.
  - by apply IH.
Qed.

(** X3. With unique URL ids, the URLs [get_mirror_statuses] returns are,
    each exactly once, the URLs of active, public mirrors that have a log
    in the window (of the given mirror, when mirror_id is true). *)
Theorem get_mirror_statuses_urls db now cutoff mirror_id st :
  NoDup (id_ <$> mirrorurl db) →
  get_mirror_statuses db now cutoff mirror_id = Ok st →
  stats_url ∘ stats <$> st_urls st ≡ₚ
  filter (λ u, active (mirror u) = true ∧ public (mirror u) = true ∧
               logs_of db (now - cutoff) u ≠ [] ∧
               (truthy mirror_id = true →
                Some (mirror_pk (mirror u)) = mirror_id))
    (mirrorurl db).
Proof.
  intros Hnd Hst.
  rewrite (get_mirror_statuses_queryset _ _ _ _ _ Hst), order_by_perm.
  erewrite filter_ext_elem; [done|].
  intros u Hu. unfold id_in. split.
  - intros (v & Hid & Hv)%list_elem_of_fmap.
    pose proof Hv as (Hvt & _)%elem_of_valid_urls.
    rewrite (NoDup_fmap_elem_inj id_ (mirrorurl db) u v) by done.
    apply elem_of_valid_urls in Hv. tauto.
  - intros H. apply list_elem_of_fmap_2, elem_of_valid_urls. tauto.
Qed.

Lemma get_mirror_statuses_urls_witness :
  ∃ st,
    get_mirror_statuses Example.healthy Example.noon DEFAULT_CUTOFF None = Ok st ∧
    stats_url ∘ stats <$> st_urls st ≡ₚ [Example.url1; Example.url2].
Proof.
  eexists. split; [vm_compute; reflexivity|].
  rewrite (get_mirror_statuses_urls Example.healthy Example.noon
             DEFAULT_CUTOFF None);
    [| by apply (bool_decide_unpack _) | vm_compute; reflexivity].
  by vm_compute.
Defined.

Lemma insert_by_sorted_key {A} (le : A → A → bool) (key : A → Z) x l :
  (∀ a b, le a b = true → key a ≤ key b) →
  (∀ a b, le a b = false → key b ≤ key a) →
  StronglySorted (λ a b, key a ≤ key b) l →
  StronglySorted (λ a b, key a ≤ key b) (insert_by le x l).
Proof.
  intros Hle Hgt. induction 1 as [|y l Hs IH Hy]; simpl.
  - repeat constructor.
  - destruct (le x y) eqn:Hxy.
    + constructor; [by constructor|]. constructor; [by apply Hle|].
      eapply Forall_impl; [exact Hy|]. intros z Hz. simpl in Hz.
      specialize (Hle _ _ Hxy). lia.
    + constructor; [done|]. rewrite insert_by_perm.
      constructor; [by apply Hgt | done].
Qed.

Lemma order_by_sorted_key {A} (le : A → A → bool) (key : A → Z) l :
  (∀ a b, le a b = true → key a ≤ key b) →
  (∀ a b, le a b = false → key b ≤ key a) →
  StronglySorted (λ a b, key a ≤ key b) (order_by le l).
Proof.
  intros Hle Hgt. induction l as [|x l IH]; [constructor|].
  by apply insert_by_sorted_key.
Qed.

(** X4. The URLs of the result come in ascending order of mirror id,
    however the store collates the URL text. *)
Theorem get_mirror_statuses_by_mirror db now cutoff mirror_id st :
  get_mirror_statuses db now cutoff mirror_id = Ok st →
  StronglySorted (λ u v, mirror_pk (mirror u) ≤ mirror_pk (mirror v))
    (stats_url ∘ stats <$> st_urls st).
Proof.
  intros Hst. rewrite (get_mirror_statuses_queryset _ _ _ _ _ Hst).
  apply (order_by_sorted_key _ (mirror_pk ∘ mirror)).
  - intros u v. unfold by_mirror_and_url. simpl.
    intros [H|[H _]%andb_true_iff]%orb_true_iff;
      apply bool_decide_eq_true in H; lia.
  - intros u v. unfold by_mirror_and_url. simpl.
    intros [H _]%orb_false_iff. apply bool_decide_eq_false in H. lia.
Qed.

Lemma get_mirror_statuses_by_mirror_witness :
  ∃ st,
    get_mirror_statuses Example.healthy Example.noon DEFAULT_CUTOFF None = Ok st ∧
    StronglySorted (λ u v, mirror_pk (mirror u) ≤ mirror_pk (mirror v))
      (stats_url ∘ stats <$> st_urls st).
Proof.
  eexists. split; [vm_compute; reflexivity|].
  apply (get_mirror_statuses_by_mirror Example.healthy Example.noon
           DEFAULT_CUTOFF None).
  vm_compute; reflexivity.
Defined.

(** X5. When no URL of an active, public mirror has a log in the window
    (an empty log table, say), [get_mirror_statuses] raises nothing and
    returns the empty summary: no URL, num_checks 0, last_check and
    check_frequency null. *)
Theorem get_mirror_statuses_empty db now cutoff mirror_id :
  (∀ u, u ∈ mirrorurl db → active (mirror u) = true →
        public (mirror u) = true → logs_of db (now - cutoff) u = []) →
  get_mirror_statuses db now cutoff mirror_id =
  Ok {| st_cutoff := cutoff; st_last_check := None; st_num_checks := 0;
        st_check_frequency := None; st_urls := [] |}.
Proof.
  intros Hnone.
  assert (valid_urls db (now - cutoff) mirror_id = []) as Hvalid.
  { destruct (valid_urls _ _ _) as [|u us] eqn:Hv; [done|].
    assert (u ∈ valid_urls db (now - cutoff) mirror_id) as Hu
      by (rewrite Hv; left).
    apply elem_of_valid_urls in Hu as (Hu & Ha & Hp & Hl & _).
    by destruct Hl; apply Hnone. }
  unfold get_mirror_statuses. rewrite Hvalid.
  rewrite (filter_none (id_in [])).
  - done.
  - intros u _ Hin. unfold id_in in Hin. by apply elem_of_nil in Hin.
Qed.

Lemma get_mirror_statuses_empty_witness :
  get_mirror_statuses Example.fresh_install Example.noon DEFAULT_CUTOFF None =
  Ok {| st_cutoff := DEFAULT_CUTOFF; st_last_check := None;
        st_num_checks := 0; st_check_frequency := None; st_urls := [] |}.
Proof.
  apply get_mirror_statuses_empty. intros u _ _ _. reflexivity.
Defined.

(** ** The attributes of a returned URL and the summary's last_check *)

Lemma annotate_object_attrs db delays o a :
  annotate_object db delays o = Ok a →
  url_last_check (stats a) = url_last_check o ∧
  url_last_sync (stats a) = url_last_sync o ∧
  duration_avg (stats a) = duration_avg o ∧
  duration_stddev (stats a) =
    if decide (vendor db = sqlite) then Some (Some 0%Qc)
    else duration_stddev o.
Proof.
  unfold annotate_object. intros (_ & -> & _)%annotate_url_Ok.
  by destruct (decide (vendor db = sqlite)).
Qed.

Lemma get_mirror_statuses_attrs db now cutoff mirror_id st a :
  get_mirror_statuses db now cutoff mirror_id = Ok st →
  a ∈ st_urls st →
  let logs := logs_of db (now - cutoff) (stats_url (stats a)) in
  url_last_check (stats a) = Max (Some ∘ check_time <$> logs) ∧
  url_last_sync (stats a) = Max (last_sync <$> logs) ∧
  duration_stddev (stats a) =
    Some (if decide (vendor db = sqlite) then Some 0%Qc
          else StdDev db (duration <$> logs)).
Proof.
  intros (objs & Hobjs & Hann & _)%get_mirror_statuses_Ok Ha.
  destruct (Forall2_elem_r _ _ _ _ Hann Ha) as (o & Ho & Hoa).
  destruct (Forall2_elem_r _ _ _ _ Hobjs Ho) as (u & _ & Huo).
  apply set_attributes_Ok in Huo as (Hurl & _ & _ & _ & Hls & Hlc & _ & Hsd).
  pose proof (annotate_object_stats _ _ _ _ Hoa) as [_ Hu].
  apply annotate_object_attrs in Hoa as (-> & -> & _ & ->).
  simpl. rewrite Hu, Hurl, Hls, Hlc, Hsd.
  by destruct (decide (vendor db = sqlite)).
Qed.

(** X6. For every URL of the result, last_check is the latest check_time
    of its logs in the window, and last_sync the latest non-null last_sync
    of those logs, null exactly when none of them has one. *)
Theorem get_mirror_statuses_latest db now cutoff mirror_id st a :
  get_mirror_statuses db now cutoff mirror_id = Ok st →
  a ∈ st_urls st →
  let logs := logs_of db (now - cutoff) (stats_url (stats a)) in
  (∃ t, url_last_check (stats a) = Some t ∧ t ∈ check_time <$> logs ∧
        ∀ l, l ∈ logs → check_time l ≤ t) ∧
  (url_last_sync (stats a) = None ↔ ∀ l, l ∈ logs → last_sync l = None) ∧
  (∀ s, url_last_sync (stats a) = Some s →
        Some s ∈ last_sync <$> logs ∧
        ∀ l s', l ∈ logs → last_sync l = Some s' → s' ≤ s).
Proof.
  intros Hst Ha logs.
  destruct (get_mirror_statuses_attrs _ _ _ _ _ _ Hst Ha) as (Hlc & Hls & _).
  destruct (get_mirror_statuses_url _ _ _ _ _ _ Hst Ha) as (_ & Hne & _).
  fold logs in Hlc, Hls, Hne. split_and!.
  - destruct (Max (Some ∘ check_time <$> logs)) as [t|] eqn:Hmax.
    + apply Max_Some in Hmax as [Hin Hle]. rewrite non_null_Some in Hin, Hle.
      exists t. split_and!; [done..|].
      intros l Hl. by apply Hle, list_elem_of_fmap_2.
    + apply Max_check_time_None in Hmax. done.
  - rewrite Hls, Max_None. split.
    + intros Hnil l Hl. destruct (last_sync l) as [s|] eqn:Hs; [|done].
      exfalso. apply (non_null_cons (last_sync <$> logs) s); [|done].
      rewrite <- Hs. by apply list_elem_of_fmap_2.
    + intros Hall. destruct (non_null _) as [|s ss] eqn:Hnn; [done|].
      assert (s ∈ non_null (last_sync <$> logs)) as Hs by (rewrite Hnn; left).
      apply elem_of_non_null, list_elem_of_fmap in Hs as (l & Hs & Hl).
      by rewrite (Hall l Hl) in Hs.
  - intros s Hs. rewrite Hls in Hs. apply Max_Some in Hs as [Hin Hle].
    split; [by apply elem_of_non_null|].
    intros l s' Hl Hs'. apply Hle, elem_of_non_null.
    rewrite <- Hs'. by apply list_elem_of_fmap_2.
Qed.

Lemma get_mirror_statuses_latest_witness :
  ∃ st a,
    get_mirror_statuses Example.healthy Example.noon DEFAULT_CUTOFF None = Ok st ∧
    a ∈ st_urls st ∧ stats_url (stats a) = Example.url1 ∧
    url_last_check (stats a) = Some (hours 35) ∧
    ∃ t, url_last_check (stats a) = Some t ∧
         t ∈ check_time <$>
             logs_of Example.healthy (Example.noon - DEFAULT_CUTOFF)
               (stats_url (stats a)).
Proof.
  eexists _, _.
  edestruct (get_mirror_statuses_latest Example.healthy Example.noon
               DEFAULT_CUTOFF None) as ((t & Ht & Hin & _) & _);
    [vm_compute; reflexivity | left |].
  split; [vm_compute; reflexivity|]. split; [left|].
  split; [reflexivity|]. split; [reflexivity|]. by exists t.
Defined.

(** X7. In the summary, last_check is the latest last_check of the
    returned URLs whenever there is one. *)
Theorem get_mirror_statuses_last_check db now cutoff mirror_id st :
  get_mirror_statuses db now cutoff mirror_id = Ok st →
  st_urls st ≠ [] →
  ∃ t a,
    st_last_check st = Some t ∧ a ∈ st_urls st ∧
    url_last_check (stats a) = Some t ∧
    ∀ a' t', a' ∈ st_urls st → url_last_check (stats a') = Some t' → t' ≤ t.
Proof.
  intros Hst Hne.
  pose proof Hst as (objs & _ & Hann & _ & Hlc & _)%get_mirror_statuses_Ok.
  assert (url_last_check <$> objs = url_last_check ∘ stats <$> st_urls st)
    as Hcol.
  { clear -Hann. induction Hann as [|o a objs anns Hoa _ IH]; [done|]. csimpl.
    apply annotate_object_attrs in Hoa as (<- & _). by rewrite IH. }
  rewrite Hcol in Hlc.
  destruct (st_urls st) as [|a0 anns] eqn:Hanns; [done|].
  destruct (get_mirror_statuses_latest _ _ _ _ _ a0 Hst)
    as ((t0 & Ht0 & _) & _); [rewrite Hanns; left|].
  destruct (st_last_check st) as [t|].
  - symmetry in Hlc. apply Max_Some in Hlc as [Hin Hle].
    apply elem_of_non_null, list_elem_of_fmap in Hin as (a & Ha & Hin).
    exists t, a. split_and!; [done..|].
    intros a' t' Ha' Ht'. apply Hle, elem_of_non_null. rewrite <- Ht'.
    by apply (list_elem_of_fmap_2 (url_last_check ∘ stats)).
  - exfalso. symmetry in Hlc. apply Max_None in Hlc.
    apply (non_null_cons (url_last_check ∘ stats <$> a0 :: anns) t0); [|done].
    rewrite <- Ht0. apply (list_elem_of_fmap_2 (url_last_check ∘ stats)). left.
Qed.

Lemma get_mirror_statuses_last_check_witness :
  ∃ st,
    get_mirror_statuses Example.healthy Example.noon DEFAULT_CUTOFF None = Ok st ∧
    st_last_check st = Some (hours 35) ∧
    ∃ t a, st_last_check st = Some t ∧ a ∈ st_urls st ∧
           url_last_check (stats a) = Some t.
Proof.
  eexists.
  edestruct (get_mirror_statuses_last_check Example.healthy Example.noon
               DEFAULT_CUTOFF None) as (t & a & Ht & Ha & Hat & _);
    [vm_compute; reflexivity | done |].
  split; [vm_compute; reflexivity|]. split; [reflexivity|]. by exists t, a.
Defined.

(** X8. For every URL of the result, duration_avg is null exactly when
    none of its checks in the window was timed, and otherwise it is the
    sum of the durations divided by success_count. On sqlite
    duration_stddev is 0.0; elsewhere it is the engine's deviation, null
    exactly when no check was timed. *)
Theorem get_mirror_statuses_durations db now cutoff mirror_id st a :
  get_mirror_statuses db now cutoff mirror_id = Ok st →
  a ∈ st_urls st →
  let logs := logs_of db (now - cutoff) (stats_url (stats a)) in
  (duration_avg (stats a) = None ↔ success_count (stats a) = 0) ∧
  (∀ avg, duration_avg (stats a) = Some avg →
     (avg * float (success_count (stats a)) = Qcsum (omap duration logs))%Qc) ∧
  (vendor db = sqlite → duration_stddev (stats a) = Some (Some 0%Qc)) ∧
  (vendor db ≠ sqlite →
     ∃ sd, duration_stddev (stats a) = Some sd ∧
           (sd = None ↔ success_count (stats a) = 0)).
Proof.
  intros Hst Ha logs.
  destruct (get_mirror_statuses_url _ _ _ _ _ _ Hst Ha)
    as (_ & _ & _ & Hsc & Havg & _).
  destruct (get_mirror_statuses_attrs _ _ _ _ _ _ Hst Ha) as (_ & _ & Hsd).
  fold logs in Hsc, Havg, Hsd.
  unfold Count in Hsc. unfold Avg in Havg. unfold StdDev in Hsd.
  rewrite (non_null_fmap duration) in Hsc, Havg, Hsd.
  rewrite Hsc, Havg, Hsd. clear Hsc Havg Hsd.
  destruct (omap duration logs) as [|x xs]; simpl; split_and!.
  - done.
  - done.
  - intros Hv. by rewrite decide_True.
  - intros Hv. rewrite decide_False by done. by eexists.
  - split; [done | lia].
  - intros avg [= <-]. apply Qcdiv_mul_cancel, Qcpos_nonzero.
    unfold float. apply (proj1 (Z2Qc_inj_lt 0 _)). lia.
  - intros Hv. by rewrite decide_True.
  - intros Hv. rewrite decide_False by done. eexists. split; [done|].
    split; [done | lia].
Qed.

Lemma get_mirror_statuses_durations_witness :
  ∃ st a,
    get_mirror_statuses Example.healthy Example.noon DEFAULT_CUTOFF None = Ok st ∧
    a ∈ st_urls st ∧ stats_url (stats a) = Example.url2 ∧
    duration_avg (stats a) = None ∧ success_count (stats a) = 0.
Proof.
  eexists _, _.
  edestruct (get_mirror_statuses_durations Example.healthy Example.noon
               DEFAULT_CUTOFF None) as (Hnone & _);
    [vm_compute; reflexivity | right; left |].
  split; [vm_compute; reflexivity|]. split; [right; left|].
  split; [reflexivity|]. split; [|reflexivity]. by apply Hnone.
Defined.

(** ** get_mirror_statuses off PostgreSQL *)

Lemma for_each_raises {A B} (f : A → result B) xs e x :
  (∀ x, x ∈ xs → (∃ y, f x = Ok y) ∨ f x = Raise e) →
  x ∈ xs → f x = Raise e → for_each f xs = Raise e.
Proof.
  induction xs as [|x' xs IH]; intros Hall Hx Hfx; [by apply elem_of_nil in Hx|].
  simpl. destruct (Hall x' ltac:(left)) as [[y Hy]|Hr]; [|by rewrite Hr].
  rewrite Hy. simpl. apply elem_of_cons in Hx as [->|Hx]; [congruence|].
  rewrite IH; [done| |done..]. intros x'' Hx''. apply Hall. by right.
Qed.

Lemma Forall2_elem_l {A B} (R : A → B → Prop) l k x :
  Forall2 R l k → x ∈ l → ∃ y, y ∈ k ∧ R x y.
Proof.
  induction 1 as [|x' y l k HR _ IH]; intros Hx; [by apply elem_of_nil in Hx|].
  apply elem_of_cons in Hx as [->|Hx].
  - exists y. split; [left | done].
  - destruct (IH Hx) as (y' & ? & ?). exists y'. split; [by right | done].
Qed.

(** Where a delay is a plain number, a URL object gets through the last
    loop exactly when it has no delay. *)
Lemma annotate_object_plain_number db cutoff_time mirror_id o u valid :
  vendor db ≠ postgresql →
  set_attributes
    (dict ((λ item, (item_id item, item)) <$>
           url_data_query db cutoff_time valid)) u = Ok o →
  let sample :=
    filter (λ l, url_id l = id_ u ∧ is_success l = true ∧
                 cutoff_time ≤ check_time l ∧ last_sync l ≠ None ∧
                 (mirror_id = None ∨
                  mirror_pk ∘ mirror <$> log_url db l = mirror_id))
      (mirrorlog db) in
  (sample = [] →
   ∃ a, annotate_object db (url_delays db cutoff_time mirror_id) o = Ok a) ∧
  (sample ≠ [] →
   annotate_object db (url_delays db cutoff_time mirror_id) o =
     Raise AttributeError).
Proof.
  intros Hv (Hurl & Hne & Hcc & _)%set_attributes_Ok sample.
  assert (check_count o ≠ 0) as Hc.
  { rewrite Hcc. destruct (logs_of db cutoff_time u); [done | simpl; lia]. }
  pose proof (url_delays_None db cutoff_time mirror_id (id_ u)) as Hnone.
  fold sample in Hnone.
  assert (annotate_object db (url_delays db cutoff_time mirror_id) o =
          annotate_url (if decide (vendor db = sqlite) then fake_stddev o else o)
            (get_or_None (url_delays db cutoff_time mirror_id) (id_ u))) as ->.
  { unfold annotate_object. by destruct (decide (vendor db = sqlite)); simpl;
      rewrite Hurl. }
  unfold annotate_url.
  rewrite bool_decide_false by (by destruct (decide (vendor db = sqlite))).
  destruct (get_or_None _ _) as [[d|x]|] eqn:Hd.
  - by apply url_delays_vendor in Hd.
  - split; [|done]. intros Hnil. apply Hnone in Hnil. congruence.
  - split; [by eexists|]. intros Hs. exfalso. apply Hs. by apply Hnone.
Qed.

(** X21. On a sqlite store with unique URL ids: [get_mirror_statuses]
    raises an AttributeError as soon as one of the URLs it selects has a
    delay sample (its delay is a plain number, without [days]), and
    returns when none has. *)
Theorem get_mirror_statuses_plain_number db now cutoff mirror_id :
  vendor db = sqlite →
  NoDup (id_ <$> mirrorurl db) →
  let selected (u : MirrorUrl) :=
    u ∈ mirrorurl db ∧ active (mirror u) = true ∧ public (mirror u) = true ∧
    logs_of db (now - cutoff) u ≠ [] ∧
    (truthy mirror_id = true → Some (mirror_pk (mirror u)) = mirror_id) in
  let sample (u : MirrorUrl) :=
    filter (λ l, url_id l = id_ u ∧ is_success l = true ∧
                 now - cutoff ≤ check_time l ∧ last_sync l ≠ None ∧
                 (mirror_id = None ∨
                  mirror_pk ∘ mirror <$> log_url db l = mirror_id))
      (mirrorlog db) in
  ((∃ u, selected u ∧ sample u ≠ []) →
   get_mirror_statuses db now cutoff mirror_id = Raise AttributeError) ∧
  ((∀ u, selected u → sample u = []) →
   ∃ st, get_mirror_statuses db now cutoff mirror_id = Ok st).
Proof.
  intros Hsqlite Hnd selected sample.
  assert (vendor db ≠ postgresql) as Hv by (by rewrite Hsqlite).
  unfold get_mirror_statuses.
  destruct (if_urls_returns db (now - cutoff) mirror_id Hnd)
    as [[[[objs lc] nc] fr] Hif].
  rewrite Hif. simpl.
  apply if_urls_Ok in Hif as (Hobjs & _).
  set (valid := valid_urls db (now - cutoff) mirror_id) in *.
  assert (∀ u, u ∈ order_by (by_mirror_and_url db)
                     (filter (id_in valid) (mirrorurl db)) ↔ selected u)
    as Hsel.
  { intros u. rewrite elem_of_order_by, list_elem_of_filter.
    unfold selected. rewrite <- elem_of_valid_urls. fold valid. split.
    - intros [(v & Hid & Hvv)%list_elem_of_fmap Hu].
      pose proof Hvv as (Hvu & _)%elem_of_valid_urls.
      by rewrite (NoDup_fmap_elem_inj id_ (mirrorurl db) u v Hnd Hu Hvu Hid).
    - intros Hu. split; [by apply list_elem_of_fmap_2|].
      by apply elem_of_valid_urls in Hu as (? & _). }
  assert (∀ o, o ∈ objs →
    (∃ a, annotate_object db (url_delays db (now - cutoff) mirror_id) o = Ok a) ∨
    annotate_object db (url_delays db (now - cutoff) mirror_id) o =
      Raise AttributeError) as Heach.
  { intros o Ho.
    destruct (Forall2_elem_r _ _ _ _ Hobjs Ho) as (u & _ & Huo).
    destruct (annotate_object_plain_number db (now - cutoff) mirror_id
                o u valid Hv Huo) as [Hok Hraise].
    destruct (decide (sample u = [])); [left; by apply Hok | right; by apply Hraise]. }
  split.
  - intros (u & Hu%Hsel & Hs).
    destruct (Forall2_elem_l _ _ _ _ Hobjs Hu) as (o & Ho & Huo).
    rewrite (for_each_raises _ objs AttributeError o Heach Ho); [done|].
    by apply (annotate_object_plain_number db (now - cutoff) mirror_id
                o u valid Hv Huo).
  - intros Hnone.
    destruct (for_each_all_Ok
      (annotate_object db (url_delays db (now - cutoff) mirror_id)) objs)
      as [anns ->]; [|by eexists].
    intros o Ho.
    destruct (Forall2_elem_r _ _ _ _ Hobjs Ho) as (u & Hu%Hsel & Huo).
    apply (annotate_object_plain_number db (now - cutoff) mirror_id
             o u valid Hv Huo).
    by apply Hnone.
Qed.

Lemma get_mirror_statuses_plain_number_witness :
  get_mirror_statuses Example.local Example.noon DEFAULT_CUTOFF None
    = Raise AttributeError ∧
  ∃ st, get_mirror_statuses Example.local_failing Example.noon
          DEFAULT_CUTOFF None = Ok st.
Proof.
  split.
  - apply (get_mirror_statuses_plain_number Example.local Example.noon
             DEFAULT_CUTOFF None); [done | by apply (bool_decide_unpack _) |].
    exists Example.url1. split; [|by vm_compute].
    split_and!; try done; try (by vm_compute). left.
  - apply (get_mirror_statuses_plain_number Example.local_failing Example.noon
             DEFAULT_CUTOFF None); [done | by apply (bool_decide_unpack _) |].
    intros u (Hu & _).
    repeat (apply elem_of_cons in Hu as [->|Hu]; [by vm_compute|]).
    by apply elem_of_nil in Hu.
Defined.

(** ** A URL with a delay and without a timed check *)

Lemma Avg_untimed (ls : list MirrorLog) :
  (∀ l, l ∈ ls → duration l = None) → Avg (duration <$> ls) = None.
Proof.
  intros Hall. unfold Avg. rewrite non_null_fmap.
  replace (omap duration ls) with (@nil Qc); [done|].
  induction ls as [|l ls IH]; [done|]. csimpl.
  rewrite (Hall l) by left. apply IH. intros l' Hl'. apply Hall. by right.
Qed.

(** X22. On PostgreSQL, when a URL that [get_mirror_statuses] selects has
    a delay sample while none of its logs in the window has a duration,
    the call raises a TypeError: its completion_pct is 0, and the sum of
    the score adds a delay to a null average. So the 0.005 divisor of
    [annotate_url] never shows on a URL that is returned. *)
Theorem get_mirror_statuses_never_timed db now cutoff mirror_id u :
  vendor db = postgresql →
  u ∈ mirrorurl db →
  active (mirror u) = true → public (mirror u) = true →
  (truthy mirror_id = true → Some (mirror_pk (mirror u)) = mirror_id) →
  (∀ l, l ∈ mirrorlog db → url_id l = id_ u → now - cutoff ≤ check_time l →
        duration l = None) →
  filter (λ l, url_id l = id_ u ∧ is_success l = true ∧
               now - cutoff ≤ check_time l ∧ last_sync l ≠ None ∧
               (mirror_id = None ∨
                mirror_pk ∘ mirror <$> log_url db l = mirror_id))
    (mirrorlog db) ≠ [] →
  get_mirror_statuses db now cutoff mirror_id = Raise TypeError.
Proof.
  intros Hpg Hu Hact Hpub Hmirror Huntimed Hsample.
  assert (∀ l, l ∈ logs_of db (now - cutoff) u → duration l = None) as Hlogs.
  { intros l [[Hid Hw] Hl]%list_elem_of_filter. by apply Huntimed. }
  assert (logs_of db (now - cutoff) u ≠ []) as Hne.
  { destruct (filter _ (mirrorlog db)) as [|l ls] eqn:Hf in Hsample; [done|].
    assert (l ∈ l :: ls) as Hl by left. rewrite <- Hf in Hl.
    apply list_elem_of_filter in Hl as [(Hid & _ & Hw & _) Hl].
    intros Hnil.
    assert (l ∈ logs_of db (now - cutoff) u) as Hin
      by (by apply list_elem_of_filter).
    rewrite Hnil in Hin. by apply elem_of_nil in Hin. }
  destruct (get_mirror_statuses_Ok_or db now cutoff mirror_id)
    as [[st Hst]|[Hty|(_ & Hv & _)]]; [| done | done].
  exfalso.
  assert (u ∈ stats_url ∘ stats <$> st_urls st) as Hin.
  { rewrite (get_mirror_statuses_queryset _ _ _ _ _ Hst).
    apply elem_of_order_by, list_elem_of_filter. split; [|done].
    apply list_elem_of_fmap_2, elem_of_valid_urls. by split_and!. }
  apply list_elem_of_fmap in Hin as (a & Hau & Ha). simpl in Hau.
  destruct (get_mirror_statuses_url _ _ _ _ _ _ Hst Ha)
    as (_ & _ & _ & _ & Havg & Hann).
  rewrite <- Hau in Havg, Hann.
  rewrite Avg_untimed in Havg by done.
  rewrite <- url_delays_None in Hsample.
  apply annotate_url_Ok in Hann as (_ & _ & _ & _ & Hscore).
  destruct (get_or_None _ _) as [[d|x]|]; [| done | done].
  destruct Hscore as (avg & sd & Havg' & _). congruence.
Qed.

Lemma get_mirror_statuses_never_timed_witness :
  get_mirror_statuses Example.unmeasured Example.noon DEFAULT_CUTOFF None
  = Raise TypeError.
Proof.
  apply (get_mirror_statuses_never_timed Example.unmeasured Example.noon
           DEFAULT_CUTOFF None Example.url1); try done.
  - left.
  - intros l Hl _ _.
    repeat (apply elem_of_cons in Hl as [->|Hl]; [done|]).
    by apply elem_of_nil in Hl.
Defined.

(** ** The dictionary of url_delays *)

Lemma url_delays_entry db cutoff_time mirror_id uid :
  url_delays db cutoff_time mirror_id !! uid =
  match filter (λ l, url_id l = uid)
          (filter (delay_row db cutoff_time mirror_id) (mirrorlog db)) with
  | [] => None
  | rs => Some (Avg_delay db rs)
  end.
Proof.
  unfold url_delays.
  set (rows := filter (delay_row db cutoff_time mirror_id) (mirrorlog db)).
  set (fetchall := _ <$> group_by url_id rows).
  assert (fetchall.*1 = (group_by url_id rows).*1) as Hkeys.
  { unfold fetchall. by rewrite <- list_fmap_compose. }
  destruct (filter (λ l, url_id l = uid) rows) as [|l ls] eqn:Hf.
  - apply dict_lookup_None. rewrite Hkeys.
    intros ([k rs] & Hk & Hin)%list_elem_of_fmap. simpl in Hk. subst k.
    apply elem_of_group_by in Hin as [-> Hne]. done.
  - apply dict_lookup_NoDup.
    + rewrite Hkeys. apply group_by_NoDup.
    + unfold fetchall. apply list_elem_of_fmap.
      exists (uid, l :: ls). split; [done|].
      apply elem_of_group_by. by rewrite Hf.
Qed.

Lemma Zsum_bounds (xs : list Z) lo hi :
  (∀ x, x ∈ xs → lo ≤ x ≤ hi) →
  Z.of_nat (length xs) * lo ≤ Zsum xs ≤ Z.of_nat (length xs) * hi.
Proof.
  induction xs as [|x xs IH]; intros Hall; [simpl; lia|].
  specialize (Hall x ltac:(left)) as Hx.
  destruct IH as [IHlo IHhi]; [intros y Hy; apply Hall; by right|].
  unfold Zsum in *. simpl length. simpl foldr. lia.
Qed.

(** X9. The dictionary of [url_delays] has a key exactly for the URLs
    with a log that is successful, in the window and has a last sync (of
    the mirror, when one is given), and no value is null. A value is a
    timedelta on PostgreSQL and only there, a plain number on the other
    engines and only there. A timedelta lies within a microsecond of the
    range of the differences check_time - last_sync it averages, and in
    their range when each of them is shorter than a day. *)
Theorem url_delays_entries db cutoff_time mirror_id uid :
  let sample :=
    filter (λ l, url_id l = uid ∧ is_success l = true ∧
                 cutoff_time ≤ check_time l ∧ last_sync l ≠ None ∧
                 (mirror_id = None ∨
                  mirror_pk ∘ mirror <$> log_url db l = mirror_id))
      (mirrorlog db) in
  let entry := url_delays db cutoff_time mirror_id !! uid in
  (entry = None ↔ sample = []) ∧
  entry ≠ Some None ∧
  (∀ x, entry = Some (Some (Number x)) → vendor db ≠ postgresql) ∧
  ∀ d, entry = Some (Some (Timedelta d)) →
    vendor db = postgresql ∧
    ∀ lo hi,
      (∀ l s, l ∈ sample → last_sync l = Some s →
              lo ≤ check_time l - s ≤ hi) →
      lo - 1 ≤ d ≤ hi + 1 ∧
      ((∀ l s, l ∈ sample → last_sync l = Some s →
               Z.abs (check_time l - s) < 86400000000) →
       lo ≤ d ≤ hi).
Proof.
  intros sample entry. unfold entry.
  rewrite url_delays_entry, list_filter_filter, delay_sample_filter.
  fold sample.
  pose proof (delay_sample_synced db cutoff_time mirror_id uid) as Hall.
  fold sample in Hall.
  pose proof (Avg_delay_cases db sample Hall) as Hc.
  destruct sample as [|l0 ls]; [done|].
  set (sample := l0 :: ls) in *. rename Hc into Hc'.
  split_and!.
  - done.
  - intros [= Hn]. rewrite Hn in Hc'.
    case_decide; by destruct Hc' as (? & ? & ?).
  - intros x [= Hx] Hpg. rewrite decide_True in Hc' by done.
    destruct Hc' as (d & Hd & _). congruence.
  - intros d [= Hd].
    case_decide as Hv; [|destruct Hc' as (x & Hx & _); congruence].
    split; [done|]. destruct Hc' as (d' & Hd' & Havg).
    assert (d' = d) as -> by congruence.
    intros lo hi Hb.
    apply Avg_interval_Some in Havg. rewrite non_null_fmap in Havg.
    destruct Havg as (Hn & Hnear & Hday).
    destruct (Zsum_bounds (omap sync_delay sample) lo hi) as [Hlo Hhi].
    { intros y Hy.
      apply list_elem_of_omap in Hy as (l' & Hl' & Hy). unfold sync_delay in Hy.
      destruct (last_sync l') as [s|] eqn:Hsync; [|done].
      injection Hy as <-. by apply Hb. }
    set (n := Z.of_nat (length (omap sync_delay sample))) in *.
    set (sum := Zsum (omap sync_delay sample)) in *.
    split; [nia|].
    intros Hsmall.
    assert (2 * Z.abs (n * d - sum) ≤ n) as Hnearest.
    { apply Hday. intros y Hy.
      apply list_elem_of_omap in Hy as (l' & Hl' & Hy). unfold sync_delay in Hy.
      destruct (last_sync l') as [s|] eqn:Hsync; [|done].
      injection Hy as <-. by apply Hsmall. }
    nia.
Qed.

Lemma url_delays_entries_witness :
  ∃ d,
    url_delays Example.healthy (Example.noon - DEFAULT_CUTOFF) None !! 1
      = Some (Some (Timedelta d)) ∧
    hours 2 ≤ d ≤ hours 3.
Proof.
  eexists. split; [vm_compute; reflexivity|].
  edestruct (url_delays_entries Example.healthy (Example.noon - DEFAULT_CUTOFF)
               None 1) as (_ & _ & _ & Htd).
  edestruct Htd as (_ & Hb); [vm_compute; reflexivity|].
  apply (Hb (hours 2) (hours 3)).
  - intros l s Hl Hsync. vm_compute in Hl.
    repeat (apply elem_of_cons in Hl as [->|Hl];
            [injection Hsync as <-; by vm_compute|]).
    by apply elem_of_nil in Hl.
  - intros l s Hl Hsync. vm_compute in Hl.
    repeat (apply elem_of_cons in Hl as [->|Hl];
            [injection Hsync as <-; by vm_compute|]).
    by apply elem_of_nil in Hl.
Defined.

(** ** The rows of get_mirror_errors *)

Lemma elem_of_joined_logs db l u :
  (l, u) ∈ joined_logs db ↔ l ∈ mirrorlog db ∧ log_url db l = Some u.
Proof.
  unfold joined_logs. rewrite list_elem_of_omap. split.
  - intros (l' & Hl' & Hj). destruct (log_url db l') as [u'|] eqn:Hu; [|done].
    simpl in Hj. by injection Hj as -> ->.
  - intros [Hl Hu]. exists l. by rewrite Hu.
Qed.

Lemma error_rows_elem db cutoff_time row :
  row ∈ error_rows db cutoff_time ↔
  ∃ rs, rs ≠ [] ∧ row = error_row (values row, rs) ∧
        rs = filter (λ r, error_key r = values row ∧ failed_row cutoff_time r)
               (joined_logs db).
Proof.
  unfold error_rows. rewrite elem_of_order_by, list_elem_of_fmap. split.
  - intros ([k rs] & -> & [Hrs Hne]%elem_of_group_by).
    rewrite list_filter_filter in Hrs. exists rs. by simpl.
  - intros (rs & Hne & Hrow & Hrs). exists (values row, rs). split; [done|].
    apply elem_of_group_by. by rewrite list_filter_filter.
Qed.

(** X10. Every row of [get_mirror_errors] stands for at least one log
    that failed, lies in the window and belongs to a URL of an active,
    public mirror, and carries that log's five columns: the url, the
    country, the protocol name and the mirror tier of the log's URL, and
    the log's error. Its last_occurred is not before the cutoff, its
    country wraps its url__country, and no two rows have the same five
    columns. *)
Theorem get_mirror_errors_sound db now cutoff mirror_id rows :
  get_mirror_errors db now cutoff mirror_id = Ok rows →
  NoDup (values ∘ fst <$> rows) ∧
  ∀ row c, (row, c) ∈ rows →
    c = mkCountry (url__country (values row)) ∧
    0 ≤ error_count row ∧
    (∃ t, last_occurred row = Some t ∧ now - cutoff ≤ t) ∧
    ∃ l u,
      l ∈ mirrorlog db ∧ log_url db l = Some u ∧
      is_success l = false ∧ now - cutoff ≤ check_time l ∧
      active (mirror u) = true ∧ public (mirror u) = true ∧
      url__url (values row) = url u ∧
      url__country (values row) = country u ∧
      url__protocol__protocol (values row) = protocol_name (protocol u) ∧
      url__mirror__tier (values row) = tier (mirror u) ∧
      row_error (values row) = error l.
Proof.
  unfold get_mirror_errors. destruct (truthy mirror_id); [done|].
  intros [= <-]. set (ct := now - cutoff). split.
  - rewrite <- list_fmap_compose.
    change (values ∘ fst ∘ _) with values.
    unfold error_rows. rewrite order_by_perm, <- list_fmap_compose.
    apply (group_by_NoDup error_key).
  - intros row c (row' & [= <- ->] & Hrow)%list_elem_of_fmap.
    apply error_rows_elem in Hrow as (rs & Hne & Hrow & Hrs).
    split; [done|]. split.
    { rewrite Hrow. unfold error_row, Count. simpl. lia. }
    assert (∀ r, r ∈ rs → error_key r = values row ∧ failed_row ct r ∧
                          r ∈ joined_logs db) as Hall.
    { intros r Hr. rewrite Hrs in Hr. apply list_elem_of_filter in Hr. tauto. }
    split.
    + destruct (last_occurred row) as [t|] eqn:Ht.
      * exists t. split; [done|]. rewrite Hrow in Ht. unfold error_row in Ht.
        simpl in Ht. apply Max_Some in Ht as [Hin _].
        rewrite (non_null_Some (check_time ∘ fst)) in Hin.
        apply list_elem_of_fmap in Hin as (r & -> & Hr).
        destruct (Hall r Hr) as (_ & (_ & Hw & _) & _). done.
      * rewrite Hrow in Ht. unfold error_row in Ht. simpl in Ht.
        apply Max_None in Ht.
        rewrite (non_null_Some (check_time ∘ fst)) in Ht. by destruct rs.
    + destruct rs as [|[l u] rs']; [done|].
      destruct (Hall (l, u) ltac:(left)) as (Hk & (Hs & Hw & Ha & Hp) & Hj).
      apply elem_of_joined_logs in Hj as [Hl Hu].
      exists l, u. rewrite <- Hk. split_and!; done.
Qed.

Lemma get_mirror_errors_sound_witness :
  ∃ rows row c l u,
    get_mirror_errors Example.flaky Example.noon DEFAULT_CUTOFF None = Ok rows ∧
    NoDup (values ∘ fst <$> rows) ∧
    rows !! 0%nat = Some (row, c) ∧
    l ∈ mirrorlog Example.flaky ∧ log_url Example.flaky l = Some u ∧
    url__url (values row) = url u ∧
    url__country (values row) = country u ∧
    url__country (values row) = EmptyString ∧
    row_error (values row) = error l.
Proof.
  eexists _, _, _.
  edestruct (get_mirror_errors_sound Example.flaky Example.noon DEFAULT_CUTOFF None)
    as [Hnd Hrows]; [vm_compute; reflexivity|].
  edestruct Hrows as (_ & _ & _ & l & u & Hl & Hu & _ & _ & _ & _ &
                      Hurl & Hcountry & _ & _ & Herr); [left|].
  exists l, u.
  split; [vm_compute; reflexivity|].
  split; [exact Hnd|].
  split; [reflexivity|].
  split; [exact Hl|]. split; [exact Hu|].
  split; [exact Hurl|]. split; [exact Hcountry|].
  split; [reflexivity | exact Herr].
Defined.

Lemma Zsum_app xs ys : Zsum (xs ++ ys) = Zsum xs + Zsum ys.
Proof.
  unfold Zsum. induction xs as [|x xs IH]; simpl; [done|]. rewrite IH. lia.
Qed.

Lemma Zsum_perm xs ys : xs ≡ₚ ys → Zsum xs = Zsum ys.
Proof.
  unfold Zsum. induction 1; simpl; lia.
Qed.

Section group_by_partition.
Context {K R : Type} `{EqDecision K} (key : R → K).

Lemma group_insert_concat k r (gs : list (K * list R)) :
  concat (group_insert k r gs).*2 ≡ₚ r :: concat gs.*2.
Proof.
  induction gs as [|[k' rs] gs IH]; csimpl; [done|].
  destruct (decide (k' = k)); csimpl.
  - rewrite <- app_assoc. simpl.
    by rewrite <- Permutation_middle.
  - rewrite IH. by rewrite <- Permutation_middle.
Qed.

(** Grouping loses no row and repeats none. *)
Lemma group_by_concat rows : concat (group_by key rows).*2 ≡ₚ rows.
Proof.
  unfold group_by.
  assert (∀ gs, concat (foldl (λ gs r, group_insert (key r) r gs) gs rows).*2
                ≡ₚ concat gs.*2 ++ rows) as Hgen.
  { induction rows as [|r rows IH]; intros gs; simpl.
    - by rewrite app_nil_r.
    - rewrite IH, group_insert_concat. by rewrite <- Permutation_middle. }
  by rewrite Hgen.
Qed.
End group_by_partition.

Lemma Zsum_lengths {A} (P : A → Prop) `{∀ x, Decision (P x)}
    (ls : list (list A)) :
  Zsum ((λ l, Z.of_nat (length (filter P l))) <$> ls) =
  Z.of_nat (length (filter P (concat ls))).
Proof.
  induction ls as [|l ls IH]; [done|]. csimpl.
  rewrite filter_app, length_app. unfold Zsum in *. simpl. rewrite IH. lia.
Qed.

(** The failed logs with an error message, counted on the log table or on
    the join. *)
Lemma failures_with_message db cutoff_time :
  fst <$> filter (λ r, error r.1 ≠ None)
            (filter (failed_row cutoff_time) (joined_logs db)) =
  filter (λ l, is_success l = false ∧ cutoff_time ≤ check_time l ∧
               error l ≠ None ∧
               active ∘ mirror <$> log_url db l = Some true ∧
               public ∘ mirror <$> log_url db l = Some true)
    (mirrorlog db).
Proof.
  rewrite list_filter_filter. unfold joined_logs.
  set (join := λ l, u ← log_url db l; Some (l, u)).
  induction (mirrorlog db) as [|l ls IH]; [done|].
  change (omap join (l :: ls)) with
    (match join l with Some r => r :: omap join ls | None => omap join ls end).
  rewrite (filter_cons _ l), <- IH. clear IH. subst join. simpl.
  unfold failed_row.
  destruct (log_url db l) as [u|]; simpl.
  - rewrite filter_cons. simpl.
    destruct (decide (error l ≠ None ∧ _)) as [Hp|Hp];
      case_decide as Hq; try done; exfalso.
    + apply Hq. destruct Hp as (? & ? & ? & -> & ->). done.
    + apply Hp. destruct Hq as (? & ? & ? & [= ?] & [= ?]). done.
  - case_decide as Hq; [|done]. by destruct Hq as (_ & _ & _ & ? & _).
Qed.

(** X11. The error_counts of the rows of [get_mirror_errors] add up to
    the number of failed logs of the window that have an error message and
    belong to a URL of an active, public mirror: the aggregation loses no
    failure and counts none twice. *)
Theorem get_mirror_errors_total db now cutoff mirror_id rows :
  get_mirror_errors db now cutoff mirror_id = Ok rows →
  Zsum (error_count ∘ fst <$> rows) =
  Z.of_nat (length
    (filter (λ l, is_success l = false ∧ now - cutoff ≤ check_time l ∧
                  error l ≠ None ∧
                  active ∘ mirror <$> log_url db l = Some true ∧
                  public ∘ mirror <$> log_url db l = Some true)
       (mirrorlog db))).
Proof.
  unfold get_mirror_errors. destruct (truthy mirror_id); [done|].
  intros [= <-]. set (ct := now - cutoff).
  rewrite <- list_fmap_compose. change (error_count ∘ fst ∘ _) with error_count.
  unfold error_rows.
  rewrite (Zsum_perm _ _ (fmap_Permutation error_count _ _
             (order_by_perm recent_then_frequent _))).
  rewrite <- list_fmap_compose.
  set (gs := group_by error_key (filter (failed_row ct) (joined_logs db))).
  transitivity (Zsum ((λ rs, Z.of_nat (length (filter (λ r, error r.1 ≠ None) rs)))
                      <$> gs.*2)).
  { rewrite <- list_fmap_compose. f_equal. apply list_fmap_ext.
    intros i [k rs] _. simpl. unfold error_row. simpl.
    apply (Count_filter (error ∘ fst)). }
  rewrite Zsum_lengths. f_equal.
  rewrite <- failures_with_message, length_fmap.
  apply Permutation_length. apply filter_Permutation.
  apply group_by_concat.
Qed.

Lemma get_mirror_errors_total_witness :
  ∃ rows,
    get_mirror_errors Example.flaky Example.noon DEFAULT_CUTOFF None = Ok rows ∧
    Zsum (error_count ∘ fst <$> rows) = 3.
Proof.
  eexists. split; [vm_compute; reflexivity|].
  rewrite (get_mirror_errors_total Example.flaky Example.noon DEFAULT_CUTOFF None);
    [|vm_compute; reflexivity].
  by vm_compute.
Defined.

(** ** What get_mirror_url_for_download returns and when it raises *)

Lemma Max_last_sync_None (ls : list MirrorLog) :
  Max (last_sync <$> ls) = None ↔ ∀ l, l ∈ ls → last_sync l = None.
Proof.
  rewrite Max_None. split.
  - intros Hnil l Hl. destruct (last_sync l) as [s|] eqn:Hs; [|done].
    exfalso. apply (non_null_cons (last_sync <$> ls) s); [|done].
    rewrite <- Hs. by apply list_elem_of_fmap_2.
  - intros Hall. destruct (non_null _) as [|s ss] eqn:Hnn; [done|].
    assert (s ∈ non_null (last_sync <$> ls)) as Hs by (rewrite Hnn; left).
    apply elem_of_non_null, list_elem_of_fmap in Hs as (l & Hs & Hl).
    by rewrite (Hall l Hl) in Hs.
Qed.

(** The ways through [get_mirror_url_for_download]. *)
Lemma get_mirror_url_for_download_cases db now cutoff :
  let window := filter (λ l, now - cutoff ≤ check_time l) (mirrorlog db) in
  (window ≠ [] ∧ (∀ l, l ∈ window → last_sync l = None) ∧
   get_mirror_url_for_download db now cutoff = Raise TypeError) ∨
  ((window = [] ∨ ∃ l, l ∈ window ∧ last_sync l ≠ None) ∧
   ((∃ l u, l ∈ mirrorlog db ∧ is_success l = true ∧
            log_url db l = Some u ∧ download_url u ∧
            get_mirror_url_for_download db now cutoff = Ok (Some u)) ∨
    get_mirror_url_for_download db now cutoff = Ok (fallback_url db))).
Proof.
  intros window. unfold get_mirror_url_for_download. fold window.
  destruct (Max (Some ∘ check_time <$> window)) as [mx|] eqn:Hmx.
  2: { right. pose proof (proj1 (Max_check_time_None window) Hmx).
       split; [by left | by right]. }
  assert (window ≠ []) as Hne.
  { intros Hnil. rewrite Hnil in Hmx. done. }
  destruct (Max (last_sync <$> window)) as [sx|] eqn:Hsx.
  2: { left. pose proof (proj1 (Max_last_sync_None window) Hsx). done. }
  right. split.
  { right. apply Max_Some in Hsx as [Hin _].
    apply elem_of_non_null, list_elem_of_fmap in Hin as (l & Hs & Hl).
    exists l. split; [done | congruence]. }
  destruct (order_by (by_duration db) _) as [|l ls] eqn:Hord; simpl.
  - by right.
  - left. assert (l ∈ order_by (by_duration db)
        (filter (best_log db (mx - minutes 5) (sx - minutes 20)) (mirrorlog db)))
      as Hl by (rewrite Hord; left).
    apply elem_of_order_by, list_elem_of_filter in Hl as [Hbest Hl].
    destruct Hbest as (Hs & _ & _ & Hu).
    destruct (log_url db l) as [u|] eqn:Hlu; [|done].
    exists l, u. done.
Qed.

(** X12. A URL [get_mirror_url_for_download] returns, by either branch,
    is a row of the URL table that uses the default protocol and belongs
    to a public, active mirror. *)
Theorem get_mirror_url_for_download_candidate db now cutoff u :
  get_mirror_url_for_download db now cutoff = Ok (Some u) →
  u ∈ mirrorurl db ∧ public (mirror u) = true ∧ active (mirror u) = true ∧
  is_default (protocol u) = true.
Proof.
  intros Hres.
  destruct (get_mirror_url_for_download_cases db now cutoff)
    as [(_ & _ & H)|[_ [(l & u' & _ & _ & Hu & Hd & H)|H]]];
    rewrite H in Hres; [done| |].
  - injection Hres as <-. apply log_url_Some in Hu as [Hu _]. done.
  - injection Hres as Hf. pose proof (fallback_url_spec db) as Hspec.
    rewrite Hf in Hspec. destruct Hspec as (Hu & Hd & _). done.
Qed.

Lemma get_mirror_url_for_download_candidate_witness :
  Example.url1 ∈ mirrorurl Example.healthy ∧
  public (mirror Example.url1) = true ∧ active (mirror Example.url1) = true ∧
  is_default (protocol Example.url1) = true.
Proof.
  apply (get_mirror_url_for_download_candidate Example.healthy Example.noon
           DEFAULT_CUTOFF).
  reflexivity.
Defined.

(** X13. [get_mirror_url_for_download] raises exactly when the window
    has a log and no log of the window has a last_sync, and what it
    raises is a TypeError; it never fails to find the URL of the log it
    picked. *)
Theorem get_mirror_url_for_download_raises db now cutoff :
  let window := filter (λ l, now - cutoff ≤ check_time l) (mirrorlog db) in
  ((∃ e, get_mirror_url_for_download db now cutoff = Raise e) ↔
   window ≠ [] ∧ ∀ l, l ∈ window → last_sync l = None) ∧
  (∀ e, get_mirror_url_for_download db now cutoff = Raise e → e = TypeError).
Proof.
  intros window.
  destruct (get_mirror_url_for_download_cases db now cutoff)
    as [(Hne & Hnull & H)|[Hw H]].
  - rewrite H. split; [|by intros e [= <-]]. split; [done|]. by eexists.
  - assert (∃ r, get_mirror_url_for_download db now cutoff = Ok r) as [r Hr].
    { destruct H as [(l & u & _ & _ & _ & _ & H)|H]; by eexists. }
    rewrite Hr. split; [|done]. split; [by intros [e ?]|].
    intros [Hne Hnull]. exfalso.
    destruct Hw as [Hnil|(l & Hl & Hs)]; [done | by apply Hs, Hnull].
Qed.

(** X14. [get_mirror_url_for_download] returns null exactly when it does
    not raise and no URL on the default protocol belongs to a public,
    active mirror. *)
Theorem get_mirror_url_for_download_null db now cutoff :
  get_mirror_url_for_download db now cutoff = Ok None ↔
  (∃ r, get_mirror_url_for_download db now cutoff = Ok r) ∧
  ∀ u, u ∈ mirrorurl db →
       ¬ (public (mirror u) = true ∧ active (mirror u) = true ∧
          is_default (protocol u) = true).
Proof.
  pose proof (fallback_url_spec db) as Hspec.
  destruct (get_mirror_url_for_download_cases db now cutoff)
    as [(_ & _ & H)|[_ [(l & u & _ & _ & Hu & Hd & H)|H]]]; rewrite H.
  - split; [done|]. by intros [[r ?] _].
  - split; [done|]. intros [_ Hnone]. exfalso.
    apply log_url_Some in Hu as [Hu _]. by apply (Hnone u).
  - destruct (fallback_url db) as [u|].
    + split; [done|]. intros [_ Hnone]. exfalso.
      destruct Hspec as (Hu & Hd & _). by apply (Hnone u).
    + split; [|done]. intros _. split; [by eexists | done].
Qed.

(** * public/views.py *)

(** ** userlist *)

Lemma elem_of_filter_users a names users u :
  u ∈ filter_users a names users ↔
  u ∈ users ∧ user_is_active u = a ∧ ∃ g, g ∈ groups u ∧ g ∈ names.
Proof.
  unfold filter_users. rewrite list_elem_of_bind. split.
  - intros (v & Hu & Hv). apply list_elem_of_filter in Hv as [Ha Hv].
    apply list_elem_of_fmap in Hu as (g & -> & Hg).
    apply list_elem_of_filter in Hg as [Hn Hg]. eauto.
  - intros (Hu & Ha & g & Hg & Hn). exists u. split.
    + apply list_elem_of_fmap. exists g. split; [done|].
      by apply list_elem_of_filter.
    + by apply list_elem_of_filter.
Qed.

Lemma userlist_Rendered site t tpl ctx us :
  userlist site t = Rendered tpl (ctx, us) →
  tpl = "public/userlist.html" ∧ USER_LISTS !! t = Some ctx ∧
  ∃ a names,
    us = order_by (by_name site)
           (remove_dups (filter_users a names (auth_user site))) ∧
    ((t = "devs" ∧ a = true ∧ names = ["Developers"]) ∨
     (t = "tus" ∧ a = true ∧ names = ["Trusted Users"]) ∨
     (t = "fellows" ∧ a = false ∧ names = ["Developers"; "Trusted Users"])).
Proof.
  unfold userlist.
  destruct (decide (t = "devs")) as [->|?];
    [|destruct (decide (t = "tus")) as [->|?];
      [|destruct (decide (t = "fellows")) as [->|?]; [|done]]].
  - intros [= <- <- <-]. split_and!; [done..|]. eexists _, _. split; [done|].
    by left.
  - intros [= <- <- <-]. split_and!; [done..|]. eexists _, _. split; [done|].
    right; by left.
  - intros [= <- <- <-]. split_and!; [done..|]. eexists _, _. split; [done|].
    right; by right.
Qed.

(** X16. [userlist] answers Http404 exactly for a user_type other than
    'devs', 'tus' and 'fellows'; for these three it renders
    'public/userlist.html' with the titles USER_LISTS has for the type, and
    it never fails on the USER_LISTS lookup. *)
Theorem userlist_dispatch site t :
  (userlist site t = Http404 ↔ t ≠ "devs" ∧ t ≠ "tus" ∧ t ≠ "fellows") ∧
  userlist site t ≠ KeyError ∧
  (t = "devs" ∨ t = "tus" ∨ t = "fellows" →
   ∃ ctx us, userlist site t = Rendered "public/userlist.html" (ctx, us) ∧
             USER_LISTS !! t = Some ctx).
Proof.
  unfold userlist.
  destruct (decide (t = "devs")) as [->|Hd];
    [|destruct (decide (t = "tus")) as [->|Ht];
      [|destruct (decide (t = "fellows")) as [->|Hf]]].
  - split_and!; [split; [done | by intros (? & _)] | done |].
    intros _. by eexists _, _.
  - split_and!; [split; [done | by intros (_ & ? & _)] | done |].
    intros _. by eexists _, _.
  - split_and!; [split; [done | by intros (_ & _ & ?)] | done |].
    intros _. by eexists _, _.
  - split_and!; [done | done |]. by intros [?|[?|?]].
Qed.

(** X17. The users [userlist] lists are, each once: under 'devs' the
    active members of Developers, under 'tus' the active members of
    Trusted Users, under 'fellows' the inactive members of either group. So
    nobody is listed under 'fellows' and also under 'devs' or 'tus'. *)
Theorem userlist_users site :
  let listed t u :=
    ∃ tpl ctx us, userlist site t = Rendered tpl (ctx, us) ∧ u ∈ us in
  (∀ u, listed "devs" u ↔
        u ∈ auth_user site ∧ user_is_active u = true ∧
        "Developers" ∈ groups u) ∧
  (∀ u, listed "tus" u ↔
        u ∈ auth_user site ∧ user_is_active u = true ∧
        "Trusted Users" ∈ groups u) ∧
  (∀ u, listed "fellows" u ↔
        u ∈ auth_user site ∧ user_is_active u = false ∧
        ("Developers" ∈ groups u ∨ "Trusted Users" ∈ groups u)) ∧
  (∀ u, listed "fellows" u → ¬ listed "devs" u ∧ ¬ listed "tus" u) ∧
  (∀ t tpl ctx us, userlist site t = Rendered tpl (ctx, us) → NoDup us).
Proof.
  intros listed.
  assert (∀ a names u,
    u ∈ order_by (by_name site)
          (remove_dups (filter_users a names (auth_user site))) ↔
    u ∈ auth_user site ∧ user_is_active u = a ∧
    ∃ g, g ∈ groups u ∧ g ∈ names) as Hmem.
  { intros a names u.
    by rewrite elem_of_order_by, elem_of_remove_dups, elem_of_filter_users. }
  assert (∀ u, listed "devs" u ↔
               u ∈ auth_user site ∧ user_is_active u = true ∧
               "Developers" ∈ groups u) as Hdevs.
  { intros u. unfold listed. split.
    - intros (tpl & ctx & us & [= <- <- <-] & Hu).
      apply Hmem in Hu as (Hu & Ha & g & Hg & ->%list_elem_of_singleton). done.
    - intros (Hu & Ha & Hg). eexists _, _, _. split; [reflexivity|].
      apply Hmem. split_and!; [done..|]. exists "Developers". split; [done|left]. }
  assert (∀ u, listed "tus" u ↔
               u ∈ auth_user site ∧ user_is_active u = true ∧
               "Trusted Users" ∈ groups u) as Htus.
  { intros u. unfold listed. split.
    - intros (tpl & ctx & us & [= <- <- <-] & Hu).
      apply Hmem in Hu as (Hu & Ha & g & Hg & ->%list_elem_of_singleton). done.
    - intros (Hu & Ha & Hg). eexists _, _, _. split; [reflexivity|].
      apply Hmem. split_and!; [done..|].
      exists "Trusted Users". split; [done|left]. }
  assert (∀ u, listed "fellows" u ↔
               u ∈ auth_user site ∧ user_is_active u = false ∧
               ("Developers" ∈ groups u ∨ "Trusted Users" ∈ groups u))
    as Hfellows.
  { intros u. unfold listed. split.
    - intros (tpl & ctx & us & [= <- <- <-] & Hu).
      apply Hmem in Hu as (Hu & Ha & g & Hg & Hn).
      split_and!; [done..|].
      apply elem_of_cons in Hn as [->|Hn]; [auto|].
      apply list_elem_of_singleton in Hn as ->. auto.
    - intros (Hu & Ha & Hg). eexists _, _, _. split; [reflexivity|].
      apply Hmem. split_and!; [done..|].
      destruct Hg as [Hg|Hg]; eexists; (split; [exact Hg|]);
        [left | right; left]. }
  split_and!; [done..| |].
  - intros u (_ & Hf & _)%Hfellows. split.
    + intros (_ & Ha & _)%Hdevs. congruence.
    + intros (_ & Ha & _)%Htus. congruence.
  - intros t tpl ctx us (_ & _ & a & names & -> & _)%userlist_Rendered.
    rewrite order_by_perm. apply NoDup_remove_dups.
Qed.

(** ** keys *)

Section keyed_dict.
Context {K : Type} `{Countable K} {J V : Type} (f : J → K).

Lemma keyed_dict_snoc (kvs : list (J * V)) kv :
  foldl (λ d kv, <[f kv.1 := kv.2]> d) (∅ : gmap K V) (kvs ++ [kv]) =
  <[f kv.1 := kv.2]> (foldl (λ d kv, <[f kv.1 := kv.2]> d) ∅ kvs).
Proof. by rewrite foldl_app. Qed.

Lemma keyed_dict_None (kvs : list (J * V)) k :
  foldl (λ d kv, <[f kv.1 := kv.2]> d) (∅ : gmap K V) kvs !! k = None ↔
  k ∉ f <$> kvs.*1.
Proof.
  induction kvs as [|[j v] kvs IH] using rev_ind.
  - split; [intros _; apply not_elem_of_nil | done].
  - rewrite keyed_dict_snoc, !fmap_app, not_elem_of_app. simpl.
    destruct (decide (f j = k)) as [<-|Hne].
    + rewrite lookup_insert_eq. split; [done|]. intros [_ []]. left.
    + rewrite lookup_insert_ne by done. rewrite IH.
      split; [|by intros []]. intros Hk. split; [done|].
      intros ?%list_elem_of_singleton. congruence.
Qed.

Lemma keyed_dict_NoDup (kvs : list (J * V)) j v :
  NoDup (f <$> kvs.*1) → (j, v) ∈ kvs →
  foldl (λ d kv, <[f kv.1 := kv.2]> d) (∅ : gmap K V) kvs !! f j = Some v.
Proof.
  induction kvs as [|[j' v'] kvs IH] using rev_ind; intros Hnd Hin.
  - by apply elem_of_nil in Hin.
  - rewrite keyed_dict_snoc. simpl.
    rewrite !fmap_app in Hnd. apply NoDup_app in Hnd as (Hnd & Hdis & _).
    apply elem_of_app in Hin as [Hin|Hin].
    + rewrite lookup_insert_ne; [by apply IH|].
      intros Heq. apply (Hdis (f j)); [|rewrite <- Heq; left].
      apply list_elem_of_fmap_2.
      by apply (list_elem_of_fmap_2 fst _ (j, v)).
    + apply list_elem_of_singleton in Hin. injection Hin as -> ->.
      apply lookup_insert_eq.
Qed.
End keyed_dict.

Lemma NoDup_fmap_elem {A B} (f : A → B) (l : list A) :
  NoDup l → (∀ x y, x ∈ l → y ∈ l → f x = f y → x = y) → NoDup (f <$> l).
Proof.
  induction 1 as [|x l Hx Hnd IH]; intros Hinj; [constructor|].
  rewrite fmap_cons. constructor.
  - intros (y & Hf & Hy)%list_elem_of_fmap. apply Hx.
    rewrite (Hinj x y); [done | left | by right | done].
  - apply IH. intros y z Hy Hz. apply Hinj; by right.
Qed.

(** The count the key page looks up for a key id, when no two signers
    counted share their last 16 characters. *)
Lemma sig_counts_lookup utcnow ids sigs k16 :
  let counted := filter (λ sig, in_force utcnow sig ∧ signee sig ∈ ids) sigs in
  (∀ s1 s2, s1 ∈ counted → s2 ∈ counted →
            last16 (signer s1) = last16 (signer s2) → signer s1 = signer s2) →
  default 0 (sig_counts utcnow ids sigs !! k16) =
  Z.of_nat (length (filter (λ sig, last16 (signer sig) = k16) counted)).
Proof.
  intros counted Hinj. unfold sig_counts. fold counted.
  set (rows := _ <$> group_by signer counted).
  assert (rows.*1 = (group_by signer counted).*1) as Hkeys.
  { unfold rows. by rewrite <- list_fmap_compose. }
  assert (∀ s, s ∈ (group_by signer counted).*1 →
               ∃ sig, sig ∈ counted ∧ signer sig = s) as Hsigner.
  { intros s ([s' rs] & -> & [-> Hne]%elem_of_group_by)%list_elem_of_fmap.
    simpl. destruct (filter _ counted) as [|sig rs] eqn:Hf; [done|].
    assert (sig ∈ filter (λ r, signer r = s') counted) as Hsig
      by (rewrite Hf; left).
    apply list_elem_of_filter in Hsig as [? ?]. by exists sig. }
  destruct (filter (λ sig, last16 (signer sig) = k16) counted)
    as [|sig0 rest] eqn:Hf.
  - rewrite (proj2 (keyed_dict_None last16 rows k16)); [done|].
    rewrite Hkeys. intros (s & -> & Hs)%list_elem_of_fmap.
    destruct (Hsigner s Hs) as (sig & Hsig & <-).
    eapply (filter_nil_not_elem_of _ counted sig); [exact Hf | done | done].
  - assert (sig0 ∈ filter (λ sig, last16 (signer sig) = k16) counted) as Hsig0
      by (rewrite Hf; left).
    apply list_elem_of_filter in Hsig0 as [<- Hsig0].
    set (rs := filter (λ r, signer r = signer sig0) counted).
    assert (rs ≠ []) as Hne.
    { intros Hnil. eapply (filter_nil_not_elem_of _ counted sig0);
        [exact Hnil | done | done]. }
    rewrite (keyed_dict_NoDup last16 rows (signer sig0)
               (Count (Some ∘ signer <$> rs))).
    + rewrite <- Hf. simpl. unfold Count.
      rewrite non_null_Some, length_fmap. do 2 f_equal.
      unfold rs. apply filter_ext_elem.
      intros x Hx. split; [by intros -> | by apply Hinj].
    + rewrite Hkeys. apply NoDup_fmap_elem; [apply group_by_NoDup|].
      intros s1 s2 Hs1 Hs2 Heq.
      destruct (Hsigner s1 Hs1) as (sig1 & ? & <-).
      destruct (Hsigner s2 Hs2) as (sig2 & ? & <-). by apply Hinj.
    + unfold rows. apply list_elem_of_fmap. exists (signer sig0, rs).
      split; [done|]. by apply elem_of_group_by.
Qed.

Lemma keys_Rendered site utcnow tpl ctx :
  keys site utcnow = Rendered tpl ctx →
  tpl = "public/keys.html" ∧
  ctx_active_users ctx =
    order_by (by_name site)
      (filter (λ u, user_is_active u = true) (auth_user site)) ∧
  ctx_keys ctx =
    (λ k, (k, default 0
                (sig_counts utcnow (user_key_ids (ctx_active_users ctx))
                   (pgp_signatures site) !! last16 (master_pgp_key k)))) <$>
    filter (λ k, revoked k = None) (master_keys site) ∧
  ctx_signatures ctx =
    list_to_set ((λ sig, (signer sig, signee sig)) <$>
                 filter (in_force utcnow) (pgp_signatures site)) ∧
  ctx_cross_signatures ctx =
    order_by (λ a b, bool_decide (created a ≤ created b))
      (filter (λ sig, (signer sig ∈ user_key_ids (ctx_active_users ctx) ∧
                       signee sig ∈ user_key_ids (ctx_active_users ctx)) ∧
                      in_force utcnow sig) (pgp_signatures site)).
Proof. unfold keys. by intros [= <- <-]. Qed.

(** X18. On the key page the keys shown are the master keys that are not
    revoked, and, when no two counted signers share their last 16
    characters, the signature_count of a key is the number of signatures
    that are valid, not expired, made on the key of an active user and made
    by a signer with the key's last 16 characters. *)
Theorem keys_signature_count site utcnow tpl ctx :
  keys site utcnow = Rendered tpl ctx →
  let ids := user_key_ids (ctx_active_users ctx) in
  let counted :=
    filter (λ sig, in_force utcnow sig ∧ signee sig ∈ ids)
      (pgp_signatures site) in
  (∀ s1 s2, s1 ∈ counted → s2 ∈ counted →
            last16 (signer s1) = last16 (signer s2) → signer s1 = signer s2) →
  fst <$> ctx_keys ctx = filter (λ k, revoked k = None) (master_keys site) ∧
  ∀ k c, (k, c) ∈ ctx_keys ctx →
    c = Z.of_nat (length
          (filter (λ sig, last16 (signer sig) = last16 (master_pgp_key k))
             counted)).
Proof.
  intros (_ & _ & Hkeys & _)%keys_Rendered ids counted Hinj.
  rewrite Hkeys. split.
  - apply fmap_fst_pair.
  - intros k c (k' & [= <- ->] & _)%list_elem_of_fmap.
    by apply sig_counts_lookup.
Qed.

Lemma keys_signature_count_witness :
  ∃ ctx,
    keys Sample.site 45 = Rendered "public/keys.html" ctx ∧
    ctx_keys ctx = [(Sample.master, 2)] ∧
    fst <$> ctx_keys ctx =
      filter (λ k, revoked k = None) (master_keys Sample.site).
Proof.
  eexists. split; [reflexivity|]. split; [by vm_compute|].
  edestruct (keys_signature_count Sample.site 45) as [Hkeys _];
    [reflexivity | | exact Hkeys].
  match goal with
  | |- ∀ s1 s2, s1 ∈ ?c → _ =>
      assert (Forall (λ s, last16 (signer s) = signer s) c) as Hall
        by (apply (bool_decide_unpack _); by vm_compute)
  end.
  rewrite Forall_forall in Hall.
  intros s1 s2 H1 H2. by rewrite (Hall s1 H1), (Hall s2 H2).
Defined.

(** X19. The cross signatures of the key page are exactly the signatures
    that are valid, not expired and have both signer and signee among the
    key ids of the active users; each of them is among the page's
    signatures, and they come in ascending order of creation. *)
Theorem keys_cross_signatures site utcnow tpl ctx :
  keys site utcnow = Rendered tpl ctx →
  let ids := user_key_ids (ctx_active_users ctx) in
  (∀ sig, sig ∈ ctx_cross_signatures ctx ↔
          sig ∈ pgp_signatures site ∧ valid sig = true ∧
          (∀ e, expires sig = Some e → utcnow < e) ∧
          signer sig ∈ ids ∧ signee sig ∈ ids) ∧
  (∀ sig, sig ∈ ctx_cross_signatures ctx →
          (signer sig, signee sig) ∈ ctx_signatures ctx) ∧
  StronglySorted (λ a b, created a ≤ created b) (ctx_cross_signatures ctx).
Proof.
  intros (_ & _ & _ & Hsigs & Hcross)%keys_Rendered ids. fold ids in Hcross.
  assert (∀ sig, in_force utcnow sig ↔
                 valid sig = true ∧ ∀ e, expires sig = Some e → utcnow < e)
    as Hforce.
  { intros sig. unfold in_force. destruct (expires sig) as [e|]; split.
    - intros [He Hv]. split; [done|]. by intros e' [= <-].
    - intros [Hv He]. split; [by apply He | done].
    - intros [_ Hv]. by split.
    - intros [Hv _]. by split. }
  assert (∀ sig, sig ∈ ctx_cross_signatures ctx ↔
            sig ∈ pgp_signatures site ∧ in_force utcnow sig ∧
            signer sig ∈ ids ∧ signee sig ∈ ids) as Hmem.
  { intros sig. rewrite Hcross, elem_of_order_by, list_elem_of_filter. tauto. }
  split_and!.
  - intros sig. rewrite Hmem, Hforce. tauto.
  - intros sig (Hin & Hf & _)%Hmem. rewrite Hsigs.
    apply elem_of_list_to_set, list_elem_of_fmap. exists sig.
    split; [done|]. by apply list_elem_of_filter.
  - rewrite Hcross.
    apply (StronglySorted_elem_impl
             (λ a b, bool_decide (created a ≤ created b) = true)).
    + intros a b _ _ Hab. by apply bool_decide_eq_true in Hab.
    + apply order_by_sorted.
      * intros a b. rewrite !bool_decide_eq_true. lia.
      * intros a b c. rewrite !bool_decide_eq_true. lia.
Qed.

Lemma keys_cross_signatures_witness :
  ∃ ctx,
    keys Sample.site 45 = Rendered "public/keys.html" ctx ∧
    created <$> ctx_cross_signatures ctx = [10; 40] ∧
    StronglySorted (λ a b, created a ≤ created b) (ctx_cross_signatures ctx).
Proof.
  eexists. split; [reflexivity|]. split; [by vm_compute|].
  by apply (keys_cross_signatures Sample.site 45 "public/keys.html").
Defined.

(** X20. The active users of the key page are the active users of the
    site, and a key id is one of theirs exactly when it is the last 16
    characters of the non-empty PGP key of an active user. *)
Theorem keys_user_key_ids site utcnow tpl ctx :
  keys site utcnow = Rendered tpl ctx →
  ctx_active_users ctx ≡ₚ
    filter (λ u, user_is_active u = true) (auth_user site) ∧
  ∀ k, k ∈ user_key_ids (ctx_active_users ctx) ↔
       ∃ u key, u ∈ auth_user site ∧ user_is_active u = true ∧
                user_pgp_key u = Some key ∧ key ≠ EmptyString ∧
                last16 key = k.
Proof.
  intros (_ & Husers & _)%keys_Rendered. rewrite Husers. split.
  - apply order_by_perm.
  - intros k. unfold user_key_ids.
    rewrite elem_of_list_to_set, list_elem_of_fmap. split.
    + intros (key & -> & Hkey). apply list_elem_of_omap in Hkey as (u & Hu & Hk).
      apply elem_of_order_by, list_elem_of_filter in Hu as [Ha Hu].
      simpl in Hk. unfold nonempty in Hk.
      destruct (user_pgp_key u) as [[|c s]|] eqn:Hp; try done.
      injection Hk as <-. by exists u, (String c s).
    + intros (u & key & Hu & Ha & Hp & Hne & <-). exists key. split; [done|].
      apply list_elem_of_omap. exists u. split.
      * apply elem_of_order_by. by apply list_elem_of_filter.
      * simpl. rewrite Hp. by destruct key.
Qed.

Lemma keys_user_key_ids_witness :
  ∃ ctx,
    keys Sample.site 45 = Rendered "public/keys.html" ctx ∧
    ctx_active_users ctx ≡ₚ [Sample.bob; Sample.alice] ∧
    last16 Sample.key_a ∈ user_key_ids (ctx_active_users ctx).
Proof.
  eexists. split; [reflexivity|].
  edestruct (keys_user_key_ids Sample.site 45) as [Hperm Hids];
    [reflexivity|].
  split; [exact Hperm|]. apply Hids.
  exists Sample.alice, Sample.key_a. split_and!; try done.
  by apply (list_elem_of_lookup_2 _ 2%nat).
Defined.
